(** * pythonUnits: unit algebra and quantity conversion

    A shallow embedding of [unitkit/main.py] (classes [Units] and [Value])
    and of the older package [units/main.py], with the properties of the
    natural-language specification stated over it.

    Numbers.  Python's [int] and [float] exponents and values are modelled
    by the canonical rationals [Qc]: arithmetic is exact, rounding is not
    modelled, and [x == 0] is Leibniz equality with [0].  Division keeps
    Python's [ZeroDivisionError] as an explicit error result. *)

From Stdlib Require Import QArith Qcanon ZArith Lia Ascii.
From Stdlib Require Qcabs.
From stdpp Require Import base numbers option list strings gmap pretty.

Local Open Scope Qc_scope.

(** ** Errors, results and warnings *)

Inductive error : Type :=
  | ZeroDivisionError
  | TypeError
  | AttributeError
  | Exception (msg : string).

Inductive result (A : Type) : Type :=
  | Ok (a : A)
  | Raise (e : error).
Arguments Ok {A} a.
Arguments Raise {A} e.

Global Instance result_ret : MRet result := λ _ a, Ok a.
Global Instance result_bind : MBind result := λ _ _ k r,
  match r with
  | Ok a => k a
  | Raise e => Raise e
  end.

(** A computation of the [Value] class: the warnings emitted through
    [warnings.warn], in order, and the result or the exception raised. *)
Record M (A : Type) : Type := mkM {
  warnings : list string;
  outcome : result A
}.
Arguments mkM {A} warnings outcome.
Arguments warnings {A} m.
Arguments outcome {A} m.

Global Instance M_ret : MRet M := λ _ a, mkM [] (Ok a).
Global Instance M_bind : MBind M := λ _ _ k m,
  match outcome m with
  | Ok a => mkM (warnings m ++ warnings (k a)) (outcome (k a))
  | Raise e => mkM (warnings m) (Raise e)
  end.

Definition warn (msg : string) : M unit := mkM [msg] (Ok tt).
Definition lift {A} (r : result A) : M A := mkM [] r.

(** ** BaseUnit *)

(** Modelled from the spec: [base.py] (class [BaseUnit]) is not among the
    sources.  An atomic unit has a symbol, a dimension, an exponent and a
    magnitude; equality ([__eq__]) is equality of symbols, truthiness
    ([__bool__]) is [exp != 0], the product of two units of one symbol adds
    the exponents and is [None] when the sum is 0, and [update_exp(k)]
    multiplies the exponent by [k] in place. *)
Record BaseUnit : Type := mkBaseUnit {
  symbol : string;
  dimension : string;
  exp : Qc;
  magnitude : Qc
}.

Global Instance BaseUnit_eq_dec : EqDecision BaseUnit.
Proof. solve_decision. Defined.

Definition set_exp (u : BaseUnit) (e : Qc) : BaseUnit :=
  mkBaseUnit (symbol u) (dimension u) e (magnitude u).

(** [a == b] on atomic units. *)
Definition unit_eqb (a b : BaseUnit) : bool :=
  bool_decide (symbol a = symbol b).

(** [bool(u)] *)
Definition unit_truthy (u : BaseUnit) : bool :=
  negb (bool_decide (exp u = 0)).

(** [a * b] for [a == b]: [None] is Python's [None]. *)
Definition unit_mul (a b : BaseUnit) : option BaseUnit :=
  let e := exp a + exp b in
  if bool_decide (e = 0) then None else Some (set_exp a e).

(** [u.update_exp(k)], as the new state of [u]. *)
Definition unit_update_exp (u : BaseUnit) (k : Qc) : BaseUnit :=
  set_exp u (exp u * k).

(** [u in lst]: some member has the symbol of [u]. *)
Definition unit_in (u : BaseUnit) (l : list BaseUnit) : bool :=
  existsb (unit_eqb u) l.

(** [[x for x in lst if x == u][0]] *)
Definition first_same (u : BaseUnit) (l : list BaseUnit) : option BaseUnit :=
  head (filter (λ x, unit_eqb x u = true) l).

(** ** Units *)

Record Units : Type := mkUnits {
  ustring : string;
  base_units : list BaseUnit
}.

Global Instance Units_eq_dec : EqDecision Units.
Proof. solve_decision. Defined.

(** An element of the [base_units] argument of the constructor: an atomic
    unit or a nested [Units]. *)
Inductive unit_item : Type :=
  | IBase (u : BaseUnit)
  | IUnits (n : Units).

(** [_flatten_unit_list]: a nested [Units] with a non-empty list is replaced
    by its atomic units.  An empty nested [Units] is appended itself; the
    pruning loop of the constructor then reads [.exp] of an object that has
    none, which is the [AttributeError] returned here. *)
Fixpoint _flatten_unit_list (items : list unit_item) : result (list BaseUnit) :=
  match items with
  | [] => Ok []
  | IBase u :: rest =>
      l ← _flatten_unit_list rest; Ok (u :: l)
  | IUnits n :: rest =>
      match base_units n with
      | [] => Raise AttributeError
      | us => l ← _flatten_unit_list rest; Ok (us ++ l)
      end
  end.

(** The inner [while i < len(remaining)] loop of [_combine_unit_list], from
    index [i] on: the merged [current] ([None] after the [break]) and what is
    left of [remaining] from [i] on. *)
Fixpoint combine_scan (current : BaseUnit) (remaining : list BaseUnit)
  : option BaseUnit * list BaseUnit :=
  match remaining with
  | [] => (Some current, [])
  | r :: rest =>
      if unit_eqb current r then
        match unit_mul current r with
        | None => (None, rest)
        | Some c => combine_scan c rest
        end
      else
        let '(c, rest') := combine_scan current rest in (c, r :: rest')
  end.

(** The outer loop of [_combine_unit_list].  [remaining.pop()] takes the last
    element of [remaining]; the scan then runs over what is left, from the
    front.  Every iteration removes at least the popped element, so
    [len(remaining)] iterations are enough. *)
Fixpoint combine_loop (fuel : nat) (remaining combined : list BaseUnit)
  : list BaseUnit :=
  match fuel with
  | O => combined
  | S fuel' =>
      match rev remaining with
      | [] => combined
      | current :: rev_rest =>
          let '(c, remaining') := combine_scan current (rev rev_rest) in
          let combined' :=
            match c with
            | Some c' => if unit_truthy c' then combined ++ [c'] else combined
            | None => combined
            end in
          combine_loop fuel' remaining' combined'
      end
  end.

Definition _combine_unit_list (units : list BaseUnit) : list BaseUnit :=
  combine_loop (length units) units [].

(** The pruning loop of [Units.__init__]. *)
Definition prune_zero (l : list BaseUnit) : list BaseUnit :=
  filter (λ u, exp u ≠ 0) l.

(** [Units(string, base_units, parse=False)] *)
Definition Units_init (s : string) (items : list unit_item) : result Units :=
  flattened ← _flatten_unit_list items;
  Ok (mkUnits s (prune_zero (_combine_unit_list flattened))).

(** The same constructor on a list of atomic units, where flattening is the
    identity. *)
Definition Units_of_list (s : string) (l : list BaseUnit) : Units :=
  mkUnits s (prune_zero (_combine_unit_list l)).

(** [Units()]: the parser is called on the empty string, and the empty
    string denotes the empty expression. *)
Definition Units_empty : Units := mkUnits "" [].

(** [Units.__mul__], the branch for an atomic unit [other]. *)
Definition Units_mul_base (self : Units) (other : BaseUnit) : Units :=
  let merged :=
    omap (λ u,
      if unit_eqb u other then unit_mul u other
      else if unit_truthy u then Some u else None) (base_units self) in
  mkUnits "" (merged ++ (if unit_in other (base_units self) then [] else [other])).

(** [Units.__mul__], the branch for a [Units] [other].  A unit of [self]
    with a partner of its symbol in [other] is multiplied with the first
    such partner; [if u:] drops the products that are [None] and the units
    of [self] whose exponent is 0. *)
Definition Units_mul (self other : Units) : Units :=
  let merged :=
    omap (λ u,
      match first_same u (base_units other) with
      | Some same => unit_mul u same
      | None => if unit_truthy u then Some u else None
      end) (base_units self) in
  let fresh :=
    filter (λ u, unit_in u (base_units self) = false) (base_units other) in
  mkUnits "" (merged ++ fresh).

(** [Units.copy]: the string is kept, every atomic unit is copied. *)
Definition Units_copy (self : Units) : Units :=
  mkUnits (ustring self) (base_units self).

(** [Units.update_exp] of [unitkit]: on a copy. *)
Definition Units_update_exp (self : Units) (k : Qc) : Units :=
  mkUnits (ustring self) (map (λ u, unit_update_exp u k) (base_units self)).

(** [Units.invert] *)
Definition Units_invert (self : Units) : Units :=
  Units_update_exp self (-1).

(** [Units.__truediv__] *)
Definition Units_div (self other : Units) : Units :=
  Units_mul self (Units_invert other).

(** [Units.is_unitless] *)
Definition is_unitless (self : Units) : bool :=
  bool_decide (length (base_units self) = 0%nat).

(** ** Convertibility *)

(** The dictionary [dimensions] of [can_convert] after the loop over
    [base_units]. *)
Definition dimension_sums (l : list BaseUnit) : gmap string Qc :=
  foldl (λ dims u,
    let dims' :=
      match dims !! dimension u with
      | None => <[dimension u := 0]> dims
      | Some _ => dims
      end in
    <[dimension u := default 0 (dims' !! dimension u) + exp u]> dims') ∅ l.

(** [can_convert], as [units/main.py] defines it; the module [conversions]
    that [unitkit] takes it from is not among the sources. *)
Definition can_convert (units : Units) : bool :=
  bool_decide (map_Forall (λ _ v, v = 0) (dimension_sums (base_units units))).

(** Modelled from the spec: [BaseUnit.__mul__] and [BaseUnit.__truediv__] on
    two atomic units, as [simplify] uses them, are missing with [base.py].
    [simplify] hands the product to [can_convert], which reads its
    [base_units]: the product is the unit expression of the two factors,
    built the way [Units.__mul__] multiplies by an atomic unit, and the
    quotient is the product with the inverted unit.  This is the product of
    two units of different symbols, which is what [simplify] meets on a
    receiver with at most one atomic unit per symbol.  For two units of one
    symbol the loops of [_combine_unit_list] and of [Units.__mul__] show
    that [u * r] is an atomic unit or [None]; [can_convert] cannot read
    that, and the call raises where the definition below goes on. *)
Definition unit_times (u r : BaseUnit) : Units :=
  Units_mul_base (mkUnits "" [u]) r.

Definition unit_over (u r : BaseUnit) : Units :=
  unit_times u (unit_update_exp r (-1)).

(** ** simplify *)

(** The inner loop of [Units.simplify] from index [i] on: whether [u] was
    cancelled, the state of [u] at the end, and what is left of [remaining]
    from [i] on. *)
Fixpoint simplify_scan (u : BaseUnit) (remaining : list BaseUnit)
  : bool * BaseUnit * list BaseUnit :=
  match remaining with
  | [] => (false, u, [])
  | r :: rest =>
      if can_convert (unit_times u r) then (true, u, rest)
      else if can_convert (unit_over u r) then
        simplify_scan (set_exp u (exp u + exp r)) rest
      else
        let '(canceled, u', rest') := simplify_scan u rest in
        (canceled, u', r :: rest')
  end.

(** The outer loop of [Units.simplify]; every iteration pops the first
    element, so [len(remaining)] iterations are enough. *)
Fixpoint simplify_loop (fuel : nat) (remaining keep : list BaseUnit)
  : list BaseUnit :=
  match fuel, remaining with
  | S fuel', u :: rest =>
      let '(canceled, u', rest') := simplify_scan u rest in
      simplify_loop fuel' rest' (if canceled then keep else keep ++ [u'])
  | _, _ => keep
  end.

(** [Units.simplify] of [unitkit], as the value it returns. *)
Definition simplify (self : Units) : Units :=
  Units_of_list ""
    (simplify_loop (length (base_units self)) (base_units self) []).

(** ** Numbers and significant figures *)

(** A Python number handed to [Value]: [str] tells an [int] from a
    [float], their numeric value is a rational. *)
Inductive number : Type :=
  | PyInt (z : Z)
  | PyFloat (q : Qc).

Definition number_value (n : number) : Qc :=
  match n with
  | PyInt z => Qc_of_Z z
  | PyFloat q => q
  end.

(** [s.lstrip(c)] for a one-character [c]. *)
Fixpoint lstrip_char (c : ascii) (s : string) : string :=
  match s with
  | String a s' => if bool_decide (a = c) then lstrip_char c s' else s
  | EmptyString => EmptyString
  end.

(** [s.strip(c)] *)
Definition strip_char (c : ascii) (s : string) : string :=
  String.rev (lstrip_char c (String.rev (lstrip_char c s))).

(** [s.partition(c)]: the text before the first [c] and the text after it,
    the second empty when [c] does not occur. *)
Fixpoint partition_char (c : ascii) (s : string) : string * string :=
  match s with
  | String a s' =>
      if bool_decide (a = c) then (EmptyString, s')
      else let '(pre, post) := partition_char c s' in (String a pre, post)
  | EmptyString => (EmptyString, EmptyString)
  end.

(** [count_sigfigs], on [str(number)]. *)
Definition count_sigfigs (str_number : string) : nat :=
  let number := (partition_char "e"%char (lstrip_char "-"%char str_number)).1 in
  let '(integer, decimal) := partition_char "."%char number in
  match decimal with
  | EmptyString => String.length (strip_char "0"%char integer)
  | _ => String.length (lstrip_char "0"%char (integer +:+ decimal))
  end.

(** ** The collaborators outside the sources

    The parser ([parse.py]), the table of unit definitions behind
    [BaseUnit] ([base.py]) and the temperature part of [conversions] are
    not among the sources; the classes below take them as an environment. *)
Record Env : Type := mkEnv {
  (** [parse_units(string)] on a non-empty unit string *)
  parse_units : string → string * list BaseUnit;
  (** [str(units)]: [Units.__str__] sorts with [BaseUnit.__lt__] and joins
      [BaseUnit.__str__] *)
  units_str : Units → string;
  (** [str(number)] *)
  number_str : number → string;
  (** [conversions.is_temperature_conversion] *)
  is_temperature_conversion : Units → Units → bool;
  (** [conversions.get_temperature_converter] *)
  get_temperature_converter : Units → Units → Qc → Qc;
  (** [BaseUnit.mod]: the numeric factor that an atomic unit of a
      conversion ratio contributes *)
  unit_mod : BaseUnit → Qc;
  (** [x ** y] on floats *)
  float_pow : Qc → Qc → result Qc;
  (** [BaseUnit.to_dimension_base] *)
  to_dimension_base : BaseUnit → BaseUnit * Qc;
  (** [BaseUnit.can_expand] *)
  can_expand : BaseUnit → bool;
  (** [BaseUnit.full_expand] *)
  full_expand : BaseUnit → Units * Qc
}.

(** ** Value *)

Record Value : Type := mkValue {
  value : Qc;
  units : Units;
  sigfigs : Z
}.

Global Instance Value_eq_dec : EqDecision Value.
Proof. solve_decision. Defined.

(** What an operator of [Value] receives as [other]: a number, a [Value],
    or an object that is neither and that [float] refuses with a
    [TypeError].  Strings, which [float] parses or refuses with a
    [ValueError], are no operands here. *)
Inductive operand : Type :=
  | ONumber (n : number)
  | OValue (v : Value)
  | OOther.

Section WithEnv.
Context (E : Env).

(** [Units(string)], the parsing constructor, on a unit string. *)
Definition Units_parse (s : string) : Units :=
  let '(s', l) := parse_units E s in mkUnits s' (prune_zero l).

(** [Units(u)] on an atomic unit, as [build_conversion_factor] calls it
    through [Value(u.mod(), u)]. *)
Definition Units_of_base (u : BaseUnit) : Units :=
  mkUnits "" (prune_zero [u]).

(** [Units.expand_all] *)
Definition expand_all (self : Units) : Units * Qc :=
  let '(new_base_units, modifier) :=
    foldl (λ '(acc, modifier) u,
      let '(u', to_dbase_modifier) := to_dimension_base E u in
      let modifier := modifier * to_dbase_modifier in
      if can_expand E u' then
        let '(expanded, expand_modifier) := full_expand E u' in
        (acc ++ base_units expanded, modifier * expand_modifier)
      else (acc ++ [u'], modifier))
    ([], 1) (base_units self) in
  (Units_of_list "" new_base_units, modifier).

(** [Value(number, units, sigfigs)] with [units] a [Units] object; a missing
    [sigfigs] is counted on [str(number)]. *)
Definition Value_init (n : number) (u : Units) (sf : option Z) : Value :=
  mkValue (number_value n) u
    (default (Z.of_nat (count_sigfigs (number_str E n))) sf).

(** [float(input)] *)
Definition to_float (input : operand) : result Qc :=
  match input with
  | ONumber n => Ok (number_value n)
  | OValue v => Ok (value v)
  | OOther => Raise TypeError
  end.

Definition assumed_units_warning (self : Value) : string :=
  "The input was not a Value object. Assuming units are " +:+
  units_str E (units self).

(** The decorator [ensure_value_input] applied to [f]. *)
Definition ensure_value_input {A} (f : Value → Value → M A)
    (self : Value) (input : operand) : M A :=
  match input with
  | OValue v => f self v
  | _ =>
      if can_convert (units self) then
        x ← lift (to_float input);
        f self (Value_init (PyFloat x) Units_empty None)
      else
        _ ← warn (assumed_units_warning self);
        x ← lift (to_float input);
        f self (Value_init (PyFloat x) (units self) None)
  end.

(** What the decorator hands to [f] as [input], with the warnings it
    emitted on the way. *)
Definition coerce (self : Value) (input : operand) : M Value :=
  ensure_value_input (λ _ v, mret v) self input.

(** [Value.__mul__] on two [Value]s. *)
Definition Value_mul_value (self other : Value) : Value :=
  mkValue (value self * value other) (Units_mul (units self) (units other))
    (Z.min (sigfigs self) (sigfigs other)).

(** [Value.__mul__] *)
Definition Value_mul (self : Value) (other : operand) : result Value :=
  match other with
  | ONumber n => Ok (mkValue (value self * number_value n) (units self) (sigfigs self))
  | OValue o => Ok (Value_mul_value self o)
  | OOther => Raise AttributeError
  end.

(** [Value.__rmul__] *)
Definition Value_rmul (self : Value) (other : operand) : result Value :=
  match other with
  | ONumber _ => Value_mul self other
  | _ => Raise TypeError
  end.

(** [x / y] on floats *)
Definition float_div (x y : Qc) : result Qc :=
  if bool_decide (y = 0) then Raise ZeroDivisionError else Ok (x / y).

(** [Value.__truediv__] *)
Definition Value_truediv (self : Value) (other : operand) : result Value :=
  match other with
  | ONumber n =>
      q ← float_div (value self) (number_value n);
      Ok (mkValue q (units self) (sigfigs self))
  | OValue o =>
      q ← float_div (value self) (value o);
      Ok (mkValue q (Units_div (units self) (units o))
            (Z.min (sigfigs self) (sigfigs o)))
  | OOther => Raise AttributeError
  end.

(** [Value.__rtruediv__] *)
Definition Value_rtruediv (self : Value) (other : operand) : result Value :=
  match other with
  | ONumber n =>
      q ← float_div (number_value n) (value self);
      Ok (mkValue q (Units_invert (units self)) (sigfigs self))
  | _ => Raise TypeError
  end.

(** [Value.__pow__] *)
Definition Value_pow (self : Value) (exp : operand) : result Value :=
  match exp with
  | OOther => Raise TypeError
  | _ =>
      k ← to_float exp;
      p ← float_pow E (value self) k;
      Ok (mkValue p (Units_update_exp (units self) k) (sigfigs self))
  end.

(** [build_conversion_factor], as [units/main.py] defines it; the module
    [conversions] that [unitkit] takes it from is not among the sources.
    [needs_mw] is set only on the paths of [convert_units] where [mw] is
    given. *)
Definition build_conversion_factor (converter_units : Units)
    (mw : option Value) (needs_mw : bool) : result Value :=
  let factor := Value_init (PyInt 1) Units_empty None in
  '(converter_units, factor) ←
    (if needs_mw then
       match mw with
       | Some m => Ok (Units_div converter_units (units m), Value_mul_value factor m)
       | None => Raise AttributeError
       end
     else Ok (converter_units, factor));
  Ok (foldl (λ factor u,
        Value_mul_value factor
          (Value_init (PyFloat (unit_mod E u)) (Units_of_base u) None))
      factor (base_units converter_units)).

Definition needs_mw_message : string :=
  "Needs the molecular weight to convert but no molecular weight was provided.".

Definition cannot_convert_message (self_units new_units : Units) : string :=
  "The units (" +:+ units_str E self_units +:+
  ") can't be converted to the new units (" +:+ units_str E new_units +:+ ")".

(** [Value.convert_units] of [unitkit], with [new_units] a [Units] object. *)
Definition convert_units (self : Value) (new_units : Units)
    (mw : option Value) : result Value :=
  if is_temperature_conversion E (units self) new_units then
    let converter := get_temperature_converter E (units self) new_units in
    Ok (mkValue (converter (value self)) new_units (sigfigs self))
  else
    let converter_units := Units_div new_units (units self) in
    if is_unitless converter_units then
      Ok (mkValue (value self) new_units (sigfigs self))
    else
      '(mw, needs_mw) ←
        (if negb (can_convert converter_units) then
           let mw_units := Units_parse "g/mol" in
           if can_convert (Units_mul converter_units mw_units) then
             match mw with
             | None => Raise (Exception needs_mw_message)
             | Some m =>
                 m' ← Value_rtruediv m (ONumber (PyInt 1));
                 Ok (Some m', true)
             end
           else if can_convert (Units_div converter_units mw_units) then
             match mw with
             | None => Raise (Exception needs_mw_message)
             | Some m => Ok (Some m, true)
             end
           else
             Raise (Exception (cannot_convert_message (units self) new_units))
         else Ok (mw, false));
      conversion_factor ← build_conversion_factor converter_units mw needs_mw;
      let new := Value_mul_value self conversion_factor in
      Ok (mkValue (value new) new_units (sigfigs self)).

(** The bodies of the decorated operators: [other] is a [Value] here. *)
Definition Value_lt_body (self other : Value) : M bool :=
  other' ← lift (convert_units other (units self) None);
  mret (bool_decide (value self < value other')).

Definition Value_gt_body (self other : Value) : M bool :=
  other' ← lift (convert_units other (units self) None);
  mret (bool_decide (value other' < value self)).

Definition Value_add_body (self other : Value) : M Value :=
  other' ← lift (convert_units other (units self) None);
  mret (mkValue (value self + value other') (units self)
          (Z.min (sigfigs self) (sigfigs other'))).

Definition Value_sub_body (self other : Value) : M Value :=
  other' ← lift (convert_units other (units self) None);
  mret (mkValue (value self - value other') (units self)
          (Z.min (sigfigs self) (sigfigs other'))).

(** [Value.equals]; [epsilon] defaults to [0.005]. *)
Definition Value_equals_body (epsilon : Qc) (self other : Value) : M bool :=
  other' ← lift (convert_units other (units self) None);
  q ← lift (float_div (value self - value other') (value self));
  mret (bool_decide (Qcabs.Qcabs q < epsilon)).

Definition default_epsilon : Qc := Q2Qc (5 # 1000).

(** [Value.__lt__], [__gt__], [__add__], [__sub__] and [equals] *)
Definition Value_lt := ensure_value_input Value_lt_body.
Definition Value_gt := ensure_value_input Value_gt_body.
Definition Value_add := ensure_value_input Value_add_body.
Definition Value_sub := ensure_value_input Value_sub_body.
Definition Value_equals (epsilon : Qc) :=
  ensure_value_input (Value_equals_body epsilon).

(** [Value.__eq__] *)
Definition Value_eq (self : Value) (other : operand) : M bool :=
  Value_equals default_epsilon self other.

(** [Value.__radd__]: the decorated body calls the decorated [__add__]. *)
Definition Value_radd :=
  ensure_value_input (λ self other, Value_add self (OValue other)).

(** [Value.__rsub__]: [other - self.value] is [Value.__sub__] of [other] on
    the float [self.value]; [Value(...)] then takes the [float] of that
    difference. *)
Definition Value_rsub :=
  ensure_value_input (λ self other,
    d ← Value_sub other (ONumber (PyFloat (value self)));
    mret (mkValue (value d) (units self) (sigfigs self))).

(** [Value.simplify_units], as far as [simplify] leaves the atomic units of
    the receiver as they were; [Heap.simplify_units] has the general case. *)
Definition simplify_units (self : Value) : result Value :=
  convert_units self (simplify (units self)) None.

End WithEnv.

(** ** A concrete environment

    Modelled from the spec: the table of unit definitions, the parser and
    the temperature converters are out of the sources; this is a small
    instance of them for the units the specification names in its examples
    (kg, g, m, s, mol, N, the temperature scales), used to run the code on
    concrete inputs. *)
Module Std.

(** the rational [n / d] *)
Definition q (n : Z) (d : positive) : Qc := Q2Qc (n # d).

(** symbol, dimension, magnitude relative to the base unit of the dimension *)
Definition table : list (string * (string * Qc)) :=
  [ ("kg", ("mass", 1)); ("g", ("mass", q 1 1000));
    ("m", ("length", 1)); ("ft", ("length", q 3048 10000));
    ("in", ("length", q 254 10000));
    ("s", ("time", 1)); ("mol", ("amount", 1));
    ("N", ("force", 1));
    ("K", ("temperature", 1)); ("°C", ("temperature", 1));
    ("°F", ("temperature", q 5 9)) ].

(** The table entry of a symbol. *)
Definition lookup_symbol (s : string) : option (string * Qc) :=
  match list_find (λ e, e.1 = s) table with
  | Some (_, (_, v)) => Some v
  | None => None
  end.

(** The atomic unit of symbol [s] with exponent [e]; a symbol outside the
    table is a dimension of its own. *)
Definition unit (s : string) (e : Z) : BaseUnit :=
  match lookup_symbol s with
  | Some (d, m) => mkBaseUnit s d (Qc_of_Z e) m
  | None => mkBaseUnit s s (Qc_of_Z e) 1
  end.

(** [parse_units] on the unit strings used below: a symbol of the table,
    "g/mol" and "m/s". *)
Definition parse (s : string) : string * list BaseUnit :=
  if bool_decide (s = "g/mol") then (s, [unit "g" 1; unit "mol" (-1)])
  else if bool_decide (s = "m/s") then (s, [unit "m" 1; unit "s" (-1)])
  else match lookup_symbol s with
       | Some _ => (s, [unit s 1])
       | None => (s, [])
       end.

(** [x ** k] for an integral [k] *)
Definition powZ (x : Qc) (k : Z) : Qc :=
  match k with
  | Z0 => 1
  | Zpos p => x ^ Pos.to_nat p
  | Zneg p => / (x ^ Pos.to_nat p)
  end.

(** The integer a rational is, when it is one. *)
Definition integral (x : Qc) : option Z :=
  if bool_decide (Qden x = 1%positive) then Some (Qnum x) else None.

(** [magnitude ** exp], the modifier of [to_dimension_base]; only integral
    exponents are tabulated, the others are left at 1 *)
Definition scale (u : BaseUnit) : Qc :=
  match integral (exp u) with
  | Some k => powZ (magnitude u) k
  | None => 1
  end.

(** [BaseUnit.mod]: what a unit of the ratio target/source contributes to
    the conversion factor, [magnitude ** -exp] (from g to kg the ratio is
    kg g^-1 and the factor 0.001) *)
Definition mod_ (u : BaseUnit) : Qc :=
  match integral (exp u) with
  | Some k => powZ (magnitude u) (- k)
  | None => 1
  end.

(** [x ** k]: [0.0] to a negative power raises; only integral exponents are
    tabulated, the others are left at 1 *)
Definition pow (x k : Qc) : result Qc :=
  match integral k with
  | Some z =>
      if bool_decide (x = 0) && bool_decide (z < 0)%Z
      then Raise ZeroDivisionError else Ok (powZ x z)
  | None => Ok 1
  end.

(** The digits of the fractional part [r / d], at most [n] of them. *)
Fixpoint frac_digits (n : nat) (r d : Z) : string :=
  match n with
  | O => ""
  | S n' =>
      if bool_decide (r = 0)%Z then ""
      else pretty (r * 10 / d)%Z +:+ frac_digits n' (r * 10 mod d)%Z d
  end.

(** [str] of a number in plain decimal notation: an [int] prints its
    digits, a [float] always has a fractional part.  Python writes a
    [float] this way between 1e-4 and 1e16 and with an exponent outside;
    the numbers printed below are inside. *)
Definition str (n : number) : string :=
  match n with
  | PyInt z => pretty z
  | PyFloat x =>
      let a := Z.abs (Qnum x) in
      let d := Zpos (Qden x) in
      let frac := frac_digits 17 (a mod d)%Z d in
      (if bool_decide (Qnum x < 0)%Z then "-" else "") +:+
      pretty (a / d)%Z +:+ "." +:+
      (if bool_decide (frac = "") then "0" else frac)
  end.

(** [str(units)], by symbols only: [Units.__str__] sorts the atomic units
    with [BaseUnit.__lt__] in reverse and joins what [BaseUnit.__str__]
    prints, both out of the sources; here the list order is kept and the
    exponents are left out, so the text of a message is that of the code
    only up to this rendering. *)
Definition render (U : Units) : string :=
  match base_units U with
  | [] => "(unitless)"
  | l => String.concat " " (map symbol l)
  end.

(** The symbol of a unit expression that is one temperature scale. *)
Definition is_temperature (U : Units) : option string :=
  match base_units U with
  | [u] =>
      if bool_decide (dimension u = "temperature") && bool_decide (exp u = 1)
      then Some (symbol u) else None
  | _ => None
  end.

(** Modelled from the spec: [conversions.is_temperature_conversion] holds
    when source and target are both one temperature scale. *)
Definition is_temperature_conversion (S T : Units) : bool :=
  bool_decide (is_Some (is_temperature S)) &&
  bool_decide (is_Some (is_temperature T)).

(** Modelled from the spec: the affine transform of a (source symbol,
    target symbol) pair, for the scales K, °C and °F. *)
Definition temperature_converter (src tgt : string) (x : Qc) : Qc :=
  let to_kelvin :=
    if bool_decide (src = "°C") then x + q 27315 100
    else if bool_decide (src = "°F") then (x - Qc_of_Z 32) * q 5 9 + q 27315 100
    else x in
  if bool_decide (src = tgt) then x
  else if bool_decide (src = "°C") && bool_decide (tgt = "°F")
  then x * q 9 5 + Qc_of_Z 32
  else if bool_decide (src = "°F") && bool_decide (tgt = "°C")
  then (x - Qc_of_Z 32) * q 5 9
  else if bool_decide (tgt = "°C") then to_kelvin - q 27315 100
  else if bool_decide (tgt = "°F")
  then (to_kelvin - q 27315 100) * q 9 5 + Qc_of_Z 32
  else to_kelvin.

(** Modelled from the spec: [conversions.get_temperature_converter] picks
    the transform by the two symbols. *)
Definition get_temperature_converter (S T : Units) (x : Qc) : Qc :=
  match is_temperature S, is_temperature T with
  | Some a, Some b => temperature_converter a b x
  | _, _ => x
  end.

(** The base unit of a dimension. *)
Definition base_symbol (dimension : string) : string :=
  if bool_decide (dimension = "mass") then "kg"
  else if bool_decide (dimension = "length") then "m"
  else if bool_decide (dimension = "time") then "s"
  else if bool_decide (dimension = "amount") then "mol"
  else if bool_decide (dimension = "temperature") then "K"
  else if bool_decide (dimension = "force") then "N"
  else dimension.

(** [to_dimension_base]: the base unit with the exponent kept, and
    [magnitude ** exp]. *)
Definition to_dimension_base (u : BaseUnit) : BaseUnit * Qc :=
  (mkBaseUnit (base_symbol (dimension u)) (dimension u) (exp u) 1, scale u).

(** Only the newton is compound here: N is kg m s^-2, with modifier 1. *)
Definition can_expand (u : BaseUnit) : bool := bool_decide (symbol u = "N").

Definition full_expand (u : BaseUnit) : Units * Qc :=
  (mkUnits ""
     [set_exp (unit "kg" 1) (exp u); set_exp (unit "m" 1) (exp u);
      set_exp (unit "s" 1) (exp u * Qc_of_Z (-2))], 1).

(** The environment of these definitions. *)
Definition env : Env :=
  mkEnv parse render str is_temperature_conversion get_temperature_converter
    mod_ pow to_dimension_base can_expand full_expand.

(** [Value(number, string)] *)
Definition quantity (n : number) (s : string) : Value :=
  Value_init env n (Units_parse env s) None.

End Std.

(** ** The older package [units/main.py]

    Its [Units] constructor flattens without merging, [Units.update_exp]
    works in place, [simplify] also returns a numeric modifier, [Value]
    has no decorator and [convert_units] has no temperature branch and
    leaves the units to the product. *)
Module Legacy.
Section WithEnv.
Context (E : Env).

(** [Units(string, base_units, parse=False)] *)
Definition Units_init (s : string) (items : list unit_item) : result Units :=
  flattened ← _flatten_unit_list items;
  Ok (mkUnits s (prune_zero flattened)).

Definition Units_of_list (s : string) (l : list BaseUnit) : Units :=
  mkUnits s (prune_zero l).

(** The inner loop of [Units.simplify], with the running [modifier]. *)
Fixpoint simplify_scan (u : BaseUnit) (remaining : list BaseUnit)
    (modifier : Qc) : result (bool * BaseUnit * list BaseUnit * Qc) :=
  match remaining with
  | [] => Ok (false, u, [], modifier)
  | r :: rest =>
      if can_convert (unit_times u r) then
        q ← float_div (unit_mod E r) (unit_mod E u);
        Ok (true, u, rest, modifier * q)
      else if can_convert (unit_over u r) then
        m ← float_div modifier (unit_mod E r * unit_mod E u);
        simplify_scan (set_exp u (exp u + exp r)) rest m
      else
        '(canceled, u', rest', m) ← simplify_scan u rest modifier;
        Ok (canceled, u', r :: rest', m)
  end.

Fixpoint simplify_loop (fuel : nat) (remaining keep : list BaseUnit)
    (modifier : Qc) : result (list BaseUnit * Qc) :=
  match fuel, remaining with
  | S fuel', u :: rest =>
      match simplify_scan u rest modifier with
      | Ok (canceled, u', rest', m) =>
          simplify_loop fuel' rest' (if canceled then keep else keep ++ [u']) m
      | Raise e => Raise e
      end
  | _, _ => Ok (keep, modifier)
  end.

(** [Units.simplify], on a receiver with at most one atomic unit per
    symbol (see [unit_times]); the constructor of this package does not
    merge, so other receivers exist, and on them the code raises before it
    returns. *)
Definition simplify (self : Units) : result (Units * Qc) :=
  '(keep, modifier) ←
    simplify_loop (length (base_units self)) (base_units self) [] 1;
  Ok (Units_of_list "" keep, modifier).

(** [Value.convert_units] *)
Definition convert_units (self : Value) (new_units : Units)
    (mw : option Value) : result Value :=
  let converter_units := Units_div new_units (units self) in
  if is_unitless converter_units then
    Ok (mkValue (value self) (units self) (sigfigs self))
  else
    '(mw, needs_mw) ←
      (if negb (can_convert converter_units) then
         let mw_units := Units_parse E "g/mol" in
         if can_convert (Units_mul converter_units mw_units) then
           match mw with
           | None => Raise (Exception needs_mw_message)
           | Some m =>
               m' ← Value_rtruediv m (ONumber (PyInt 1));
               Ok (Some m', true)
           end
         else if can_convert (Units_div converter_units mw_units) then
           match mw with
           | None => Raise (Exception needs_mw_message)
           | Some m => Ok (Some m, true)
           end
         else
           Raise (Exception (cannot_convert_message E (units self) new_units))
       else Ok (mw, false));
    conversion_factor ← build_conversion_factor E converter_units mw needs_mw;
    let new := Value_mul_value self conversion_factor in
    Ok (mkValue (value new) (units new) (sigfigs self)).

(** [Value.__add__] *)
Definition Value_add (self : Value) (other : operand) : result Value :=
  match other with
  | ONumber n =>
      Ok (mkValue (value self + number_value n) (units self) (sigfigs self))
  | OValue o =>
      other' ← convert_units o (units self) None;
      Ok (mkValue (value self + value other') (units self)
            (Z.min (sigfigs self) (sigfigs other')))
  | OOther => Raise AttributeError
  end.

(** [Value.__sub__] *)
Definition Value_sub (self : Value) (other : operand) : result Value :=
  match other with
  | ONumber n =>
      Ok (mkValue (value self - number_value n) (units self) (sigfigs self))
  | OValue o =>
      other' ← convert_units o (units self) None;
      Ok (mkValue (value self - value other') (units self)
            (Z.min (sigfigs self) (sigfigs other')))
  | OOther => Raise AttributeError
  end.

(** [Value.equals] *)
Definition Value_equals (epsilon : Qc) (self : Value) (other : operand)
  : result bool :=
  match other with
  | OValue o =>
      other' ← convert_units o (units self) None;
      q ← float_div (value self - value other') (value self);
      Ok (bool_decide (Qcabs.Qcabs q < epsilon))
  | _ => Raise TypeError
  end.

(** [Value.simplify_units] *)
Definition simplify_units (self : Value) : result Value :=
  '(new_units, modifier) ← simplify (units self);
  Ok (mkValue (value self * modifier) new_units (sigfigs self)).

End WithEnv.
End Legacy.

(** ** Object identity

    [BaseUnit] objects are mutable and shared: [list.copy()] copies the
    list, not the objects in it.  A store maps object identities to the
    state of the atomic units; a [Units] object is seen through the list of
    identities in its [base_units]. *)
Module Heap.

Abbreviation heap := (gmap nat BaseUnit).

(** The atomic units a list of references denotes. *)
Fixpoint read (h : heap) (refs : list nat) : list BaseUnit :=
  match refs with
  | [] => []
  | r :: rest =>
      match h !! r with
      | Some u => u :: read h rest
      | None => read h rest
      end
  end.

(** [u.copy()]: a new object in the state of [u]. *)
Definition alloc (h : heap) (u : BaseUnit) : heap * nat :=
  let r := fresh (dom h) in (<[r := u]> h, r).

(** The loop of [Units.copy]. *)
Fixpoint copy_refs (h : heap) (refs : list nat) : heap * list nat :=
  match refs with
  | [] => (h, [])
  | r :: rest =>
      match h !! r with
      | Some u =>
          let '(h1, r') := alloc h u in
          let '(h2, rest') := copy_refs h1 rest in
          (h2, r' :: rest')
      | None => copy_refs h rest
      end
  end.

(** [for u in units.base_units: u.update_exp(k)] *)
Definition update_exp_refs (h : heap) (refs : list nat) (k : Qc) : heap :=
  foldl (λ h r, alter (λ u, unit_update_exp u k) r h) h refs.

(** [Units.update_exp] of [unitkit]: the store after the call and the
    [base_units] of the object returned. *)
Definition update_exp (h : heap) (self : list nat) (k : Qc) : heap * list nat :=
  let '(h1, new) := copy_refs h self in (update_exp_refs h1 new k, new).

(** [Units.invert] *)
Definition invert (h : heap) (self : list nat) : heap * list nat :=
  update_exp h self (-1).

(** [Units.update_exp] of [units/main.py]: it returns [None]. *)
Definition legacy_update_exp (h : heap) (self : list nat) (k : Qc) : heap :=
  update_exp_refs h self k.

(** The inner loop of [Units.simplify] on the objects; [u.exp += other.exp]
    writes to the object [u]. *)
Fixpoint simplify_scan (h : heap) (u : nat) (remaining : list nat)
  : heap * bool * list nat :=
  match remaining with
  | [] => (h, false, [])
  | r :: rest =>
      match h !! u, h !! r with
      | Some bu, Some br =>
          if can_convert (unit_times bu br) then (h, true, rest)
          else if can_convert (unit_over bu br) then
            simplify_scan (<[u := set_exp bu (exp bu + exp br)]> h) u rest
          else
            let '(h', canceled, rest') := simplify_scan h u rest in
            (h', canceled, r :: rest')
      | _, _ => (h, false, remaining)
      end
  end.

Fixpoint simplify_loop (fuel : nat) (h : heap) (remaining keep : list nat)
  : heap * list nat :=
  match fuel, remaining with
  | S fuel', u :: rest =>
      let '(h', canceled, rest') := simplify_scan h u rest in
      simplify_loop fuel' h' rest' (if canceled then keep else keep ++ [u])
  | _, _ => (h, keep)
  end.

(** [Units.simplify] up to the call of the constructor: the store and the
    list [keep].  The constructor reads these objects and writes to none:
    [current *= other] binds [current] to a new object. *)
Definition simplify (h : heap) (self : list nat) : heap * list nat :=
  simplify_loop (length self) h self [].

(** [Value.simplify_units] on the objects: [self.units.simplify()] has
    written to the atomic units of the receiver before [self.to] reads
    them, and the units it returns are built from the objects of [keep].
    [num], [str] and [sf] are the value, the unit string and the
    significant figures of the receiver, [self] its [units.base_units]. *)
Definition simplify_units (E : Env) (h : heap) (num : Qc) (str : string)
    (self : list nat) (sf : Z) : result Value :=
  let '(h', keep) := simplify h self in
  convert_units E (mkValue num (mkUnits str (read h' self)) sf)
    (Units_of_list "" (read h' keep)) None.

End Heap.

(** ** The loops of [simplify] as a machine

    One state per evaluation of a loop condition; [i] is the index of the
    inner loop. *)
Module Machine.

Inductive state : Type :=
  | Outer (remaining keep : list BaseUnit)
  | Inner (u : BaseUnit) (i : nat) (remaining keep : list BaseUnit)
  | Exit (u : BaseUnit) (canceled : bool) (remaining keep : list BaseUnit)
  | Done (keep : list BaseUnit).

(** [Outer]: at [while len(remaining) > 0]; [Inner]: at
    [while i < len(remaining)], where [canceled] is still [False]; [Exit]:
    at [if not canceled], after the inner loop ended or was broken. *)
Definition step (s : state) : state :=
  match s with
  | Outer [] keep => Done keep
  | Outer (u :: remaining) keep => Inner u 0 remaining keep
  | Inner u i remaining keep =>
      match remaining !! i with
      | Some r =>
          if can_convert (unit_times u r) then
            Exit u true (delete i remaining) keep
          else if can_convert (unit_over u r) then
            Inner (set_exp u (exp u + exp r)) i (delete i remaining) keep
          else Inner u (S i) remaining keep
      | None => Exit u false remaining keep
      end
  | Exit u canceled remaining keep =>
      Outer remaining (if canceled then keep else keep ++ [u])
  | Done keep => Done keep
  end.

(** [n] steps *)
Fixpoint run (n : nat) (s : state) : state :=
  match n with
  | O => s
  | S n' => run n' (step s)
  end.

End Machine.

(** * Notions of the statements *)

(** Errors, results and computations are compared by decision, so that
    closed instances are settled by evaluation. *)
Global Instance error_eq_dec : EqDecision error.
Proof. solve_decision. Defined.
Global Instance result_eq_dec `{EqDecision A} : EqDecision (result A).
Proof. solve_decision. Defined.
Global Instance M_eq_dec `{EqDecision A} : EqDecision (M A).
Proof. solve_decision. Defined.

(** The significant figures of the [Value] an operand stands for: its own,
    or for a bare number those counted on [str(float(number))]. *)
Definition operand_sigfigs (E : Env) (input : operand) : Z :=
  match input with
  | OValue b => sigfigs b
  | ONumber n => Z.of_nat (count_sigfigs (number_str E (PyFloat (number_value n))))
  | OOther => 0
  end.

(** No atomic unit of [U] has exponent 0. *)
Definition nonzero (U : Units) : Prop :=
  Forall (λ u, exp u ≠ 0) (base_units U).

(** The exponent that a list of atomic units gives to a symbol: the sum over
    the units of that symbol, 0 when there is none. *)
Fixpoint exp_of (l : list BaseUnit) (s : string) : Qc :=
  match l with
  | [] => 0
  | u :: l' => (if bool_decide (symbol u = s) then exp u else 0) + exp_of l' s
  end.

(** [A ≡ B]: the same exponent for every symbol. *)
Definition same_mapping (A B : Units) : Prop :=
  ∀ s, exp_of (base_units A) s = exp_of (base_units B) s.

(** [simplify] would cancel or merge [r] into [u]. *)
Definition partners (u r : BaseUnit) : bool :=
  can_convert (unit_times u r) || can_convert (unit_over u r).

(** No atomic unit has a partner further down the list. *)
Fixpoint stable (l : list BaseUnit) : bool :=
  match l with
  | [] => true
  | u :: rest => forallb (λ r, negb (partners u r)) rest && stable rest
  end.

(** Every reference of [refs] names an object of the store. *)
Definition allocated (h : gmap nat BaseUnit) (refs : list nat) : Prop :=
  Forall (λ r, is_Some (h !! r)) refs.

(** What a conversion function [conv] owes for [q], [T] and [mw] when the
    ratio of the units is not convertible by itself: with the bridging unit
    g/mol, the missing-molecular-weight error exactly when no bridge is
    given, and with a bridge a result, unless the bridge has to be inverted
    and its value is 0; without help from the bridging unit, the error that
    names both unit expressions. *)
Definition bridge_contract (E : Env)
    (conv : Value → Units → option Value → result Value)
    (q : Value) (T : Units) (mw : option Value) : Prop :=
  let ratio := Units_div T (units q) in
  let g_mol := Units_parse E "g/mol" in
  (can_convert (Units_mul ratio g_mol) = true ∨
   can_convert (Units_div ratio g_mol) = true →
     (conv q T mw = Raise (Exception needs_mw_message) ↔ mw = None) ∧
     (∀ m, mw = Some m →
        if can_convert (Units_mul ratio g_mol) && bool_decide (value m = 0)
        then conv q T mw = Raise ZeroDivisionError
        else ∃ v, conv q T mw = Ok v)) ∧
  (can_convert (Units_mul ratio g_mol) = false →
   can_convert (Units_div ratio g_mol) = false →
     conv q T mw = Raise (Exception (cannot_convert_message E (units q) T))).

(** The total exponent that a list of atomic units gives to a dimension. *)
Fixpoint dim_sum (l : list BaseUnit) (d : string) : Qc :=
  match l with
  | [] => 0
  | u :: l' => (if bool_decide (dimension u = d) then exp u else 0) + dim_sum l' d
  end.

(** At most one atomic unit per symbol. *)
Definition unique_symbols (U : Units) : Prop :=
  NoDup (symbol <$> base_units U).

(** What the first loop of [Units.__mul__] makes of one unit of [self]. *)
Definition mul_unit (B : list BaseUnit) (u : BaseUnit) : option BaseUnit :=
  match first_same u B with
  | Some same => unit_mul u same
  | None => if unit_truthy u then Some u else None
  end.

(** The units of [self] after the first loop of [Units.__mul__]. *)
Definition mul_merged (A B : list BaseUnit) : list BaseUnit :=
  omap (λ u,
    match first_same u B with
    | Some same => unit_mul u same
    | None => if unit_truthy u then Some u else None
    end) A.

(** Units of one symbol have one dimension, as the units of a registry
    have. *)
Definition consistent (l : list BaseUnit) : Prop :=
  Forall (λ u,
    Forall (λ r, symbol u = symbol r → dimension u = dimension r) l) l.

Global Instance consistent_dec l : Decision (consistent l).
Proof. unfold consistent. apply _. Defined.

Global Instance unique_symbols_dec U : Decision (unique_symbols U).
Proof. unfold unique_symbols. apply _. Defined.

(** [c in s] on a string. *)
Fixpoint has_char (c : ascii) (s : string) : bool :=
  match s with
  | EmptyString => false
  | String a s' => bool_decide (a = c) || has_char c s'
  end.

(** The number of atomic units of dimension [d]. *)
Definition dim_count (l : list BaseUnit) (d : string) : nat :=
  length (filter (λ u, dimension u = d) l).

(** No three atomic units share a dimension. *)
Definition two_per_dimension (l : list BaseUnit) : Prop :=
  Forall (λ u, (dim_count l (dimension u) ≤ 2)%nat) l.

Global Instance two_per_dimension_dec l : Decision (two_per_dimension l).
Proof. unfold two_per_dimension. apply _. Defined.

(** No two atomic units of different symbols are partners, in either
    order. *)
Definition no_partners (l : list BaseUnit) : Prop :=
  ∀ x y, x ∈ l → y ∈ l → symbol x ≠ symbol y → partners x y = false.

(** [mod()] of [u] is not 0, whatever exponent [simplify] gives to [u]. *)
Definition mod_nonzero (E : Env) (u : BaseUnit) : Prop :=
  ∀ e, unit_mod E (set_exp u e) ≠ 0.

(** * Properties *)

Arguments build_conversion_factor : simpl never.
Arguments convert_units : simpl never.
Arguments Legacy.convert_units : simpl never.
Arguments Units_mul : simpl never.
Arguments Units_div : simpl never.
Arguments Units_parse : simpl never.
Arguments can_convert : simpl never.
Arguments is_unitless : simpl never.
Arguments float_div : simpl never.

Local Ltac unfold_monad :=
  unfold mbind, mret, result_bind, result_ret, M_bind, M_ret, lift, warn in *;
  simpl in *.

(** Closed goals over decidable data are settled by evaluation. *)
Local Ltac by_compute := apply (bool_decide_unpack _); vm_compute; exact I.

Lemma M_bind_outcome {A B} (m : M A) (k : A → M B) r :
  outcome (m ≫= k) = Ok r → ∃ a, outcome m = Ok a ∧ outcome (k a) = Ok r.
Proof.
  unfold mbind, M_bind. destruct (outcome m) as [a|e]; simpl; [eauto|done].
Qed.

(** ** Convertibility and the constructor *)

Lemma can_convert_nil s : can_convert (mkUnits s []) = true.
Proof.
  unfold can_convert, dimension_sums. simpl.
  apply bool_decide_eq_true. apply map_Forall_empty.
Qed.

Lemma is_unitless_nil U : is_unitless U = true → base_units U = [].
Proof.
  unfold is_unitless. intros H%bool_decide_eq_true.
  by apply length_zero_iff_nil.
Qed.

Lemma is_unitless_can_convert U : is_unitless U = true → can_convert U = true.
Proof.
  intros H%is_unitless_nil. destruct U as [s l]; simpl in *; subst.
  apply can_convert_nil.
Qed.

(** ** Conversion *)

Section Conversion.
Context (E : Env).

Lemma build_conversion_factor_no_mw cu mw :
  ∃ f, build_conversion_factor E cu mw false = Ok f.
Proof. unfold build_conversion_factor. unfold_monad. eauto. Qed.

Lemma build_conversion_factor_with_mw cu m :
  ∃ f, build_conversion_factor E cu (Some m) true = Ok f.
Proof. unfold build_conversion_factor. unfold_monad. eauto. Qed.

(** A conversion that returns tags its result with the target units and
    keeps the significant figures of the source. *)
Lemma convert_units_tags q T mw v :
  convert_units E q T mw = Ok v → units v = T ∧ sigfigs v = sigfigs q.
Proof.
  unfold convert_units. intros H.
  destruct (is_temperature_conversion E (units q) T); [by inversion H|].
  destruct (is_unitless _); [by inversion H|].
  unfold_monad.
  repeat match type of H with
  | context [match ?x with _ => _ end] => destruct x eqn:?; simpl in H; try discriminate
  end; by inversion H.
Qed.

(** Units whose ratio sums to zero in every dimension convert without a
    bridge. *)
Lemma convert_units_convertible q T mw :
  can_convert (Units_div T (units q)) = true →
  ∃ v, convert_units E q T mw = Ok v.
Proof.
  intros Hc. unfold convert_units.
  destruct (is_temperature_conversion E (units q) T); [eauto|].
  destruct (is_unitless _); [eauto|].
  rewrite Hc. simpl. unfold_monad. eauto.
Qed.

Lemma legacy_convert_units_convertible q T mw :
  can_convert (Units_div T (units q)) = true →
  ∃ v, Legacy.convert_units E q T mw = Ok v.
Proof.
  intros Hc. unfold Legacy.convert_units.
  destruct (is_unitless _); [eauto|].
  rewrite Hc. simpl. unfold_monad. eauto.
Qed.

End Conversion.

(** ** Coercion of bare numbers *)

Section Coercion.
Context (E : Env).

Lemma ensure_value_input_coerce {A} (f : Value → Value → M A) self input :
  ensure_value_input E f self input = v ← coerce E self input; f self v.
Proof.
  unfold coerce, ensure_value_input.
  destruct input as [n|v|]; destruct (can_convert (units self));
    unfold_monad; try done; by rewrite ?app_nil_r; destruct (f self _).
Qed.

Lemma coerce_number self n :
  coerce E self (ONumber n) =
    let v u := mkValue (number_value n) u
      (Z.of_nat (count_sigfigs (number_str E (PyFloat (number_value n))))) in
    if can_convert (units self) then mkM [] (Ok (v Units_empty))
    else mkM [assumed_units_warning E self] (Ok (v (units self))).
Proof.
  unfold coerce, ensure_value_input. by destruct (can_convert (units self)).
Qed.

Lemma coerce_value self v : coerce E self (OValue v) = mkM [] (Ok v).
Proof. done. Qed.

Lemma ensure_value_input_outcome {A} (f : Value → Value → M A) self input r :
  outcome (ensure_value_input E f self input) = Ok r →
  ∃ v, outcome (coerce E self input) = Ok v ∧ outcome (f self v) = Ok r.
Proof.
  rewrite ensure_value_input_coerce. unfold_monad.
  destruct (outcome (coerce E self input)) as [v|e]; simpl; [eauto|done].
Qed.

End Coercion.

(** ** Significant figures *)

Section Sigfigs.
Context (E : Env).

Lemma add_body_sigfigs a b r :
  outcome (Value_add_body E a b) = Ok r →
  sigfigs r = Z.min (sigfigs a) (sigfigs b).
Proof.
  unfold Value_add_body. unfold_monad.
  destruct (convert_units E b (units a) None) as [b'|] eqn:Hb; simpl; [|done].
  apply convert_units_tags in Hb as [_ ->]. by intros [= <-].
Qed.

Lemma sub_body_sigfigs a b r :
  outcome (Value_sub_body E a b) = Ok r →
  sigfigs r = Z.min (sigfigs a) (sigfigs b).
Proof.
  unfold Value_sub_body. unfold_monad.
  destruct (convert_units E b (units a) None) as [b'|] eqn:Hb; simpl; [|done].
  apply convert_units_tags in Hb as [_ ->]. by intros [= <-].
Qed.

Lemma coerce_sigfigs self input v :
  outcome (coerce E self input) = Ok v →
  match input with
  | ONumber n =>
      sigfigs v = Z.of_nat (count_sigfigs (number_str E (PyFloat (number_value n))))
  | OValue b => v = b
  | OOther => False
  end.
Proof.
  destruct input as [n|b|].
  - rewrite coerce_number. by destruct (can_convert (units self)); intros [= <-].
  - rewrite coerce_value. by intros [= <-].
  - unfold coerce, ensure_value_input.
    by destruct (can_convert (units self)).
Qed.

End Sigfigs.

Lemma coerce_operand_sigfigs E self input v :
  outcome (coerce E self input) = Ok v → sigfigs v = operand_sigfigs E input.
Proof.
  intros H%coerce_sigfigs. destruct input; simpl; [done|by subst|done].
Qed.

(** ** Zero exponents *)

Lemma prune_zero_nonzero l : Forall (λ u, exp u ≠ 0) (prune_zero l).
Proof. unfold prune_zero. induction l as [|u l IH]; [constructor|].
  rewrite filter_cons. case_decide; [by constructor|done]. Qed.

Lemma Units_of_list_nonzero s l : nonzero (Units_of_list s l).
Proof. apply prune_zero_nonzero. Qed.

Lemma Units_init_nonzero s items U : Units_init s items = Ok U → nonzero U.
Proof.
  unfold Units_init. unfold_monad.
  destruct (_flatten_unit_list items); [|done].
  intros [= <-]. apply prune_zero_nonzero.
Qed.

Lemma Units_parse_nonzero E s : nonzero (Units_parse E s).
Proof.
  unfold Units_parse. destruct (parse_units E s). apply prune_zero_nonzero.
Qed.

Lemma simplify_nonzero U : nonzero (simplify U).
Proof. apply Units_of_list_nonzero. Qed.

Lemma expand_all_nonzero E U : nonzero (expand_all E U).1.
Proof.
  unfold expand_all. destruct (foldl _ _ _). apply Units_of_list_nonzero.
Qed.

Lemma unit_mul_nonzero a b c : unit_mul a b = Some c → exp c ≠ 0.
Proof.
  unfold unit_mul. case_bool_decide as H; [done|]. by intros [= <-].
Qed.

Lemma unit_truthy_nonzero u : unit_truthy u = true → exp u ≠ 0.
Proof.
  unfold unit_truthy. intros H%negb_true_iff. by apply bool_decide_eq_false in H.
Qed.

(** The product drops the zero exponents of its left operand and keeps the
    units of the right operand as they are. *)
Lemma Units_mul_nonzero A B : nonzero B → nonzero (Units_mul A B).
Proof.
  intros HB. unfold nonzero, Units_mul. simpl. apply Forall_app. split.
  - apply Forall_forall. intros c (u & _ & Hc)%list_elem_of_omap.
    destruct (first_same u (base_units B)).
    + by eapply unit_mul_nonzero.
    + destruct (unit_truthy u) eqn:Hu; [|done].
      injection Hc as <-. by apply unit_truthy_nonzero.
  - apply Forall_forall. intros u [_ Hu]%list_elem_of_filter.
    by eapply Forall_forall in HB.
Qed.

Lemma Units_update_exp_nonzero A k : k ≠ 0 → nonzero A → nonzero (Units_update_exp A k).
Proof.
  intros Hk HA. unfold nonzero, Units_update_exp. simpl.
  apply Forall_fmap. eapply Forall_impl; [exact HA|].
  intros u Hu. simpl. intros H.
  apply Qcmult_integral in H as [|]; done.
Qed.

Lemma Units_invert_nonzero A : nonzero A → nonzero (Units_invert A).
Proof. apply Units_update_exp_nonzero. done. Qed.

Lemma Units_div_nonzero A B : nonzero B → nonzero (Units_div A B).
Proof. intros HB. by apply Units_mul_nonzero, Units_invert_nonzero. Qed.

(** ** The symbol-to-exponent mapping *)

Lemma exp_of_app l1 l2 s : exp_of (l1 ++ l2) s = exp_of l1 s + exp_of l2 s.
Proof. induction l1 as [|u l1 IH]; simpl; [ring|]. rewrite IH. ring. Qed.

Lemma exp_of_rev l s : exp_of (rev l) s = exp_of l s.
Proof.
  induction l as [|u l IH]; simpl; [done|].
  rewrite exp_of_app, IH. simpl. ring.
Qed.

Lemma exp_of_prune_zero l s : exp_of (prune_zero l) s = exp_of l s.
Proof.
  unfold prune_zero. induction l as [|u l IH]; [done|].
  rewrite filter_cons. case_decide as Hu; simpl; rewrite IH; [done|].
  try apply dec_stable in Hu. rewrite Hu. case_bool_decide; ring.
Qed.

Lemma combine_scan_exp remaining : ∀ current c remaining',
  combine_scan current remaining = (c, remaining') →
  (∀ s, exp_of (current :: remaining) s =
        exp_of (option_list c) s + exp_of remaining' s) ∧
  (length remaining' ≤ length remaining)%nat.
Proof.
  induction remaining as [|r rest IH]; intros current c remaining' H; simpl in H.
  - injection H as <- <-. split; [intros s; simpl; ring|simpl; lia].
  - destruct (unit_eqb current r) eqn:Heq.
    + apply bool_decide_eq_true in Heq. unfold unit_mul in H.
      case_bool_decide as Hz.
      * injection H as <- <-. split; [|simpl; lia].
        intros s. simpl. rewrite <- Heq.
        case_bool_decide; [|ring].
        rewrite Qcplus_assoc, Hz. ring.
      * apply IH in H as [H1 H2]. split; [|simpl; lia].
        intros s. rewrite <- H1. simpl. rewrite <- Heq.
        case_bool_decide; ring.
    + destruct (combine_scan current rest) as [c0 rest0] eqn:Hs.
      injection H as <- <-. apply IH in Hs as [H1 H2].
      split; [|simpl; lia]. intros s. specialize (H1 s). simpl in *.
      set (x := if bool_decide (symbol r = s) then exp r else 0).
      transitivity (x + ((if bool_decide (symbol current = s) then exp current else 0)
                         + exp_of rest s)); [ring|].
      rewrite H1. ring.
Qed.

Lemma combine_loop_exp fuel : ∀ remaining combined s,
  (length remaining ≤ fuel)%nat →
  exp_of (combine_loop fuel remaining combined) s =
    exp_of combined s + exp_of remaining s.
Proof.
  induction fuel as [|fuel IH]; intros remaining combined s Hlen.
  - destruct remaining; [simpl; ring|simpl in Hlen; lia].
  - simpl. destruct (rev remaining) as [|current rev_rest] eqn:Hrev.
    + apply (f_equal (@rev _)) in Hrev. rewrite rev_involutive in Hrev.
      subst. simpl. ring.
    + apply (f_equal (@rev _)) in Hrev. rewrite rev_involutive in Hrev.
      simpl in Hrev. subst remaining.
      destruct (combine_scan current (rev rev_rest)) as [c remaining'] eqn:Hs.
      apply combine_scan_exp in Hs as [H1 H2].
      rewrite length_app in Hlen. simpl in Hlen.
      rewrite IH by lia. specialize (H1 s).
      rewrite exp_of_app. simpl in H1. simpl.
      assert (Hc : exp_of
        match c with
        | Some c' => if unit_truthy c' then combined ++ [c'] else combined
        | None => combined
        end s = exp_of combined s + exp_of (option_list c) s).
      { destruct c as [c'|]; simpl; [|ring].
        destruct (unit_truthy c') eqn:Ht.
        - rewrite exp_of_app. done.
        - apply negb_false_iff, bool_decide_eq_true in Ht. rewrite Ht.
          destruct (bool_decide (symbol c' = s)); ring. }
      rewrite Hc.
      transitivity (exp_of combined s +
        (exp_of (option_list c) s + exp_of remaining' s)); [ring|].
      rewrite <- H1. ring.
Qed.

(** The merge of the constructor keeps the exponent of every symbol. *)
Lemma combine_unit_list_mapping l s : exp_of (_combine_unit_list l) s = exp_of l s.
Proof.
  unfold _combine_unit_list. rewrite combine_loop_exp by done. simpl. ring.
Qed.

(** [len(units)] iterations are enough for the merge: more fuel changes
    nothing. *)
Lemma combine_loop_fuel fuel1 : ∀ fuel2 remaining combined,
  (length remaining ≤ fuel1)%nat → (length remaining ≤ fuel2)%nat →
  combine_loop fuel1 remaining combined = combine_loop fuel2 remaining combined.
Proof.
  induction fuel1 as [|fuel1 IH]; intros fuel2 remaining combined H1 H2.
  - destruct remaining; [by destruct fuel2|simpl in H1; lia].
  - destruct fuel2 as [|fuel2].
    { destruct remaining; [done|simpl in H2; lia]. }
    simpl. destruct (rev remaining) as [|current rev_rest] eqn:Hrev; [done|].
    apply (f_equal (@rev _)) in Hrev. rewrite rev_involutive in Hrev.
    simpl in Hrev. subst remaining.
    rewrite length_app in H1, H2. simpl in H1, H2.
    destruct (combine_scan current (rev rev_rest)) as [c remaining'] eqn:Hs.
    apply combine_scan_exp in Hs as [_ Hlen].
    apply IH; lia.
Qed.

Lemma Units_of_list_mapping s0 l s :
  exp_of (base_units (Units_of_list s0 l)) s = exp_of l s.
Proof. simpl. by rewrite exp_of_prune_zero, combine_unit_list_mapping. Qed.

Lemma simplify_scan_no_partner u rest :
  forallb (λ r, negb (partners u r)) rest = true →
  simplify_scan u rest = (false, u, rest).
Proof.
  induction rest as [|r rest IH]; [done|]. simpl.
  intros [Hr Hrest]%andb_true_iff.
  apply negb_true_iff, orb_false_iff in Hr as [-> ->].
  by rewrite IH.
Qed.

Lemma simplify_loop_stable n : ∀ l keep,
  stable l = true → (length l ≤ n)%nat → simplify_loop n l keep = keep ++ l.
Proof.
  induction n as [|n IH]; intros [|u l] keep Hs Hlen; simpl in *;
    try (by rewrite app_nil_r); [lia|].
  apply andb_true_iff in Hs as [Hu Hs].
  rewrite simplify_scan_no_partner by done.
  rewrite IH by (done || lia). by rewrite <- app_assoc.
Qed.

(** ** Termination of [simplify] *)

Lemma simplify_scan_length remaining : ∀ u canceled u' remaining',
  simplify_scan u remaining = (canceled, u', remaining') →
  (length remaining' ≤ length remaining)%nat.
Proof.
  induction remaining as [|r rest IH]; intros u canceled u' remaining' H;
    simpl in H.
  - injection H as <- <- <-. done.
  - destruct (can_convert (unit_times u r)).
    { injection H as <- <- <-. simpl. lia. }
    destruct (can_convert (unit_over u r)).
    { apply IH in H. simpl. lia. }
    destruct (simplify_scan u rest) as [[c0 u0] rest0] eqn:Hs.
    injection H as <- <- <-. apply IH in Hs. simpl. lia.
Qed.

(** [len(remaining)] iterations are enough for the outer loop: more fuel
    changes nothing. *)
Lemma simplify_loop_fuel fuel1 : ∀ fuel2 remaining keep,
  (length remaining ≤ fuel1)%nat → (length remaining ≤ fuel2)%nat →
  simplify_loop fuel1 remaining keep = simplify_loop fuel2 remaining keep.
Proof.
  induction fuel1 as [|fuel1 IH]; intros fuel2 [|u rest] keep H1 H2;
    simpl in H1, H2; try lia; try (by destruct fuel2).
  destruct fuel2 as [|fuel2]; [lia|]. simpl.
  destruct (simplify_scan u rest) as [[canceled u'] rest'] eqn:Hs.
  apply simplify_scan_length in Hs. apply IH; lia.
Qed.

Lemma run_app n m s : Machine.run (n + m) s = Machine.run m (Machine.run n s).
Proof. revert s. induction n as [|n IH]; intros s; simpl; [done|apply IH]. Qed.

(** The inner loop, entered at index [length pre], reaches [if not canceled]
    in the state that [simplify_scan] computes for the rest of the list. *)
Lemma inner_loop_run suf : ∀ pre u keep,
  ∃ n, Machine.run n (Machine.Inner u (length pre) (pre ++ suf) keep) =
       let '(canceled, u', suf') := simplify_scan u suf in
       Machine.Exit u' canceled (pre ++ suf') keep.
Proof.
  induction suf as [|r suf IH]; intros pre u keep.
  - exists 1%nat. simpl. rewrite app_nil_r.
    by rewrite lookup_ge_None_2 by done.
  - simpl simplify_scan.
    assert (Hr : (pre ++ r :: suf) !! length pre = Some r)
      by apply list_lookup_middle, eq_refl.
    destruct (can_convert (unit_times u r)) eqn:Hm.
    { exists 1%nat. simpl. rewrite Hr, Hm. by rewrite delete_middle. }
    destruct (can_convert (unit_over u r)) eqn:Hd.
    { destruct (IH pre (set_exp u (exp u + exp r)) keep) as [n Hn].
      exists (S n). simpl. rewrite Hr, Hm, Hd. by rewrite delete_middle. }
    destruct (IH (pre ++ [r]) u keep) as [n Hn].
    exists (S n). simpl. rewrite Hr, Hm, Hd.
    rewrite length_app in Hn. simpl in Hn.
    rewrite Nat.add_1_r, <- app_assoc in Hn. simpl in Hn.
    rewrite Hn. destruct (simplify_scan u suf) as [[c0 u0] suf0].
    by rewrite <- app_assoc.
Qed.

(** The outer loop halts with the list that [simplify_loop] computes. *)
Lemma outer_loop_run fuel : ∀ remaining keep,
  (length remaining ≤ fuel)%nat →
  ∃ n, Machine.run n (Machine.Outer remaining keep) =
       Machine.Done (simplify_loop fuel remaining keep).
Proof.
  induction fuel as [|fuel IH]; intros [|u rest] keep Hlen; simpl in Hlen;
    try lia; try (by exists 1%nat).
  destruct (inner_loop_run rest [] u keep) as [n Hn]. simpl in Hn.
  simpl simplify_loop.
  destruct (simplify_scan u rest) as [[canceled u'] rest'] eqn:Hs.
  apply simplify_scan_length in Hs.
  destruct (IH rest' (if canceled then keep else keep ++ [u'])) as [m Hm]; [lia|].
  exists (1 + (n + (1 + m)))%nat.
  rewrite run_app. simpl Machine.run at 2. rewrite run_app, Hn.
  rewrite run_app. simpl Machine.run at 2. exact Hm.
Qed.

(** The loops of the older [simplify] visit the same atomic units; only the
    modifier and its divisions are added. *)
Lemma legacy_simplify_scan_units E remaining : ∀ u m canceled u' remaining' m',
  Legacy.simplify_scan E u remaining m = Ok (canceled, u', remaining', m') →
  simplify_scan u remaining = (canceled, u', remaining').
Proof.
  induction remaining as [|r rest IH]; intros u m canceled u' remaining' m' H;
    simpl in H.
  - by injection H as <- <- <- <-.
  - simpl. destruct (can_convert (unit_times u r)).
    { unfold_monad. destruct (float_div _ _); [|done]. by injection H as <- <- <- <-. }
    destruct (can_convert (unit_over u r)).
    { unfold_monad. destruct (float_div _ _); [|done]. by eapply IH. }
    unfold_monad.
    destruct (Legacy.simplify_scan E u rest m) as [[[[c0 u0] rest0] m0]|] eqn:Hs; [|done].
    injection H as <- <- <- <-. by rewrite (IH _ _ _ _ _ _ Hs).
Qed.

Lemma legacy_simplify_loop_units E fuel : ∀ remaining keep m keep' m',
  Legacy.simplify_loop E fuel remaining keep m = Ok (keep', m') →
  simplify_loop fuel remaining keep = keep'.
Proof.
  induction fuel as [|fuel IH]; intros [|u rest] keep m keep' m' H; simpl in *;
    try (by injection H as <- <-).
  destruct (Legacy.simplify_scan E u rest m) as [[[[c0 u0] rest0] m0]|] eqn:Hs;
    [|done].
  rewrite (legacy_simplify_scan_units _ _ _ _ _ _ _ _ Hs). by eapply IH.
Qed.

(** ** Objects: what the operations write *)

Section HeapFacts.
Implicit Types (h : gmap nat BaseUnit) (refs remaining keep : list nat).

Lemma read_ext h h' refs :
  (∀ r, r ∈ refs → h' !! r = h !! r) → Heap.read h' refs = Heap.read h refs.
Proof.
  induction refs as [|r refs IH]; intros H; [done|].
  simpl. rewrite H by set_solver. rewrite IH; [done|].
  intros r' Hr'. apply H. set_solver.
Qed.

Lemma read_cons h r refs u :
  h !! r = Some u → Heap.read h (r :: refs) = u :: Heap.read h refs.
Proof. simpl. by intros ->. Qed.

Lemma read_app h l1 l2 : Heap.read h (l1 ++ l2) = Heap.read h l1 ++ Heap.read h l2.
Proof.
  induction l1 as [|r l1 IH]; [done|]. simpl.
  destruct (h !! r); simpl; by rewrite IH.
Qed.

Lemma read_length h refs : allocated h refs → length (Heap.read h refs) = length refs.
Proof.
  induction 1 as [|r refs [u Hu] _ IH]; [done|].
  rewrite (read_cons _ _ _ _ Hu). simpl. by rewrite IH.
Qed.

Lemma Forall_sublist {A} (P : A → Prop) l1 l2 :
  Forall P l2 → sublist l1 l2 → Forall P l1.
Proof.
  rewrite !Forall_forall. intros H Hs x Hx. apply H. by eapply elem_of_sublist.
Qed.

(** The scan on objects computes what the scan on values computes, writes
    to the object [u] only, and leaves a sublist of [remaining]. *)
Lemma heap_simplify_scan_refines remaining : ∀ h u bu,
  h !! u = Some bu → u ∉ remaining → allocated h remaining →
  ∃ h' canceled remaining' bu',
    Heap.simplify_scan h u remaining = (h', canceled, remaining') ∧
    simplify_scan bu (Heap.read h remaining) =
      (canceled, bu', Heap.read h' remaining') ∧
    h' !! u = Some bu' ∧
    (∀ r, r ≠ u → h' !! r = h !! r) ∧
    sublist remaining' remaining.
Proof.
  induction remaining as [|r rest IH]; intros h u bu Hu Hnotin Halloc.
  - exists h, false, [], bu. by repeat split.
  - apply Forall_cons_1 in Halloc as [[br Hr] Halloc].
    apply not_elem_of_cons in Hnotin as [Hne Hnotin].
    rewrite (read_cons _ _ _ _ Hr). simpl. rewrite Hu, Hr.
    destruct (can_convert (unit_times bu br)).
    { exists h, true, rest, bu. repeat split; [done..|]. by apply sublist_cons. }
    destruct (can_convert (unit_over bu br)).
    { set (bu1 := set_exp bu (exp bu + exp br)).
      destruct (IH (<[u := bu1]> h) u bu1) as (h' & c & rest' & bu' & H1 & H2 & H3 & H4 & H5).
      - apply lookup_insert_eq.
      - done.
      - eapply Forall_impl; [exact Halloc|]. intros r' [x Hx].
        destruct (decide (u = r')) as [->|]; [rewrite lookup_insert_eq; eauto|].
        rewrite lookup_insert_ne by done. eauto.
      - exists h', c, rest', bu'. rewrite H1. repeat split; [|done| |by apply sublist_cons].
        + rewrite <- H2. f_equal. symmetry. apply read_ext.
          intros r' Hr'. apply lookup_insert_ne. intros ->. done.
        + intros r' Hr'. rewrite H4 by done. by apply lookup_insert_ne. }
    destruct (IH h u bu Hu Hnotin Halloc) as (h' & c & rest' & bu' & H1 & H2 & H3 & H4 & H5).
    exists h', c, (r :: rest'), bu'. rewrite H1, H2.
    repeat split; [|done|done|by apply sublist_skip].
    rewrite (read_cons h' r rest' br); [done|]. by rewrite H4.
Qed.

(** [simplify] on objects returns the atomic units that [simplify] on
    values returns, when the receiver holds distinct objects. *)
Lemma heap_simplify_loop_refines fuel : ∀ h remaining keep,
  NoDup (keep ++ remaining) → allocated h (keep ++ remaining) →
  ∃ h' keep',
    Heap.simplify_loop fuel h remaining keep = (h', keep') ∧
    Heap.read h' keep' =
      simplify_loop fuel (Heap.read h remaining) (Heap.read h keep).
Proof.
  induction fuel as [|fuel IH]; intros h remaining keep Hnd Halloc.
  { exists h, keep. by destruct (Heap.read h remaining). }
  destruct remaining as [|u rest]; [by exists h, keep|].
  apply Forall_app in Halloc as [Hakeep Harem].
  apply Forall_cons_1 in Harem as [[bu Hu] Harest].
  apply NoDup_app in Hnd as (Hndk & Hdisj & Hndr).
  apply NoDup_cons in Hndr as [Hnotin Hndrest].
  destruct (heap_simplify_scan_refines rest h u bu Hu Hnotin Harest)
    as (h1 & c & rest' & bu' & H1 & H2 & H3 & H4 & H5).
  simpl. rewrite H1, Hu. simpl. rewrite H2.
  assert (Hukeep : u ∉ keep) by (intros Hin; eapply Hdisj; [done|set_solver]).
  assert (Hkeep1 : Heap.read h1 keep = Heap.read h keep).
  { apply read_ext. intros r Hr. apply H4. intros ->. done. }
  assert (Halloc1 : ∀ l, allocated h l → allocated h1 l).
  { intros l Hl. eapply Forall_impl; [exact Hl|]. intros r [x Hx].
    destruct (decide (r = u)) as [->|]; [eauto|]. rewrite H4 by done. eauto. }
  destruct (IH h1 rest' (if c then keep else keep ++ [u])) as (h' & keep' & H6 & H7).
  - destruct c.
    + apply NoDup_app. split; [done|]. split; [|by eapply sublist_NoDup].
      intros r Hr Hr'. eapply Hdisj; [done|]. apply elem_of_cons. right.
      by eapply elem_of_sublist.
    + rewrite <- app_assoc. apply NoDup_app. split; [done|].
      split.
      * intros r Hr Hr'. apply elem_of_cons in Hr' as [->|Hr']; [done|].
        eapply Hdisj; [done|]. apply elem_of_cons. right.
        by eapply elem_of_sublist.
      * simpl. apply NoDup_cons. split; [|by eapply sublist_NoDup].
        intros Hin. apply Hnotin. by eapply elem_of_sublist.
  - apply Halloc1. destruct c.
    + apply Forall_app. split; [done|]. by eapply Forall_sublist.
    + rewrite <- app_assoc. apply Forall_app. split; [done|].
      simpl. apply Forall_cons. split; [eauto|]. by eapply Forall_sublist.
  - exists h', keep'. split; [done|]. rewrite H7. f_equal.
    destruct c; [done|]. rewrite read_app, Hkeep1.
    by rewrite (read_cons _ _ _ _ H3).
Qed.

Lemma heap_simplify_refines h self s :
  NoDup self → allocated h self →
  ∃ h' keep,
    Heap.simplify h self = (h', keep) ∧
    Units_of_list "" (Heap.read h' keep) = simplify (mkUnits s (Heap.read h self)).
Proof.
  intros Hnd Halloc.
  destruct (heap_simplify_loop_refines (length self) h self []) as (h' & keep & H1 & H2);
    [done..|].
  exists h', keep. split; [done|]. unfold simplify. simpl.
  by rewrite H2, read_length.
Qed.

End HeapFacts.

Section HeapCopies.
Implicit Types (h : gmap nat BaseUnit) (refs : list nat).

Lemma update_exp_refs_other refs : ∀ h k r,
  r ∉ refs → Heap.update_exp_refs h refs k !! r = h !! r.
Proof.
  unfold Heap.update_exp_refs.
  induction refs as [|r0 refs IH]; intros h k r Hr; [done|].
  apply not_elem_of_cons in Hr as [Hne Hr]. simpl.
  rewrite IH by done. by apply lookup_alter_ne.
Qed.

Lemma update_exp_refs_read refs : ∀ h k,
  NoDup refs → allocated h refs →
  Heap.read (Heap.update_exp_refs h refs k) refs =
    map (λ u, unit_update_exp u k) (Heap.read h refs).
Proof.
  induction refs as [|r refs IH]; intros h k Hnd Halloc; [done|].
  apply NoDup_cons in Hnd as [Hnotin Hnd].
  apply Forall_cons_1 in Halloc as [[u Hu] Halloc].
  change (Heap.update_exp_refs h (r :: refs) k)
    with (Heap.update_exp_refs (alter (λ u, unit_update_exp u k) r h) refs k).
  simpl. rewrite update_exp_refs_other by done.
  rewrite lookup_alter_eq, Hu. simpl. f_equal.
  rewrite IH; [|done|].
  - f_equal. apply read_ext. intros r' Hr'. apply lookup_alter_ne.
    intros ->. done.
  - eapply Forall_impl; [exact Halloc|]. intros r' [x Hx].
    destruct (decide (r = r')) as [->|].
    + rewrite lookup_alter_eq, Hx. simpl. eauto.
    + rewrite lookup_alter_ne by done. eauto.
Qed.

(** [Units.copy] allocates new objects in the state of the old ones and
    writes to none that existed. *)
Lemma copy_refs_spec refs : ∀ h h' new,
  allocated h refs →
  Heap.copy_refs h refs = (h', new) →
  h ⊆ h' ∧ Forall (λ r, h !! r = None) new ∧ NoDup new ∧
  allocated h' new ∧ Heap.read h' new = Heap.read h refs.
Proof.
  induction refs as [|r refs IH]; intros h h' new Halloc H; simpl in H.
  - injection H as <- <-. repeat split; (done || constructor).
  - apply Forall_cons_1 in Halloc as [[u Hu] Halloc]. rewrite Hu in H.
    set (r0 := fresh (dom h)) in *.
    assert (Hr0 : h !! r0 = None) by apply not_elem_of_dom, is_fresh.
    assert (Hsub : h ⊆ <[r0 := u]> h) by by apply insert_subseteq.
    destruct (Heap.copy_refs (<[r0 := u]> h) refs) as [h2 rest'] eqn:Hc.
    injection H as <- <-.
    apply IH in Hc as (H1 & H2 & H3 & H4 & H5).
    2:{ eapply Forall_impl; [exact Halloc|]. intros r' [x Hx].
        exists x. by eapply lookup_weaken. }
    assert (Hr2 : h2 !! r0 = Some u).
    { eapply lookup_weaken; [|exact H1]. apply lookup_insert_eq. }
    repeat split.
    + by etrans.
    + apply Forall_cons. split; [done|].
      eapply Forall_impl; [exact H2|]. intros r' Hr'.
      eapply lookup_weaken_None; [exact Hr'|exact Hsub].
    + apply NoDup_cons. split; [|done]. intros Hin.
      eapply Forall_forall in H2; [|exact Hin].
      by rewrite lookup_insert_eq in H2.
    + apply Forall_cons. split; [eauto|done].
    + simpl. rewrite Hr2, Hu, H5. f_equal. apply read_ext.
      intros r' Hr'. eapply Forall_forall in Halloc as [x Hx]; [|exact Hr'].
      rewrite Hx. by eapply lookup_weaken.
Qed.

(** [Units.update_exp] of [unitkit] leaves the objects of its receiver as
    they were and returns new objects with the exponents multiplied: the
    value [Units_update_exp] computes. *)
Lemma heap_update_exp_frame h self k h' new :
  allocated h self →
  Heap.update_exp h self k = (h', new) →
  Heap.read h' self = Heap.read h self ∧
  Heap.read h' new = base_units (Units_update_exp (mkUnits "" (Heap.read h self)) k).
Proof.
  intros Halloc. unfold Heap.update_exp.
  destruct (Heap.copy_refs h self) as [h1 new1] eqn:Hc. intros [= <- <-].
  apply copy_refs_spec in Hc as (H1 & H2 & H3 & H4 & H5); [|done].
  split.
  - apply read_ext. intros r Hr.
    eapply Forall_forall in Halloc as [x Hx]; [|exact Hr].
    rewrite update_exp_refs_other.
    + rewrite Hx. by eapply lookup_weaken.
    + intros Hin. eapply Forall_forall in H2; [|exact Hin]. congruence.
  - simpl. rewrite update_exp_refs_read by done. by rewrite H5.
Qed.

End HeapCopies.

(** ** A unitless ratio *)

Lemma first_same_Some u l x :
  first_same u l = Some x → x ∈ l ∧ symbol x = symbol u.
Proof.
  unfold first_same. intros H%head_Some_elem_of.
  apply list_elem_of_filter in H as [H1 H2].
  split; [done|]. by apply bool_decide_eq_true in H1.
Qed.

Lemma first_same_None u l x :
  first_same u l = None → x ∈ l → symbol x ≠ symbol u.
Proof.
  unfold first_same. intros H%head_None Hx Hs.
  assert (Hin : x ∈ filter (λ x, unit_eqb x u = true) l).
  { apply list_elem_of_filter. split; [|done]. by apply bool_decide_eq_true. }
  rewrite H in Hin. by apply elem_of_nil in Hin.
Qed.

Lemma unit_in_true u l : unit_in u l = true → ∃ x, x ∈ l ∧ symbol u = symbol x.
Proof.
  unfold unit_in. intros (x & Hx & Hs)%existsb_exists.
  exists x. split; [by apply list_elem_of_In|]. by apply bool_decide_eq_true in Hs.
Qed.

Lemma exp_of_absent l s : (∀ u, u ∈ l → symbol u ≠ s) → exp_of l s = 0.
Proof.
  induction l as [|u l IH]; intros H; [done|]. simpl.
  rewrite bool_decide_eq_false_2 by (apply H; set_solver).
  rewrite IH; [ring|]. intros u' Hu'. apply H. set_solver.
Qed.

Lemma exp_of_present l u :
  NoDup (symbol <$> l) → u ∈ l → exp_of l (symbol u) = exp u.
Proof.
  induction l as [|x l IH]; intros Hnd Hu; [by apply elem_of_nil in Hu|].
  rewrite fmap_cons in Hnd. apply NoDup_cons in Hnd as [Hx Hnd].
  simpl. apply elem_of_cons in Hu as [->|Hu].
  - rewrite bool_decide_eq_true_2 by done.
    rewrite exp_of_absent; [ring|]. intros u' Hu' Hs. apply Hx.
    rewrite <- Hs. by apply list_elem_of_fmap_2.
  - rewrite bool_decide_eq_false_2.
    + rewrite IH by done. ring.
    + intros Hs. apply Hx. rewrite Hs. by apply list_elem_of_fmap_2.
Qed.

(** When [T / S] is unitless and neither expression has two atomic units of
    one symbol, [S] and [T] give every symbol the same exponent. *)
Lemma unitless_ratio_same_mapping (S T : Units) :
  NoDup (symbol <$> base_units S) → NoDup (symbol <$> base_units T) →
  is_unitless (Units_div T S) = true → same_mapping S T.
Proof.
  intros HS HT Hu%is_unitless_nil s.
  unfold Units_div, Units_mul in Hu. simpl in Hu.
  apply app_eq_nil in Hu as [Hmerged Hfresh].
  set (S' := map (λ u, unit_update_exp u (-1)) (base_units S)) in *.
  assert (HS' : ∀ r', r' ∈ S' → ∃ r, r ∈ base_units S ∧
            symbol r' = symbol r ∧ exp r' = - exp r).
  { intros r' (r & -> & Hr)%list_elem_of_fmap. exists r. split; [done|].
    split; [done|]. simpl. ring. }
  assert (Hmem : ∀ r, r ∈ base_units S → unit_update_exp r (-1) ∈ S').
  { intros r Hr.
    by apply (list_elem_of_fmap_2 (λ u, unit_update_exp u (-1))). }
  destruct (decide (s ∈ symbol <$> base_units T)) as [Hin|Hout].
  - apply list_elem_of_fmap in Hin as (u & -> & Hu).
    rewrite (exp_of_present _ u HT Hu).
    assert (Hf : match first_same u S' with
                 | Some same => unit_mul u same
                 | None => if unit_truthy u then Some u else None
                 end = None).
    { destruct (match first_same u S' with Some _ => _ | None => _ end) eqn:Hf; [|done].
      assert (b ∈ @nil BaseUnit); [|by apply elem_of_nil in H].
      rewrite <- Hmerged. apply list_elem_of_omap. eauto. }
    destruct (first_same u S') as [same|] eqn:Hfs.
    + apply first_same_Some in Hfs as [Hsame Hsym].
      apply HS' in Hsame as (r & Hr & Hsr & Her).
      rewrite <- Hsym, Hsr. rewrite (exp_of_present _ r HS Hr).
      unfold unit_mul in Hf. case_bool_decide as Hz; [|done].
      rewrite Her in Hz. rewrite <- (Qcplus_0_r (exp r)), <- Hz. ring.
    + destruct (unit_truthy u) eqn:Ht; [done|].
      apply negb_false_iff, bool_decide_eq_true in Ht. rewrite Ht.
      apply exp_of_absent. intros r Hr Hs.
      eapply (first_same_None u S' (unit_update_exp r (-1))); [done| |done].
      by apply Hmem.
  - rewrite (exp_of_absent (base_units T)).
    2:{ intros u Hu Hs. apply Hout. rewrite <- Hs. by apply list_elem_of_fmap_2. }
    apply exp_of_absent. intros r Hr Hs.
    assert (Hr' : unit_update_exp r (-1) ∈ S') by by apply Hmem.
    assert (Hnotfresh : unit_in (unit_update_exp r (-1)) (base_units T) = true).
    { destruct (unit_in _ _) eqn:Hui; [done|].
      assert (unit_update_exp r (-1) ∈ @nil BaseUnit); [|by apply elem_of_nil in H].
      rewrite <- Hfresh. by apply list_elem_of_filter. }
    apply unit_in_true in Hnotfresh as (x & Hx & Hsx). simpl in Hsx.
    apply Hout. rewrite <- Hs, Hsx. by apply list_elem_of_fmap_2.
Qed.

(** ** The bridging step *)

Section Bridge.
Context (E : Env).

Lemma not_convertible_not_unitless U : can_convert U = false → is_unitless U = false.
Proof.
  intros Hc. destruct (is_unitless U) eqn:Hu; [|done].
  apply is_unitless_can_convert in Hu. congruence.
Qed.

Local Ltac bridge_cases ratio g_mol mw :=
  split;
  [ intros Hbr; destruct (can_convert (Units_mul ratio g_mol)) eqn:Hm;
    [ destruct mw as [m|]; simpl;
      [ unfold Value_rtruediv, float_div;
        destruct (bool_decide (value m = 0)) eqn:Hz; unfold_monad;
        (split; [split; [done|done]|]); intros ? [= <-]; rewrite Hz; eauto
      | split; [done|]; intros m [=] ]
    | destruct Hbr as [|Hd]; [done|]; rewrite Hd;
      destruct mw as [m|]; simpl; unfold_monad;
      [ split; [split; [done|done]|]; intros ? [= <-]; eauto
      | split; [done|]; intros m [=] ] ]
  | intros Hm Hd; by rewrite Hm, Hd ].

Lemma convert_units_bridge_contract q T mw :
  is_temperature_conversion E (units q) T = false →
  can_convert (Units_div T (units q)) = false →
  bridge_contract E (convert_units E) q T mw.
Proof.
  intros Ht Hc. pose proof (not_convertible_not_unitless _ Hc) as Hu.
  unfold bridge_contract, convert_units. rewrite Ht, Hu, Hc.
  set (ratio := Units_div T (units q)).
  set (g_mol := Units_parse E "g/mol").
  bridge_cases ratio g_mol mw.
Qed.

Lemma legacy_convert_units_bridge_contract q T mw :
  can_convert (Units_div T (units q)) = false →
  bridge_contract E (Legacy.convert_units E) q T mw.
Proof.
  intros Hc. pose proof (not_convertible_not_unitless _ Hc) as Hu.
  unfold bridge_contract, Legacy.convert_units. rewrite Hu, Hc.
  set (ratio := Units_div T (units q)).
  set (g_mol := Units_parse E "g/mol").
  bridge_cases ratio g_mol mw.
Qed.

(** The older [convert_units] only multiplies: a value of 0 stays 0. *)
Lemma legacy_convert_units_zero q T mw v :
  value q = 0 → Legacy.convert_units E q T mw = Ok v → value v = 0.
Proof.
  intros Hz. unfold Legacy.convert_units.
  destruct (is_unitless _); [by intros [= <-]|].
  unfold_monad. intros H.
  repeat match type of H with
  | context [match ?x with _ => _ end] => destruct x eqn:?; simpl in H; try discriminate
  end; injection H as <-; simpl; rewrite Hz; ring.
Qed.

Lemma legacy_convert_units_unitless_ratio q T mw :
  is_unitless (Units_div T (units q)) = true →
  Legacy.convert_units E q T mw = Ok (mkValue (value q) (units q) (sigfigs q)).
Proof. intros Hu. unfold Legacy.convert_units. by rewrite Hu. Qed.

End Bridge.

(** ** The older [simplify] *)

Section LegacySimplify.
Context (E : Env).

Lemma float_div_error x y e : float_div x y = Raise e → e = ZeroDivisionError.
Proof. unfold float_div. case_bool_decide; [by intros [= <-]|done]. Qed.

Lemma legacy_simplify_scan_error remaining : ∀ u m e,
  Legacy.simplify_scan E u remaining m = Raise e → e = ZeroDivisionError.
Proof.
  induction remaining as [|r rest IH]; intros u m e H; simpl in H; [done|].
  destruct (can_convert (unit_times u r)).
  { unfold_monad. destruct (float_div _ _) eqn:Hd; [done|].
    injection H as <-. by eapply float_div_error. }
  destruct (can_convert (unit_over u r)).
  { unfold_monad. destruct (float_div _ _) eqn:Hd; [by eapply IH|].
    injection H as <-. by eapply float_div_error. }
  unfold_monad.
  destruct (Legacy.simplify_scan E u rest m) as [[[[c0 u0] rest0] m0]|] eqn:Hs;
    [done|]. injection H as <-. by eapply IH.
Qed.

Lemma legacy_simplify_loop_error fuel : ∀ remaining keep m e,
  Legacy.simplify_loop E fuel remaining keep m = Raise e → e = ZeroDivisionError.
Proof.
  induction fuel as [|fuel IH]; intros [|u rest] keep m e H; simpl in H;
    try done.
  destruct (Legacy.simplify_scan E u rest m) as [[[[c0 u0] rest0] m0]|] eqn:Hs.
  - by eapply IH.
  - injection H as <-. by eapply legacy_simplify_scan_error.
Qed.

(** [simplify] of the older package returns the units that the loops of
    [unitkit] keep, or stops at a division by a zero [mod()]. *)
Lemma legacy_simplify_result A :
  match Legacy.simplify E A with
  | Ok (U, _) =>
      U = Legacy.Units_of_list ""
            (simplify_loop (length (base_units A)) (base_units A) [])
  | Raise e => e = ZeroDivisionError
  end.
Proof.
  unfold Legacy.simplify. unfold_monad.
  destruct (Legacy.simplify_loop E _ _ _ _) as [[keep m]|e] eqn:H.
  - by rewrite (legacy_simplify_loop_units _ _ _ _ _ _ _ H).
  - by eapply legacy_simplify_loop_error.
Qed.

End LegacySimplify.

(** * The claims *)

(** C1 (as the code has it).  A bare number handed to a decorated operator
    becomes a unitless [Value], without a warning, when the units of the
    left operand are convertible to unitless (empty, or every dimension
    sums to zero); otherwise it becomes a [Value] with the units of the left
    operand and the warning is emitted.  A unitless left operand is of the
    first kind, and every decorated operator is its body run on the coerced
    input. *)
Theorem ensure_value_input_number (E : Env) (self : Value) (n : number) :
  let x := PyFloat (number_value n) in
  let sf := Z.of_nat (count_sigfigs (number_str E x)) in
  coerce E self (ONumber n) =
    (if can_convert (units self)
     then mkM [] (Ok (mkValue (number_value n) Units_empty sf))
     else mkM [assumed_units_warning E self]
            (Ok (mkValue (number_value n) (units self) sf))) ∧
  (is_unitless (units self) = true → can_convert (units self) = true) ∧
  (∀ A (f : Value → Value → M A),
     ensure_value_input E f self (ONumber n) =
       v ← coerce E self (ONumber n); f self v).
Proof.
  intros x sf. split; [|split].
  - apply coerce_number.
  - apply is_unitless_can_convert.
  - intros A f. apply ensure_value_input_coerce.
Qed.

(** C1, as stated, fails: a left operand in kg carries real dimensions, and
    the bare number 2 is coerced to a [Value] in kg, with the warning, not to
    a unitless one; a unitless left operand gets a unitless [Value] and no
    warning. *)
Lemma ensure_value_input_counterexample :
  let kg5 := Std.quantity (PyInt 5) "kg" in
  let bare5 := Value_init Std.env (PyInt 5) Units_empty None in
  (can_convert (units kg5) = false ∧
   ∃ v, coerce Std.env kg5 (ONumber (PyInt 2)) =
          mkM [assumed_units_warning Std.env kg5] (Ok v) ∧
        units v = units kg5 ∧ is_unitless (units v) = false) ∧
  (is_unitless (units bare5) = true ∧
   ∃ v, coerce Std.env bare5 (ONumber (PyInt 2)) = mkM [] (Ok v) ∧
        is_unitless (units v) = true).
Proof.
  intros kg5 bare5. split; (split; [by vm_compute|]).
  - eexists. split; [by vm_compute|]. split; by vm_compute.
  - eexists. split; by vm_compute.
Qed.

(** C2 (as the code has it).  When the ratio of the target units [T] to the
    units of [q] is unitless, [convert_units] returns the value and the
    significant figures of [q]: in [unitkit] tagged with [T] (the conversion
    not being one between temperature scales, which is tried first), in the
    older package tagged with the units of [q], which give every symbol the
    exponent that [T] gives it when neither has two atomic units of one
    symbol. *)
Theorem convert_units_unitless_ratio (E : Env) (q : Value) (T : Units)
    (mw : option Value) :
  is_unitless (Units_div T (units q)) = true →
  (is_temperature_conversion E (units q) T = false →
     convert_units E q T mw = Ok (mkValue (value q) T (sigfigs q))) ∧
  Legacy.convert_units E q T mw =
    Ok (mkValue (value q) (units q) (sigfigs q)) ∧
  (NoDup (symbol <$> base_units (units q)) →
   NoDup (symbol <$> base_units T) → same_mapping (units q) T).
Proof.
  intros Hu. split; [|split].
  - intros Ht. unfold convert_units. by rewrite Ht, Hu.
  - by apply legacy_convert_units_unitless_ratio.
  - intros Hq HT. by apply unitless_ratio_same_mapping.
Qed.

(** From kg to a target that names the same unit under another string:
    the result is 5, tagged with the target. *)
Lemma convert_units_unitless_ratio_witness :
  let q := Std.quantity (PyInt 5) "kg" in
  let T := mkUnits "kilogram" [Std.unit "kg" 1] in
  is_unitless (Units_div T (units q)) = true ∧
  is_temperature_conversion Std.env (units q) T = false ∧
  convert_units Std.env q T None = Ok (mkValue (value q) T (sigfigs q)).
Proof.
  intros q T.
  assert (H1 : is_unitless (Units_div T (units q)) = true)
    by (vm_compute; reflexivity).
  assert (H2 : is_temperature_conversion Std.env (units q) T = false)
    by (vm_compute; reflexivity).
  split; [exact H1|]. split; [exact H2|].
  exact (proj1 (convert_units_unitless_ratio Std.env q T None H1) H2).
Defined.

(** C2, as stated, fails on the older package: from m s to s m the ratio is
    unitless and [convert_units] returns the units of [q], m s, not the
    target. *)
Lemma legacy_convert_units_keeps_units :
  let q := mkValue (Qc_of_Z 3)
             (mkUnits "m s" [Std.unit "m" 1; Std.unit "s" 1]) 1 in
  let T := mkUnits "s m" [Std.unit "s" 1; Std.unit "m" 1] in
  is_unitless (Units_div T (units q)) = true ∧
  ∃ v, Legacy.convert_units Std.env q T None = Ok v ∧
       units v = units q ∧ units v ≠ T.
Proof.
  intros q T. split; [by vm_compute|].
  eexists. split; [by vm_compute|]. split; [done|discriminate].
Qed.

(** C3 (as the code has it).  When the ratio is not convertible and becomes
    so with the bridging unit g/mol, [convert_units] raises the
    missing-molecular-weight error exactly when no bridge is given; with a
    bridge it returns, except that a bridge of value 0 that has to be
    inverted raises [ZeroDivisionError].  When the bridging unit does not
    help either, the error raised names the source and the target units.
    Both packages keep this contract. *)
Theorem convert_units_bridge (E : Env) (q : Value) (T : Units)
    (mw : option Value) :
  can_convert (Units_div T (units q)) = false →
  (is_temperature_conversion E (units q) T = false →
     bridge_contract E (convert_units E) q T mw) ∧
  bridge_contract E (Legacy.convert_units E) q T mw.
Proof.
  intros Hc. split.
  - intros Ht. by apply convert_units_bridge_contract.
  - by apply legacy_convert_units_bridge_contract.
Qed.

(** From mol to g: without a bridge the error, with 18 g/mol a result. *)
Lemma convert_units_bridge_witness :
  let q := Std.quantity (PyInt 100) "mol" in
  let T := Units_parse Std.env "g" in
  can_convert (Units_div T (units q)) = false ∧
  is_temperature_conversion Std.env (units q) T = false ∧
  convert_units Std.env q T None = Raise (Exception needs_mw_message) ∧
  ∃ v, convert_units Std.env q T (Some (Std.quantity (PyInt 18) "g/mol")) = Ok v.
Proof.
  intros q T.
  assert (H1 : can_convert (Units_div T (units q)) = false)
    by (vm_compute; reflexivity).
  assert (H2 : is_temperature_conversion Std.env (units q) T = false)
    by (vm_compute; reflexivity).
  assert (H3 : can_convert (Units_div (Units_div T (units q))
                  (Units_parse Std.env "g/mol")) = true)
    by (vm_compute; reflexivity).
  split; [exact H1|]. split; [exact H2|]. split.
  - destruct (proj1 (convert_units_bridge Std.env q T None H1) H2) as [Hb _].
    destruct (Hb (or_intror H3)) as [Hiff _]. exact (proj2 Hiff eq_refl).
  - destruct (proj1 (convert_units_bridge Std.env q T
                (Some (Std.quantity (PyInt 18) "g/mol")) H1) H2) as [Hb _].
    destruct (Hb (or_intror H3)) as [_ Hsome].
    exact (Hsome _ eq_refl).
Defined.

(** C3, as stated, fails: from g to mol the ratio becomes convertible when
    multiplied by g/mol, a bridge is given, and the conversion still raises
    an error, the [ZeroDivisionError] of [1 / mw] for a bridge of value 0. *)
Lemma convert_units_bridge_counterexample :
  let q := Std.quantity (PyInt 18) "g" in
  let T := Units_parse Std.env "mol" in
  let ratio := Units_div T (units q) in
  let mw := Std.quantity (PyInt 0) "g/mol" in
  can_convert ratio = false ∧
  can_convert (Units_mul ratio (Units_parse Std.env "g/mol")) = true ∧
  convert_units Std.env q T (Some mw) = Raise ZeroDivisionError ∧
  Legacy.convert_units Std.env q T (Some mw) = Raise ZeroDivisionError.
Proof. intros q T ratio mw. repeat split; by vm_compute. Qed.

(** C4 (as the code has it).  In [unitkit] a conversion that
    [is_temperature_conversion] accepts returns the value transformed by the
    converter of the two unit expressions, tagged with the target units and
    the significant figures of the source; neither the bridge nor any factor
    of the multiplicative path enters the result.  The older package has no
    such branch: its conversion multiplies, and a value of 0 converts
    to 0. *)
Theorem convert_units_temperature (E : Env) (q : Value) (T : Units)
    (mw : option Value) :
  (is_temperature_conversion E (units q) T = true →
   convert_units E q T mw =
     Ok (mkValue (get_temperature_converter E (units q) T (value q)) T
           (sigfigs q))) ∧
  (∀ v, value q = 0 → Legacy.convert_units E q T mw = Ok v → value v = 0).
Proof.
  split.
  - intros Ht. unfold convert_units. by rewrite Ht.
  - intros v. apply legacy_convert_units_zero.
Qed.

(** [Value(0, "°C").to("°F")] is 32, by the transform of the pair of
    symbols. *)
Lemma convert_units_temperature_witness :
  let c0 := Std.quantity (PyInt 0) "°C" in
  let degF := Units_parse Std.env "°F" in
  is_temperature_conversion Std.env (units c0) degF = true ∧
  get_temperature_converter Std.env (units c0) degF =
    Std.temperature_converter "°C" "°F" ∧
  convert_units Std.env c0 degF None = Ok (mkValue (Qc_of_Z 32) degF 0).
Proof.
  intros c0 degF.
  assert (H1 : is_temperature_conversion Std.env (units c0) degF = true)
    by (vm_compute; reflexivity).
  split; [exact H1|]. split; [reflexivity|].
  rewrite (proj1 (convert_units_temperature Std.env c0 degF None) H1).
  by_compute.
Defined.

(** C4, as stated, fails on the older package: [Value(0, "°C")] converted
    to °F takes the multiplicative path and has value 0, not 32. *)
Lemma legacy_convert_units_not_affine :
  let c0 := Std.quantity (PyInt 0) "°C" in
  let degF := Units_parse Std.env "°F" in
  ∃ v, Legacy.convert_units Std.env c0 degF None = Ok v ∧
       value v = 0 ∧ value v ≠ Qc_of_Z 32.
Proof.
  intros c0 degF. eexists. split; [by vm_compute|].
  split; by_compute.
Qed.

(** What the sibling operators do.  Addition, subtraction and reflected
    addition, also with a coerced bare number, and multiplication and
    division of two [Value]s return the minimum of the significant figures
    of the two operands; so do addition and subtraction of two [Value]s in
    the older package. *)
Lemma operators_min_sigfigs (E : Env) (a : Value) :
  (∀ other r, outcome (Value_add E a other) = Ok r →
     sigfigs r = Z.min (sigfigs a) (operand_sigfigs E other)) ∧
  (∀ other r, outcome (Value_sub E a other) = Ok r →
     sigfigs r = Z.min (sigfigs a) (operand_sigfigs E other)) ∧
  (∀ other r, outcome (Value_radd E a other) = Ok r →
     sigfigs r = Z.min (sigfigs a) (operand_sigfigs E other)) ∧
  (∀ b r, Value_mul a (OValue b) = Ok r →
     sigfigs r = Z.min (sigfigs a) (sigfigs b)) ∧
  (∀ b r, Value_truediv a (OValue b) = Ok r →
     sigfigs r = Z.min (sigfigs a) (sigfigs b)) ∧
  (∀ b r, Legacy.Value_add E a (OValue b) = Ok r →
     sigfigs r = Z.min (sigfigs a) (sigfigs b)) ∧
  (∀ b r, Legacy.Value_sub E a (OValue b) = Ok r →
     sigfigs r = Z.min (sigfigs a) (sigfigs b)).
Proof.
  repeat split.
  - intros other r (v & Hv & Hr)%ensure_value_input_outcome.
    apply add_body_sigfigs in Hr. apply coerce_operand_sigfigs in Hv. congruence.
  - intros other r (v & Hv & Hr)%ensure_value_input_outcome.
    apply sub_body_sigfigs in Hr. apply coerce_operand_sigfigs in Hv. congruence.
  - intros other r (v & Hv & Hr)%ensure_value_input_outcome.
    simpl in Hr.
    apply add_body_sigfigs in Hr. apply coerce_operand_sigfigs in Hv. congruence.
  - simpl. by intros b r [= <-].
  - simpl. intros b r. unfold_monad.
    destruct (float_div (value a) (value b)); simpl; [|done]. by intros [= <-].
  - simpl. intros b r. unfold_monad.
    destruct (Legacy.convert_units E b (units a) None) as [b'|] eqn:Hb; simpl; [|done].
    intros [= <-]. simpl. f_equal.
    unfold Legacy.convert_units in Hb.
    destruct (is_unitless _); [by injection Hb as <-|].
    unfold_monad.
    repeat match type of Hb with
    | context [match ?x with _ => _ end] => destruct x eqn:?; simpl in Hb; try discriminate
    end; by injection Hb as <-.
  - simpl. intros b r. unfold_monad.
    destruct (Legacy.convert_units E b (units a) None) as [b'|] eqn:Hb; simpl; [|done].
    intros [= <-]. simpl. f_equal.
    unfold Legacy.convert_units in Hb.
    destruct (is_unitless _); [by injection Hb as <-|].
    unfold_monad.
    repeat match type of Hb with
    | context [match ?x with _ => _ end] => destruct x eqn:?; simpl in Hb; try discriminate
    end; by injection Hb as <-.
Qed.

(** C5 at the failing input.  In [5 - Value(1.234, "kg")] the decorator
    turns 5 into a [Value] of two significant figures.  On these operands
    [__add__], [__radd__] and [__sub__] return the minimum, 2.  [__rsub__]
    computes the difference through the decorated [__sub__], which carries
    that minimum, and returns it with the 4 of the receiver: more than the
    minimum of its operands. *)
Lemma rsub_discards_min_sigfigs :
  let self := Value_init Std.env (PyFloat (Std.q 1234 1000))
                (Units_parse Std.env "kg") None in
  let five := ONumber (PyInt 5) in
  ∃ coerced ra rr rs d r,
    outcome (coerce Std.env self five) = Ok coerced ∧
    sigfigs self = 4%Z ∧ sigfigs coerced = 2%Z ∧
    outcome (Value_add Std.env self five) = Ok ra ∧ sigfigs ra = 2%Z ∧
    outcome (Value_radd Std.env self five) = Ok rr ∧ sigfigs rr = 2%Z ∧
    outcome (Value_sub Std.env self five) = Ok rs ∧ sigfigs rs = 2%Z ∧
    outcome (Value_sub Std.env coerced (ONumber (PyFloat (value self))))
      = Ok d ∧ sigfigs d = 2%Z ∧
    outcome (Value_rsub Std.env self five) = Ok r ∧ sigfigs r = 4%Z ∧
    ¬ (sigfigs r ≤ Z.min (sigfigs self) (sigfigs coerced))%Z.
Proof.
  intros self five. do 6 eexists.
  split; [by vm_compute|].
  split; [by vm_compute|]. split; [by vm_compute|].
  split; [by vm_compute|]. split; [by vm_compute|].
  split; [by vm_compute|]. split; [by vm_compute|].
  split; [by vm_compute|]. split; [by vm_compute|].
  split; [by vm_compute|]. split; [by vm_compute|].
  split; [by vm_compute|]. split; by vm_compute.
Qed.

(** C6 at the failing input.  The receiver holds the objects 0 (m) and 1
    (in), both lengths with exponent 1: [simplify] merges in into m by
    [u.exp += other.exp] on object 0, which the receiver still holds, so the
    receiver reads m^2 in afterwards.  [update_exp] of the older package
    multiplies the exponents of the receiver's own objects. *)
Lemma simplify_mutates_receiver :
  let h : gmap nat BaseUnit :=
    <[1%nat := Std.unit "in" 1]> {[0%nat := Std.unit "m" 1]} in
  let self := [0%nat; 1%nat] in
  Heap.read h self = [Std.unit "m" 1; Std.unit "in" 1] ∧
  (Heap.simplify h self).2 = [0%nat] ∧
  Heap.read (Heap.simplify h self).1 self = [Std.unit "m" 2; Std.unit "in" 1] ∧
  Heap.read (Heap.legacy_update_exp h self (Qc_of_Z 3)) self =
    [Std.unit "m" 3; Std.unit "in" 3].
Proof. intros h self. repeat split; by_compute. Qed.

(** C7 at the failing input: [Units.update_exp(0)] on the expression m, and
    [Value(2, "m") ** 0], keep the atomic unit m with exponent 0. *)
Lemma update_exp_keeps_zero_exponent :
  let m := Units_of_list "" [Std.unit "m" 1] in
  base_units (Units_update_exp m 0) = [Std.unit "m" 0] ∧
  ¬ nonzero (Units_update_exp m 0) ∧
  ∃ v, Value_pow Std.env (Std.quantity (PyInt 2) "m") (ONumber (PyInt 0)) = Ok v ∧
       base_units (units v) = [Std.unit "m" 0] ∧
       is_unitless (units v) = false.
Proof.
  intros m. split; [by_compute|]. split.
  - intros H. unfold nonzero in H.
    replace (base_units (Units_update_exp m 0)) with [Std.unit "m" 0] in H
      by by_compute.
    apply Forall_cons_1 in H as [H _]. apply H. by_compute.
  - eexists. split; [by vm_compute|]. split; [by_compute|by vm_compute].
Qed.

(** C8.  [simplify] terminates: the machine of its two loops, started on the
    atomic units of [A], halts with the list from which [simplify(A)] is
    built.  Every iteration of the inner loop leaves fewer units to scan;
    when it removes the partner [r], also in the partial cancellation that
    keeps [u], the list itself gets shorter; and every iteration of the
    outer loop ends with a shorter list.  [simplify] of the older package
    runs the same loops: it returns what they keep, or stops at a division
    by zero. *)
Theorem simplify_terminates (A : Units) :
  (∃ n keep,
     Machine.run n (Machine.Outer (base_units A) []) = Machine.Done keep ∧
     simplify A = Units_of_list "" keep ∧
     ∀ E, match Legacy.simplify E A with
          | Ok (U, _) => U = Legacy.Units_of_list "" keep
          | Raise e => e = ZeroDivisionError
          end) ∧
  (∀ u i remaining keep r, remaining !! i = Some r →
     match Machine.step (Machine.Inner u i remaining keep) with
     | Machine.Inner _ i' remaining' _ =>
         (length remaining' - i' < length remaining - i)%nat
     | Machine.Exit _ _ remaining' _ =>
         (length remaining' < length remaining)%nat
     | _ => False
     end) ∧
  (∀ u i remaining keep r, remaining !! i = Some r →
     can_convert (unit_times u r) = false →
     can_convert (unit_over u r) = true →
     Machine.step (Machine.Inner u i remaining keep) =
       Machine.Inner (set_exp u (exp u + exp r)) i (delete i remaining) keep ∧
     (length (delete i remaining) < length remaining)%nat) ∧
  (∀ u remaining keep, ∃ n remaining' keep',
     Machine.run n (Machine.Outer (u :: remaining) keep) =
       Machine.Outer remaining' keep' ∧
     (length remaining' < length (u :: remaining))%nat).
Proof.
  split; [|split; [|split]].
  - destruct (outer_loop_run (length (base_units A)) (base_units A) [])
      as [n Hn]; [done|]. eexists n, _. split; [exact Hn|]. split; [done|].
    intros E. apply legacy_simplify_result.
  - intros u i remaining keep r Hr. simpl. rewrite Hr.
    pose proof (lookup_lt_Some _ _ _ Hr) as Hlt.
    assert (Hdel : length (delete i remaining) = (length remaining - 1)%nat)
      by (by apply length_delete; eauto).
    destruct (can_convert (unit_times u r)); [rewrite Hdel; lia|].
    destruct (can_convert (unit_over u r)); [rewrite Hdel; lia|lia].
  - intros u i remaining keep r Hr Hm Hd. simpl. rewrite Hr, Hm, Hd.
    split; [done|]. pose proof (lookup_lt_Some _ _ _ Hr).
    rewrite length_delete by eauto. lia.
  - intros u remaining keep.
    destruct (inner_loop_run remaining [] u keep) as [n Hn]. simpl in Hn.
    destruct (simplify_scan u remaining) as [[canceled u'] remaining'] eqn:Hs.
    apply simplify_scan_length in Hs.
    exists (1 + (n + 1))%nat, remaining', (if canceled then keep else keep ++ [u']).
    split; [|simpl; lia].
    rewrite run_app. simpl Machine.run at 2. by rewrite run_app, Hn.
Qed.

(** C10.  When the value of [q1] is 0 and the units of [q2] convert to
    those of [q1], [q1.equals(q2)] and [q1 == q2] raise
    [ZeroDivisionError], in both packages. *)
Theorem equals_zero_division (E : Env) (epsilon : Qc) (q1 q2 : Value) :
  value q1 = 0 →
  can_convert (Units_div (units q1) (units q2)) = true →
  Value_equals E epsilon q1 (OValue q2) = mkM [] (Raise ZeroDivisionError) ∧
  Value_eq E q1 (OValue q2) = mkM [] (Raise ZeroDivisionError) ∧
  Legacy.Value_equals E epsilon q1 (OValue q2) = Raise ZeroDivisionError.
Proof.
  intros Hz Hc.
  destruct (convert_units_convertible E q2 (units q1) None Hc) as [v Hv].
  destruct (legacy_convert_units_convertible E q2 (units q1) None Hc) as [v' Hv'].
  assert (Hd : ∀ x, float_div x (value q1) = Raise ZeroDivisionError).
  { intros x. unfold float_div. by rewrite Hz, bool_decide_eq_true_2. }
  unfold Value_eq, Value_equals, Legacy.Value_equals, ensure_value_input,
    Value_equals_body.
  rewrite Hv, Hv'. unfold_monad. by rewrite !Hd.
Qed.

(** [Value(0, "kg") == Value(5, "g")] raises. *)
Lemma equals_zero_division_witness :
  let kg0 := Std.quantity (PyInt 0) "kg" in
  let g5 := Std.quantity (PyInt 5) "g" in
  value kg0 = 0 ∧
  can_convert (Units_div (units kg0) (units g5)) = true ∧
  Value_eq Std.env kg0 (OValue g5) = mkM [] (Raise ZeroDivisionError).
Proof.
  intros kg0 g5.
  assert (H1 : value kg0 = 0) by by_compute.
  assert (H2 : can_convert (Units_div (units kg0) (units g5)) = true)
    by (vm_compute; reflexivity).
  split; [exact H1|]. split; [exact H2|].
  exact (proj1 (proj2 (equals_zero_division Std.env default_epsilon kg0 g5 H1 H2))).
Defined.

(** * Further properties of the code *)

(** ** The merge of the constructor *)

Lemma combine_scan_spec remaining : ∀ current c remaining',
  combine_scan current remaining = (c, remaining') →
  sublist remaining' remaining ∧
  (∀ c', c = Some c' →
     symbol c' = symbol current ∧
     ∀ r, r ∈ remaining' → symbol r ≠ symbol current).
Proof.
  induction remaining as [|r rest IH]; intros current c remaining' H; simpl in H.
  - injection H as <- <-. split; [done|]. intros c' [= <-]. split; [done|].
    intros r Hr. by apply elem_of_nil in Hr.
  - destruct (unit_eqb current r) eqn:Heq.
    + destruct (unit_mul current r) as [c0|] eqn:Hmul.
      * apply IH in H as [H1 H2]. split; [by apply sublist_cons|].
        intros c' Hc. destruct (H2 c' Hc) as [H3 H4].
        unfold unit_mul in Hmul. case_bool_decide; [done|].
        injection Hmul as <-. simpl in *. done.
      * injection H as <- <-. split; [by apply sublist_cons|]. by intros c' [=].
    + destruct (combine_scan current rest) as [c0 rest0] eqn:Hs.
      injection H as <- <-. apply IH in Hs as [H1 H2].
      split; [by apply sublist_skip|].
      intros c' Hc. destruct (H2 c' Hc) as [H3 H4]. split; [done|].
      intros x [->|Hx]%elem_of_cons; [|by apply H4].
      apply bool_decide_eq_false in Heq. by intros Hs'.
Qed.

Lemma combine_loop_unique fuel : ∀ remaining combined,
  NoDup (symbol <$> combined) →
  Forall (λ u, exp u ≠ 0) combined →
  (∀ x r, x ∈ combined → r ∈ remaining → symbol x ≠ symbol r) →
  NoDup (symbol <$> combine_loop fuel remaining combined) ∧
  Forall (λ u, exp u ≠ 0) (combine_loop fuel remaining combined).
Proof.
  induction fuel as [|fuel IH]; intros remaining combined Hnd Hnz Hdisj;
    [done|].
  simpl. destruct (rev remaining) as [|current rev_rest] eqn:Hrev; [done|].
  apply (f_equal (@rev _)) in Hrev. rewrite rev_involutive in Hrev.
  simpl in Hrev. subst remaining.
  destruct (combine_scan current (rev rev_rest)) as [c remaining'] eqn:Hs.
  apply combine_scan_spec in Hs as [Hsub Hc].
  assert (Hrem : ∀ r, r ∈ remaining' → r ∈ rev rev_rest ++ [current]).
  { intros r Hr. apply elem_of_app. left. by eapply elem_of_sublist. }
  assert (Hkeep : ∀ x r, x ∈ combined → r ∈ remaining' → symbol x ≠ symbol r).
  { intros x r Hx Hr. apply Hdisj; [done|]. by apply Hrem. }
  destruct c as [c'|]; [|by apply IH].
  destruct (unit_truthy c') eqn:Ht; [|by apply IH].
  destruct (Hc c' eq_refl) as [Hsym Hfresh].
  apply IH.
  - rewrite fmap_app. apply NoDup_app. split; [done|]. split.
    + intros s (x & -> & Hx)%list_elem_of_fmap Hin. simpl in Hin.
      apply list_elem_of_singleton in Hin. rewrite Hsym in Hin.
      eapply Hdisj; [exact Hx| |exact Hin]. apply elem_of_app. right.
      by apply list_elem_of_singleton.
    + simpl. apply NoDup_singleton.
  - apply Forall_app. split; [done|]. apply Forall_singleton.
    by apply unit_truthy_nonzero.
  - intros x r [Hx|Hx]%elem_of_app Hr; [by apply Hkeep|].
    apply list_elem_of_singleton in Hx as ->. rewrite Hsym.
    intros Heq. by eapply Hfresh.
Qed.

(** When no symbol occurs twice, the scan finds nothing to merge. *)
Lemma combine_scan_unique current remaining :
  (∀ r, r ∈ remaining → symbol r ≠ symbol current) →
  combine_scan current remaining = (Some current, remaining).
Proof.
  induction remaining as [|r rest IH]; intros H; [done|]. simpl.
  unfold unit_eqb. rewrite bool_decide_eq_false_2.
  - rewrite IH; [done|]. intros x Hx. apply H. by apply elem_of_cons; right.
  - intros Heq. eapply H; [|symmetry; exact Heq]. by apply elem_of_cons; left.
Qed.

Lemma combine_loop_rev fuel : ∀ remaining combined,
  NoDup (symbol <$> remaining) → (length remaining ≤ fuel)%nat →
  combine_loop fuel remaining combined =
    combined ++ rev (filter (λ u, exp u ≠ 0) remaining).
Proof.
  induction fuel as [|fuel IH]; intros remaining combined Hnd Hlen.
  - destruct remaining; [by rewrite app_nil_r|simpl in Hlen; lia].
  - simpl. destruct (rev remaining) as [|current rev_rest] eqn:Hrev.
    + apply (f_equal (@rev _)) in Hrev. rewrite rev_involutive in Hrev.
      subst. by rewrite app_nil_r.
    + apply (f_equal (@rev _)) in Hrev. rewrite rev_involutive in Hrev.
      simpl in Hrev. subst remaining.
      rewrite fmap_app in Hnd. apply NoDup_app in Hnd as (Hnd & Hdisj & _).
      rewrite length_app in Hlen. simpl in Hlen.
      rewrite combine_scan_unique.
      2:{ intros r Hr Heq. eapply Hdisj.
          - by apply list_elem_of_fmap_2.
          - rewrite Heq. simpl. by apply list_elem_of_singleton. }
      rewrite IH by (done || lia).
      rewrite filter_app, rev_app_distr. simpl.
      rewrite filter_cons, filter_nil. unfold unit_truthy.
      destruct (decide (exp current = 0)) as [Hz|Hz].
      * rewrite bool_decide_eq_true_2 by done. simpl.
        by rewrite decide_False by (by intros Hn).
      * rewrite bool_decide_eq_false_2 by done. simpl.
        rewrite decide_True by done. simpl. by rewrite <- app_assoc.
Qed.

Lemma prune_zero_id l : Forall (λ u, exp u ≠ 0) l → prune_zero l = l.
Proof.
  unfold prune_zero. induction 1 as [|u l Hu _ IH]; [done|].
  rewrite filter_cons, decide_True by done. by rewrite IH.
Qed.

Lemma Forall_rev_nonzero l :
  Forall (λ u, exp u ≠ 0) l → Forall (λ u : BaseUnit, exp u ≠ 0) (rev l).
Proof.
  rewrite !Forall_forall. intros H x Hx. apply H.
  apply list_elem_of_In, in_rev. by apply list_elem_of_In.
Qed.

(** X1.  [_combine_unit_list] returns at most one atomic unit per symbol and
    none with exponent 0, and gives every symbol the sum of the exponents
    that the input gives it. *)
Theorem combine_unit_list_normal (l : list BaseUnit) :
  NoDup (symbol <$> _combine_unit_list l) ∧
  Forall (λ u, exp u ≠ 0) (_combine_unit_list l) ∧
  ∀ s, exp_of (_combine_unit_list l) s = exp_of l s.
Proof.
  destruct (combine_loop_unique (length l) l []) as [H1 H2].
  - constructor.
  - constructor.
  - intros x r Hx. by apply elem_of_nil in Hx.
  - split; [done|]. split; [done|]. apply combine_unit_list_mapping.
Qed.

(** X2.  On a list that has no symbol twice the constructor merges nothing:
    it drops the atomic units of exponent 0 and returns the others in
    reverse order (the merge pops from the end of the list). *)
Theorem Units_of_list_unique (s : string) (l : list BaseUnit) :
  NoDup (symbol <$> l) →
  base_units (Units_of_list s l) = rev (prune_zero l).
Proof.
  intros Hnd. simpl. unfold _combine_unit_list.
  rewrite combine_loop_rev by done. simpl.
  apply prune_zero_id, Forall_rev_nonzero, prune_zero_nonzero.
Qed.

Lemma Units_of_list_unique_witness :
  let l := [Std.unit "m" 1; Std.unit "kg" 0; Std.unit "s" (-2)] in
  NoDup (symbol <$> l) ∧
  base_units (Units_of_list "" l) = [Std.unit "s" (-2); Std.unit "m" 1].
Proof.
  intros l.
  assert (H : NoDup (symbol <$> l)) by (apply (bool_decide_unpack _); vm_compute; exact I).
  split; [exact H|].
  rewrite (Units_of_list_unique "" l H).
  apply (bool_decide_unpack _). vm_compute. exact I.
Defined.

(** ** Products of unit expressions *)

Lemma unit_in_symbol u l : unit_in u l = true ↔ symbol u ∈ symbol <$> l.
Proof.
  unfold unit_in. rewrite existsb_exists. split.
  - intros (x & Hx & Hs). apply bool_decide_eq_true in Hs. rewrite Hs.
    apply list_elem_of_fmap_2. by apply list_elem_of_In.
  - intros (x & Hs & Hx)%list_elem_of_fmap. exists x.
    split; [by apply list_elem_of_In|]. by apply bool_decide_eq_true.
Qed.

Lemma first_same_unique u l x :
  NoDup (symbol <$> l) → x ∈ l → symbol x = symbol u → first_same u l = Some x.
Proof.
  intros Hnd Hx Hs. destruct (first_same u l) as [y|] eqn:Hf.
  - apply first_same_Some in Hf as [Hy Hsy]. f_equal.
    apply (NoDup_fmap_1 symbol) in Hnd as Hnd'.
    apply list_elem_of_lookup in Hx as [i Hi].
    apply list_elem_of_lookup in Hy as [j Hj].
    assert (i = j).
    { eapply NoDup_lookup; [exact Hnd| |].
      - by rewrite list_lookup_fmap, Hi.
      - rewrite list_lookup_fmap, Hj. simpl. congruence. }
    subst. congruence.
  - exfalso. by eapply first_same_None.
Qed.

Lemma mul_merged_elem A B c :
  c ∈ mul_merged A B →
  ∃ u, u ∈ A ∧ symbol c = symbol u ∧ dimension c = dimension u ∧ exp c ≠ 0.
Proof.
  unfold mul_merged. intros (u & Hu & Hc)%list_elem_of_omap.
  exists u. split; [done|].
  destruct (first_same u B) as [same|].
  - unfold unit_mul in Hc. case_bool_decide as Hz; [done|].
    injection Hc as <-. done.
  - destruct (unit_truthy u) eqn:Ht; [|done]. injection Hc as <-.
    repeat split. by apply unit_truthy_nonzero.
Qed.

Lemma mul_merged_cons u A B :
  mul_merged (u :: A) B = option_list (mul_unit B u) ++ mul_merged A B.
Proof.
  unfold mul_merged. simpl. fold (mul_unit B u). by destruct (mul_unit B u).
Qed.

Lemma mul_unit_symbol B u c : mul_unit B u = Some c → symbol c = symbol u.
Proof.
  unfold mul_unit. destruct (first_same u B).
  - unfold unit_mul. case_bool_decide; [done|]. by intros [= <-].
  - destruct (unit_truthy u); [|done]. by intros [= <-].
Qed.

Lemma mul_merged_symbols A B :
  sublist (symbol <$> mul_merged A B) (symbol <$> A).
Proof.
  induction A as [|u A IH]; [done|]. rewrite mul_merged_cons.
  destruct (mul_unit B u) as [c|] eqn:Hc; simpl.
  - rewrite (mul_unit_symbol _ _ _ Hc). by apply sublist_skip.
  - by apply sublist_cons.
Qed.

Lemma exp_of_mul_unit B u s :
  NoDup (symbol <$> B) →
  exp_of (option_list (mul_unit B u)) s =
    if bool_decide (symbol u = s) then exp u + exp_of B s else 0.
Proof.
  intros HB. unfold mul_unit.
  destruct (first_same u B) as [same|] eqn:Hf.
  - apply first_same_Some in Hf as [Hin Hsym].
    case_bool_decide as Hs.
    + subst s. rewrite <- Hsym, (exp_of_present _ same HB Hin).
      unfold unit_mul. case_bool_decide as Hz; simpl.
      * by rewrite Hz.
      * rewrite bool_decide_eq_true_2 by done. ring.
    + unfold unit_mul. case_bool_decide; simpl; [done|].
      rewrite bool_decide_eq_false_2 by done. ring.
  - case_bool_decide as Hs.
    + subst s. rewrite (exp_of_absent B).
      2:{ intros x Hx. by eapply first_same_None. }
      destruct (unit_truthy u) eqn:Ht; simpl.
      * rewrite bool_decide_eq_true_2 by done. ring.
      * apply negb_false_iff, bool_decide_eq_true in Ht. rewrite Ht. ring.
    + destruct (unit_truthy u); simpl; [|done].
      rewrite bool_decide_eq_false_2 by done. ring.
Qed.

Lemma exp_of_mul_merged A B s :
  NoDup (symbol <$> A) → NoDup (symbol <$> B) →
  exp_of (mul_merged A B) s =
    if decide (s ∈ symbol <$> A) then exp_of A s + exp_of B s else 0.
Proof.
  intros HA HB. induction A as [|u A IH].
  { rewrite decide_False; [done|]. apply not_elem_of_nil. }
  rewrite fmap_cons in HA. apply NoDup_cons in HA as [Hu HA].
  rewrite mul_merged_cons, exp_of_app, exp_of_mul_unit by done.
  rewrite IH by done. simpl. case_bool_decide as Hs.
  - subst s. rewrite decide_False by done.
    rewrite decide_True by (by apply elem_of_cons; left).
    rewrite (exp_of_absent A); [ring|].
    intros x Hx Hsx. apply Hu. rewrite <- Hsx. by apply list_elem_of_fmap_2.
  - destruct (decide (s ∈ symbol <$> A)) as [Hin|Hout].
    + rewrite decide_True by (by apply elem_of_cons; right). ring.
    + rewrite decide_False; [ring|].
      intros [?|?]%elem_of_cons; [congruence|done].
Qed.

Lemma sublist_fmap_symbol (l1 l2 : list BaseUnit) :
  sublist l1 l2 → sublist (symbol <$> l1) (symbol <$> l2).
Proof.
  induction 1; simpl; [done|by apply sublist_skip|by apply sublist_cons].
Qed.

Lemma exp_of_fresh A B s :
  exp_of (filter (λ u, unit_in u A = false) B) s =
    if decide (s ∈ symbol <$> A) then 0 else exp_of B s.
Proof.
  induction B as [|u B IH]; [by destruct (decide _)|].
  rewrite filter_cons. simpl.
  destruct (decide (unit_in u A = false)) as [Hf|Hf]; simpl; rewrite IH.
  - assert (Hu : symbol u ∉ symbol <$> A).
    { intros Hin%unit_in_symbol. congruence. }
    destruct (decide (s ∈ symbol <$> A)) as [Hs|Hs]; [|done].
    rewrite bool_decide_eq_false_2; [ring|]. by intros <-.
  - apply not_false_is_true, unit_in_symbol in Hf.
    destruct (decide (s ∈ symbol <$> A)) as [Hs|Hs]; [done|].
    rewrite bool_decide_eq_false_2; [ring|]. by intros <-.
Qed.

Lemma exp_of_Units_mul A B s :
  unique_symbols A → unique_symbols B →
  exp_of (base_units (Units_mul A B)) s =
    exp_of (base_units A) s + exp_of (base_units B) s.
Proof.
  intros HA HB.
  change (base_units (Units_mul A B))
    with (mul_merged (base_units A) (base_units B) ++
          filter (λ u, unit_in u (base_units A) = false) (base_units B)).
  rewrite exp_of_app, exp_of_mul_merged, exp_of_fresh by done.
  destruct (decide (s ∈ symbol <$> base_units A)) as [Hs|Hs]; [ring|].
  rewrite (exp_of_absent (base_units A)); [ring|].
  intros u Hu Hsu. apply Hs. rewrite <- Hsu. by apply list_elem_of_fmap_2.
Qed.

Lemma unique_symbols_Units_mul A B :
  unique_symbols A → unique_symbols B → unique_symbols (Units_mul A B).
Proof.
  intros HA HB. unfold unique_symbols.
  change (base_units (Units_mul A B))
    with (mul_merged (base_units A) (base_units B) ++
          filter (λ u, unit_in u (base_units A) = false) (base_units B)).
  rewrite fmap_app. apply NoDup_app. split; [|split].
  - eapply sublist_NoDup; [exact HA|]. apply mul_merged_symbols.
  - intros s Hs (u & -> & Hu)%list_elem_of_fmap.
    apply list_elem_of_filter in Hu as [Hf _].
    assert (Hin : symbol u ∈ symbol <$> base_units A).
    { eapply elem_of_sublist; [exact Hs|]. apply mul_merged_symbols. }
    apply unit_in_symbol in Hin. congruence.
  - eapply sublist_NoDup; [exact HB|].
    apply sublist_fmap_symbol, sublist_filter.
Qed.

Lemma exp_of_Units_invert A s :
  exp_of (base_units (Units_invert A)) s = - exp_of (base_units A) s.
Proof.
  simpl. induction (base_units A) as [|u l IH]; simpl; [ring|].
  rewrite IH. case_bool_decide; ring.
Qed.

Lemma unique_symbols_Units_update_exp A k :
  unique_symbols A → unique_symbols (Units_update_exp A k).
Proof.
  unfold unique_symbols. simpl. intros H.
  by rewrite <- list_fmap_compose.
Qed.

(** A unit expression that gives every symbol exponent 0 and holds no unit
    of exponent 0 is empty. *)
Lemma zero_mapping_empty U :
  unique_symbols U → nonzero U →
  (∀ s, exp_of (base_units U) s = 0) → base_units U = [].
Proof.
  unfold unique_symbols, nonzero. intros Hu Hnz Hz.
  destruct (base_units U) as [|u l]; [done|].
  assert (Hin : u ∈ u :: l) by (apply elem_of_cons; by left).
  pose proof (exp_of_present _ u Hu Hin) as He. rewrite Hz in He.
  eapply Forall_forall in Hnz; [|exact Hin]. done.
Qed.

(** X3.  For unit expressions with at most one atomic unit per symbol, the
    product gives every symbol the sum of the exponents of the factors, and
    has again at most one atomic unit per symbol. *)
Theorem Units_mul_adds_exponents (A B : Units) :
  unique_symbols A → unique_symbols B →
  (∀ s, exp_of (base_units (Units_mul A B)) s =
        exp_of (base_units A) s + exp_of (base_units B) s) ∧
  unique_symbols (Units_mul A B).
Proof.
  intros HA HB. split.
  - intros s. by apply exp_of_Units_mul.
  - by apply unique_symbols_Units_mul.
Qed.

Lemma Units_mul_adds_exponents_witness :
  let A := Units_parse Std.env "m/s" in
  let B := Units_parse Std.env "s" in
  unique_symbols A ∧ unique_symbols B ∧
  base_units (Units_mul A B) = [Std.unit "m" 1] ∧
  exp_of (base_units (Units_mul A B)) "s" = 0.
Proof.
  intros A B.
  assert (HA : unique_symbols A) by (apply (bool_decide_unpack _); vm_compute; exact I).
  assert (HB : unique_symbols B) by (apply (bool_decide_unpack _); vm_compute; exact I).
  split; [exact HA|]. split; [exact HB|]. split.
  - apply (bool_decide_unpack _). vm_compute. exact I.
  - rewrite (proj1 (Units_mul_adds_exponents A B HA HB) "s").
    apply (bool_decide_unpack _). vm_compute. exact I.
Defined.

(** X4.  On unit expressions with at most one atomic unit per symbol the
    product is commutative and associative, as a mapping from symbols to
    exponents. *)
Theorem Units_mul_comm_assoc (A B C : Units) :
  unique_symbols A → unique_symbols B → unique_symbols C →
  same_mapping (Units_mul A B) (Units_mul B A) ∧
  same_mapping (Units_mul (Units_mul A B) C) (Units_mul A (Units_mul B C)).
Proof.
  intros HA HB HC. split; intros s.
  - rewrite !exp_of_Units_mul by done. ring.
  - rewrite !exp_of_Units_mul by (done || by apply unique_symbols_Units_mul).
    ring.
Qed.

Lemma Units_mul_comm_assoc_witness :
  let A := Units_parse Std.env "m/s" in
  let B := Units_parse Std.env "s" in
  let C := Units_parse Std.env "g/mol" in
  unique_symbols A ∧ unique_symbols B ∧ unique_symbols C ∧
  base_units (Units_mul A C) ≠ base_units (Units_mul C A) ∧
  same_mapping (Units_mul A C) (Units_mul C A) ∧
  same_mapping (Units_mul (Units_mul A B) C) (Units_mul A (Units_mul B C)).
Proof.
  intros A B C.
  assert (HA : unique_symbols A) by (apply (bool_decide_unpack _); vm_compute; exact I).
  assert (HB : unique_symbols B) by (apply (bool_decide_unpack _); vm_compute; exact I).
  assert (HC : unique_symbols C) by (apply (bool_decide_unpack _); vm_compute; exact I).
  split; [exact HA|]. split; [exact HB|]. split; [exact HC|]. split.
  - apply (bool_decide_unpack _). vm_compute. exact I.
  - split.
    + exact (proj1 (Units_mul_comm_assoc A C B HA HC HB)).
    + exact (proj2 (Units_mul_comm_assoc A B C HA HB HC)).
Defined.

Lemma Units_div_self_unitless (A : Units) :
  unique_symbols A → is_unitless (Units_div A A) = true.
Proof.
  intros HA. unfold is_unitless. apply bool_decide_eq_true.
  apply length_zero_iff_nil.
  assert (HI : unique_symbols (Units_invert A))
    by by apply unique_symbols_Units_update_exp.
  apply zero_mapping_empty.
  - by apply unique_symbols_Units_mul.
  - unfold nonzero, Units_div.
    change (base_units (Units_mul A (Units_invert A)))
      with (mul_merged (base_units A) (base_units (Units_invert A)) ++
            filter (λ u, unit_in u (base_units A) = false)
              (base_units (Units_invert A))).
    apply Forall_app. split.
    + apply Forall_forall. intros c (u & _ & _ & _ & Hc)%mul_merged_elem. done.
    + apply Forall_forall. intros r [Hf Hr]%list_elem_of_filter. exfalso.
      simpl in Hr. apply list_elem_of_fmap in Hr as (u & -> & Hu).
      assert (Hin : unit_in (unit_update_exp u (-1)) (base_units A) = true).
      { apply unit_in_symbol. simpl. by apply list_elem_of_fmap_2. }
      congruence.
  - intros s. unfold Units_div.
    rewrite exp_of_Units_mul, exp_of_Units_invert by done. ring.
Qed.

(** X5.  A unit expression with at most one atomic unit per symbol divided
    by itself is unitless. *)
Theorem Units_div_self (A : Units) :
  unique_symbols A → is_unitless (Units_div A A) = true.
Proof. apply Units_div_self_unitless. Qed.

Lemma Units_div_self_witness :
  let A := Units_parse Std.env "g/mol" in
  unique_symbols A ∧ is_unitless (Units_div A A) = true.
Proof.
  intros A.
  assert (HA : unique_symbols A) by (apply (bool_decide_unpack _); vm_compute; exact I).
  split; [exact HA|]. exact (Units_div_self A HA).
Defined.

Lemma set_exp_id u : set_exp u (exp u) = u.
Proof. by destruct u. Qed.

(** X6.  [invert] is an involution, it negates the exponent of every
    symbol, and [update_exp(1)] returns an expression equal to the
    receiver. *)
Theorem Units_invert_involutive (A : Units) :
  Units_invert (Units_invert A) = A ∧
  Units_update_exp A 1 = A ∧
  ∀ s, exp_of (base_units (Units_invert A)) s = - exp_of (base_units A) s.
Proof.
  assert (Hid : ∀ k, k = 1 →
    map (λ u, unit_update_exp u k) (base_units A) = base_units A).
  { intros k ->. rewrite <- (list_fmap_id (base_units A)) at 2.
    apply list_fmap_ext. intros i u _.
    unfold unit_update_exp. rewrite Qcmult_1_r. apply set_exp_id. }
  split; [|split; [|apply exp_of_Units_invert]].
  - destruct A as [s l]. unfold Units_invert, Units_update_exp. simpl.
    f_equal. rewrite <- (list_fmap_id l) at 2.
    change (map ?f (map ?g l)) with (f <$> (g <$> l)).
    rewrite <- list_fmap_compose. apply list_fmap_ext. intros i u _. simpl.
    destruct u as [sy di ex ma]. unfold unit_update_exp, set_exp. simpl.
    f_equal. ring.
  - destruct A as [s l]. unfold Units_update_exp. simpl. f_equal.
    by apply (Hid 1).
Qed.

(** X7.  Multiplying a unit expression by an atomic unit gives what
    multiplying it by the expression of that one unit gives: the two
    branches of [Units.__mul__] agree. *)
Theorem Units_mul_base_singleton (A : Units) (u : BaseUnit) (s : string) :
  Units_mul_base A u = Units_mul A (mkUnits s [u]).
Proof.
  unfold Units_mul_base, Units_mul. simpl. f_equal. f_equal.
  - apply list_omap_ext. apply Forall2_same_length_lookup. split; [done|].
    intros i x y Hx Hy. assert (x = y) as -> by congruence.
    unfold first_same. rewrite filter_cons, filter_nil. unfold unit_eqb.
    destruct (decide (symbol y = symbol u)) as [Heq|Hne].
    + rewrite bool_decide_eq_true_2 by done.
      rewrite decide_True by (by rewrite bool_decide_eq_true_2). done.
    + rewrite bool_decide_eq_false_2 by done.
      rewrite decide_False; [done|].
      rewrite bool_decide_eq_false_2 by (by intros ?). done.
  - rewrite filter_cons, filter_nil.
    destruct (unit_in u (base_units A)); [by rewrite decide_False|].
    by rewrite decide_True.
Qed.

(** ** Dimensions *)

Lemma dimension_sums_step (m : gmap string Qc) u d :
  (let dims' :=
     match m !! dimension u with
     | None => <[dimension u := 0]> m
     | Some _ => m
     end in
   <[dimension u := default 0 (dims' !! dimension u) + exp u]> dims') !! d =
  if decide (dimension u = d) then Some (default 0 (m !! d) + exp u)
  else m !! d.
Proof.
  cbv zeta. destruct (decide (dimension u = d)) as [<-|Hne].
  - rewrite lookup_insert_eq. destruct (m !! dimension u) eqn:Hm; simpl.
    + by rewrite Hm.
    + by rewrite lookup_insert_eq.
  - rewrite lookup_insert_ne by done.
    destruct (m !! dimension u); [done|]. by rewrite lookup_insert_ne.
Qed.

Lemma dimension_sums_foldl l : ∀ (m : gmap string Qc) d,
  foldl (λ dims u,
    let dims' :=
      match dims !! dimension u with
      | None => <[dimension u := 0]> dims
      | Some _ => dims
      end in
    <[dimension u := default 0 (dims' !! dimension u) + exp u]> dims') m l !! d =
  match m !! d with
  | Some v => Some (v + dim_sum l d)
  | None => if decide (d ∈ dimension <$> l) then Some (dim_sum l d) else None
  end.
Proof.
  induction l as [|u l IH]; intros m d.
  - simpl. destruct (m !! d); [f_equal; ring|].
    done.
  - cbn [foldl]. rewrite IH. pose proof (dimension_sums_step m u d) as Hstep.
    cbv beta zeta in Hstep |- *. rewrite Hstep. simpl.
    destruct (decide (dimension u = d)) as [<-|Hne].
    + rewrite bool_decide_eq_true_2 by done.
      destruct (m !! dimension u); simpl; [f_equal; ring|].
      rewrite decide_True by (by apply elem_of_cons; left). f_equal; ring.
    + rewrite bool_decide_eq_false_2 by done.
      destruct (m !! d); [f_equal; ring|].
      destruct (decide (d ∈ dimension <$> l)) as [Hin|Hout].
      * rewrite decide_True by (by apply elem_of_cons; right). f_equal; ring.
      * rewrite decide_False; [done|].
        intros [?|?]%elem_of_cons; [congruence|done].
Qed.

Lemma dimension_sums_lookup l d :
  dimension_sums l !! d =
    if decide (d ∈ dimension <$> l) then Some (dim_sum l d) else None.
Proof.
  unfold dimension_sums. rewrite dimension_sums_foldl.
  by rewrite lookup_empty.
Qed.

Lemma dim_sum_absent l d : d ∉ dimension <$> l → dim_sum l d = 0.
Proof.
  induction l as [|u l IH]; intros H; [done|]. simpl.
  rewrite bool_decide_eq_false_2.
  - rewrite IH; [ring|]. intros Hin. apply H. by apply elem_of_cons; right.
  - intros Heq. apply H. rewrite <- Heq. by apply elem_of_cons; left.
Qed.

Lemma can_convert_iff U :
  can_convert U = true ↔ ∀ d, dim_sum (base_units U) d = 0.
Proof.
  unfold can_convert. rewrite bool_decide_eq_true. split.
  - intros H d. destruct (decide (d ∈ dimension <$> base_units U)) as [Hin|Hout].
    + apply (H d). by rewrite dimension_sums_lookup, decide_True.
    + by apply dim_sum_absent.
  - intros H d v. rewrite dimension_sums_lookup.
    destruct (decide _); [|done]. intros [= <-]. apply H.
Qed.

(** X8.  [can_convert] holds exactly when the exponents of every dimension
    sum to zero over the atomic units of the expression. *)
Theorem can_convert_dim_sum (U : Units) :
  can_convert U = true ↔ ∀ d, dim_sum (base_units U) d = 0.
Proof. apply can_convert_iff. Qed.

Lemma dim_sum_app l1 l2 d : dim_sum (l1 ++ l2) d = dim_sum l1 d + dim_sum l2 d.
Proof. induction l1 as [|u l1 IH]; simpl; [ring|]. rewrite IH. ring. Qed.

Lemma dim_sum_rev l d : dim_sum (rev l) d = dim_sum l d.
Proof.
  induction l as [|u l IH]; simpl; [done|].
  rewrite dim_sum_app, IH. simpl. ring.
Qed.

Lemma dim_sum_prune_zero l d : dim_sum (prune_zero l) d = dim_sum l d.
Proof.
  unfold prune_zero. induction l as [|u l IH]; [done|].
  rewrite filter_cons. destruct (decide (exp u ≠ 0)) as [Hu|Hu]; simpl;
    rewrite IH; [done|].
  apply dec_stable in Hu. rewrite Hu. case_bool_decide; ring.
Qed.

Lemma consistent_spec l :
  consistent l ↔
  ∀ u r, u ∈ l → r ∈ l → symbol u = symbol r → dimension u = dimension r.
Proof.
  unfold consistent. rewrite Forall_forall. split.
  - intros H u r Hu Hr. specialize (H u Hu). rewrite Forall_forall in H.
    by apply H.
  - intros H u Hu. apply Forall_forall. intros r Hr. by apply H.
Qed.

(** [l'] brings no pair of a symbol and a dimension that [l] does not
    have. *)
Lemma consistent_pairs l l' :
  consistent l →
  (∀ x, x ∈ l' → ∃ y, y ∈ l ∧ symbol x = symbol y ∧ dimension x = dimension y) →
  consistent l'.
Proof.
  rewrite !consistent_spec. intros H Hp u r Hu Hr Hs.
  destruct (Hp u Hu) as (u0 & Hu0 & Hsu & Hdu).
  destruct (Hp r Hr) as (r0 & Hr0 & Hsr & Hdr).
  rewrite Hdu, Hdr. apply H; [done|done|congruence].
Qed.

Lemma consistent_sublist l l' : consistent l → sublist l' l → consistent l'.
Proof.
  intros H Hsub. apply (consistent_pairs l); [done|].
  intros x Hx. exists x. split; [by eapply elem_of_sublist|done].
Qed.

Lemma dim_sum_unit_times u r d :
  (symbol u = symbol r → dimension u = dimension r) →
  dim_sum (base_units (unit_times u r)) d = dim_sum [u; r] d.
Proof.
  intros Hc. unfold unit_times, Units_mul_base, unit_in, unit_eqb. simpl.
  destruct (decide (symbol u = symbol r)) as [Hs|Hs].
  - rewrite bool_decide_eq_true_2 by done.
    rewrite (bool_decide_eq_true_2 (symbol r = symbol u)) by done. simpl.
    rewrite <- (Hc Hs). unfold unit_mul.
    destruct (decide (exp u + exp r = 0)) as [Hz|Hz].
    + rewrite bool_decide_eq_true_2 by done. simpl.
      case_bool_decide; [|ring]. rewrite Qcplus_0_r. by rewrite Hz.
    + rewrite bool_decide_eq_false_2 by done. simpl.
      case_bool_decide; ring.
  - rewrite bool_decide_eq_false_2 by done.
    rewrite (bool_decide_eq_false_2 (symbol r = symbol u)) by (by intros ?).
    simpl. unfold unit_truthy.
    destruct (decide (exp u = 0)) as [Hz|Hz].
    + rewrite bool_decide_eq_true_2 by done. simpl. rewrite Hz.
      destruct (bool_decide (dimension u = d)); ring.
    + rewrite bool_decide_eq_false_2 by done. simpl. ring.
Qed.

Lemma can_convert_unit_times u r :
  (symbol u = symbol r → dimension u = dimension r) →
  can_convert (unit_times u r) = true → ∀ d, dim_sum [u; r] d = 0.
Proof.
  intros Hc H d. rewrite <- dim_sum_unit_times by done.
  by apply can_convert_iff.
Qed.

Lemma simplify_scan_dim remaining : ∀ u canceled u' remaining',
  simplify_scan u remaining = (canceled, u', remaining') →
  (∀ r, r ∈ remaining → symbol u = symbol r → dimension u = dimension r) →
  symbol u' = symbol u ∧ dimension u' = dimension u ∧
  sublist remaining' remaining ∧
  ∀ d, dim_sum ((if canceled then [] else [u']) ++ remaining') d =
       dim_sum (u :: remaining) d.
Proof.
  induction remaining as [|r rest IH]; intros u canceled u' remaining' H Hc;
    simpl in H.
  { injection H as <- <- <-. done. }
  assert (Hr : symbol u = symbol r → dimension u = dimension r).
  { apply Hc. by apply elem_of_cons; left. }
  assert (Hrest : ∀ x, x ∈ rest → symbol u = symbol x → dimension u = dimension x).
  { intros x Hx. apply Hc. by apply elem_of_cons; right. }
  destruct (can_convert (unit_times u r)) eqn:Ht.
  { injection H as <- <- <-. repeat split; [by apply sublist_cons|].
    intros d. pose proof (can_convert_unit_times u r Hr Ht d) as Hz.
    simpl in *. rewrite Qcplus_0_r in Hz. rewrite Qcplus_assoc, Hz. ring. }
  destruct (can_convert (unit_over u r)) eqn:Ho.
  { apply IH in H as (H1 & H2 & H3 & H4); [|exact Hrest].
    repeat split; [done|done|by apply sublist_cons|].
    intros d. rewrite H4. simpl.
    pose proof (can_convert_unit_times u (unit_update_exp r (-1)) Hr Ho) as Hz.
    simpl in Hz.
    destruct (decide (dimension u = dimension r)) as [Hd|Hd].
    - rewrite <- Hd. case_bool_decide; ring.
    - specialize (Hz (dimension r)).
      rewrite bool_decide_eq_false_2, bool_decide_eq_true_2 in Hz by done.
      assert (He : exp r = 0).
      { transitivity (- (0 + (exp r * -1 + 0))); [ring|]. rewrite Hz. ring. }
      rewrite He. case_bool_decide; case_bool_decide; ring. }
  destruct (simplify_scan u rest) as [[c0 u0] rest0] eqn:Hs.
  injection H as <- <- <-. apply IH in Hs as (H1 & H2 & H3 & H4); [|exact Hrest].
  repeat split; [done|done|by apply sublist_skip|].
  intros d. specialize (H4 d). rewrite dim_sum_app in *. simpl in *.
  set (x := if bool_decide (dimension r = d) then exp r else 0).
  transitivity (x + (dim_sum (if c0 then [] else [u0]) d + dim_sum rest0 d));
    [ring|].
  rewrite H4. ring.
Qed.

Lemma simplify_loop_dim fuel : ∀ remaining keep,
  (length remaining ≤ fuel)%nat → consistent remaining →
  (∀ x, x ∈ simplify_loop fuel remaining keep →
     ∃ y, y ∈ keep ++ remaining ∧ symbol x = symbol y ∧
          dimension x = dimension y) ∧
  ∀ d, dim_sum (simplify_loop fuel remaining keep) d =
       dim_sum keep d + dim_sum remaining d.
Proof.
  induction fuel as [|fuel IH]; intros [|u rest] keep Hlen Hc;
    simpl in Hlen; try lia.
  1,2: split; [intros x Hx; exists x; by rewrite app_nil_r
              |intros d; simpl; ring].
  simpl. destruct (simplify_scan u rest) as [[canceled u'] rest'] eqn:Hs.
  pose proof (simplify_scan_length _ _ _ _ _ Hs) as Hl.
  apply simplify_scan_dim in Hs as (H1 & H2 & H3 & H4).
  2:{ intros r Hr. apply (proj1 (consistent_spec _) Hc).
      - by apply elem_of_cons; left.
      - by apply elem_of_cons; right. }
  assert (Hc' : consistent rest').
  { eapply consistent_sublist; [exact Hc|]. by apply sublist_cons. }
  destruct (IH rest' (if canceled then keep else keep ++ [u'])) as [Hp Hd];
    [lia|done|].
  split.
  - intros x Hx. destruct (Hp x Hx) as (y & Hy & Hxy).
    apply elem_of_app in Hy as [Hy|Hy].
    + destruct canceled.
      * exists y. split; [|done]. apply elem_of_app. by left.
      * apply elem_of_app in Hy as [Hy|Hy].
        { exists y. split; [|done]. apply elem_of_app. by left. }
        apply list_elem_of_singleton in Hy as ->.
        destruct Hxy as [Hx1 Hx2]. exists u. split; [|split; congruence].
        apply elem_of_app. right. by apply elem_of_cons; left.
    + exists y. split; [|done]. apply elem_of_app. right.
      apply elem_of_cons. right. by eapply elem_of_sublist.
  - intros d. rewrite Hd. specialize (H4 d). rewrite dim_sum_app in H4.
    transitivity (dim_sum keep d +
      (dim_sum (if canceled then [] else [u']) d + dim_sum rest' d)).
    + destruct canceled; [simpl; ring|]. rewrite dim_sum_app. ring.
    + rewrite H4. done.
Qed.

Lemma combine_scan_dim remaining : ∀ current c remaining',
  combine_scan current remaining = (c, remaining') →
  (∀ r, r ∈ remaining → symbol current = symbol r →
        dimension current = dimension r) →
  ∀ d, dim_sum (current :: remaining) d =
       dim_sum (option_list c) d + dim_sum remaining' d.
Proof.
  induction remaining as [|r rest IH]; intros current c remaining' H Hc d;
    simpl in H.
  { injection H as <- <-. simpl. ring. }
  assert (Hrest : ∀ x, x ∈ rest → symbol current = symbol x →
                       dimension current = dimension x).
  { intros x Hx. apply Hc. by apply elem_of_cons; right. }
  destruct (unit_eqb current r) eqn:Heq.
  - apply bool_decide_eq_true in Heq.
    assert (Hd : dimension current = dimension r).
    { apply Hc; [by apply elem_of_cons; left|done]. }
    unfold unit_mul in H. case_bool_decide as Hz.
    + injection H as <- <-. simpl. rewrite <- Hd.
      case_bool_decide; [|ring]. rewrite Qcplus_assoc, Hz. ring.
    + eapply IH in H; [|exact Hrest]. rewrite <- H. simpl. rewrite <- Hd.
      case_bool_decide; ring.
  - destruct (combine_scan current rest) as [c0 rest0] eqn:Hs.
    injection H as <- <-. eapply IH in Hs; [|exact Hrest]. simpl in *.
    set (x := if bool_decide (dimension r = d) then exp r else 0).
    transitivity (x + ((if bool_decide (dimension current = d)
                        then exp current else 0) + dim_sum rest d)); [ring|].
    rewrite Hs. ring.
Qed.

Lemma consistent_snoc_elim l u r :
  consistent (l ++ [u]) → r ∈ l → symbol u = symbol r →
  dimension u = dimension r.
Proof.
  intros H Hr. apply (proj1 (consistent_spec _) H).
  - apply elem_of_app. right. by apply list_elem_of_singleton.
  - apply elem_of_app. by left.
Qed.

Lemma combine_loop_dim fuel : ∀ remaining combined d,
  (length remaining ≤ fuel)%nat → consistent remaining →
  dim_sum (combine_loop fuel remaining combined) d =
    dim_sum combined d + dim_sum remaining d.
Proof.
  induction fuel as [|fuel IH]; intros remaining combined d Hlen Hc.
  - destruct remaining; [simpl; ring|simpl in Hlen; lia].
  - simpl. destruct (rev remaining) as [|current rev_rest] eqn:Hrev.
    + apply (f_equal (@rev _)) in Hrev. rewrite rev_involutive in Hrev.
      subst. simpl. ring.
    + apply (f_equal (@rev _)) in Hrev. rewrite rev_involutive in Hrev.
      simpl in Hrev. subst remaining.
      destruct (combine_scan current (rev rev_rest)) as [c remaining'] eqn:Hs.
      pose proof (combine_scan_spec _ _ _ _ Hs) as [Hsub _].
      pose proof (combine_scan_exp _ _ _ _ Hs) as [_ Hl].
      eapply combine_scan_dim in Hs.
      2:{ intros r Hr. by apply (consistent_snoc_elim (rev rev_rest)). }
      rewrite length_app in Hlen. simpl in Hlen.
      rewrite IH.
      2: lia.
      2:{ eapply consistent_sublist; [exact Hc|].
          apply sublist_inserts_r. exact Hsub. }
      rewrite dim_sum_app. simpl in Hs. simpl.
      assert (Hcomb : dim_sum
        match c with
        | Some c' => if unit_truthy c' then combined ++ [c'] else combined
        | None => combined
        end d = dim_sum combined d + dim_sum (option_list c) d).
      { destruct c as [c'|]; simpl; [|ring].
        destruct (unit_truthy c') eqn:Ht.
        - rewrite dim_sum_app. done.
        - apply negb_false_iff, bool_decide_eq_true in Ht. rewrite Ht.
          destruct (bool_decide (dimension c' = d)); ring. }
      rewrite Hcomb.
      transitivity (dim_sum combined d +
        (dim_sum (option_list c) d + dim_sum remaining' d)); [ring|].
      rewrite <- Hs. ring.
Qed.

Lemma dim_sum_Units_of_list s l d :
  consistent l → dim_sum (base_units (Units_of_list s l)) d = dim_sum l d.
Proof.
  intros Hc. simpl. rewrite dim_sum_prune_zero. unfold _combine_unit_list.
  rewrite combine_loop_dim by done. simpl. ring.
Qed.

Lemma dim_sum_simplify A d :
  consistent (base_units A) →
  dim_sum (base_units (simplify A)) d = dim_sum (base_units A) d.
Proof.
  intros Hc. unfold simplify.
  destruct (simplify_loop_dim (length (base_units A)) (base_units A) [])
    as [Hp Hd]; [done|done|].
  rewrite dim_sum_Units_of_list.
  - rewrite Hd. simpl. ring.
  - by eapply consistent_pairs.
Qed.

(** X9.  When units of one symbol have one dimension, the constructor keeps
    the sum of the exponents of every dimension, and with it the answer of
    [can_convert]. *)
Theorem Units_of_list_keeps_dimension (s : string) (l : list BaseUnit) :
  consistent l →
  (∀ d, dim_sum (base_units (Units_of_list s l)) d = dim_sum l d) ∧
  can_convert (Units_of_list s l) = can_convert (mkUnits s l).
Proof.
  intros Hc.
  assert (Hd : ∀ d, dim_sum (base_units (Units_of_list s l)) d = dim_sum l d).
  { intros d. by apply dim_sum_Units_of_list. }
  split; [done|].
  destruct (can_convert (mkUnits s l)) eqn:Hl.
  - apply can_convert_iff. intros d. rewrite Hd.
    by apply (proj1 (can_convert_iff (mkUnits s l))).
  - destruct (can_convert (Units_of_list s l)) eqn:Hn; [|done].
    rewrite <- Hl. symmetry. apply can_convert_iff. intros d. simpl.
    rewrite <- Hd. by apply can_convert_iff.
Qed.

Lemma Units_of_list_keeps_dimension_witness :
  let l := [Std.unit "m" 1; Std.unit "s" (-1); Std.unit "ft" (-1);
            Std.unit "s" 1] in
  consistent l ∧
  dim_sum (base_units (Units_of_list "" l)) "length" = dim_sum l "length" ∧
  can_convert (Units_of_list "" l) = true.
Proof.
  intros l.
  assert (H : consistent l) by (apply (bool_decide_unpack _); vm_compute; exact I).
  split; [exact H|].
  destruct (Units_of_list_keeps_dimension "" l H) as [Hd Hc].
  split; [apply Hd|]. rewrite Hc.
  apply (bool_decide_unpack _). vm_compute. exact I.
Defined.

(** X10.  When units of one symbol have one dimension, [simplify] keeps the
    sum of the exponents of every dimension, and with it the answer of
    [can_convert]. *)
Theorem simplify_keeps_dimension (A : Units) :
  consistent (base_units A) →
  (∀ d, dim_sum (base_units (simplify A)) d = dim_sum (base_units A) d) ∧
  can_convert (simplify A) = can_convert A.
Proof.
  intros Hc.
  assert (Hd : ∀ d, dim_sum (base_units (simplify A)) d =
                    dim_sum (base_units A) d).
  { intros d. by apply dim_sum_simplify. }
  split; [done|].
  destruct (can_convert A) eqn:Hl.
  - apply can_convert_iff. intros d. rewrite Hd. by apply can_convert_iff.
  - destruct (can_convert (simplify A)) eqn:Hn; [|done].
    rewrite <- Hl. symmetry. apply can_convert_iff. intros d.
    rewrite <- Hd. by apply can_convert_iff.
Qed.

Lemma simplify_keeps_dimension_witness :
  let A := mkUnits "" [Std.unit "ft" 1; Std.unit "s" 1; Std.unit "m" (-1)] in
  consistent (base_units A) ∧
  dim_sum (base_units (simplify A)) "time" = dim_sum (base_units A) "time" ∧
  can_convert (simplify A) = can_convert A.
Proof.
  intros A.
  assert (H : consistent (base_units A))
    by (apply (bool_decide_unpack _); vm_compute; exact I).
  split; [exact H|].
  destruct (simplify_keeps_dimension A H) as [Hd Hc].
  split; [apply Hd|exact Hc].
Defined.

(** ** Dimensions of products and ratios *)

Lemma fresh_nil (B : list BaseUnit) :
  filter (λ r, unit_in r [] = false) B = B.
Proof.
  induction B as [|r B IH]; [done|].
  rewrite filter_cons, decide_True by done. by rewrite IH.
Qed.

Lemma fresh_cons u A (B : list BaseUnit) :
  filter (λ r, unit_in r (u :: A) = false) B =
  filter (λ r, symbol r ≠ symbol u) (filter (λ r, unit_in r A = false) B).
Proof.
  rewrite list_filter_filter. apply list_filter_iff. intros r.
  unfold unit_in. simpl. rewrite orb_false_iff. unfold unit_eqb at 1.
  by rewrite bool_decide_eq_false.
Qed.

Lemma dim_sum_split l u d :
  (∀ r, r ∈ l → symbol r = symbol u → dimension r = dimension u) →
  dim_sum l d =
    dim_sum (filter (λ r, symbol r ≠ symbol u) l) d +
    (if bool_decide (dimension u = d) then exp_of l (symbol u) else 0).
Proof.
  induction l as [|r l IH]; intros Hc.
  { simpl. case_bool_decide; ring. }
  rewrite filter_cons. simpl. rewrite IH.
  2:{ intros x Hx. apply Hc. by apply elem_of_cons; right. }
  destruct (decide (symbol r = symbol u)) as [Hs|Hs].
  - rewrite decide_False by (by intros Hn).
    rewrite (bool_decide_eq_true_2 (symbol r = symbol u)) by done.
    rewrite (Hc r) by (done || (by apply elem_of_cons; left)).
    case_bool_decide; ring.
  - rewrite decide_True by done.
    rewrite (bool_decide_eq_false_2 (symbol r = symbol u)) by done.
    simpl. case_bool_decide; case_bool_decide; ring.
Qed.

Lemma dim_sum_mul_unit B u d :
  NoDup (symbol <$> B) →
  dim_sum (option_list (mul_unit B u)) d =
    if bool_decide (dimension u = d) then exp u + exp_of B (symbol u) else 0.
Proof.
  intros HB. unfold mul_unit.
  destruct (first_same u B) as [same|] eqn:Hf.
  - apply first_same_Some in Hf as [Hin Hsym].
    rewrite <- Hsym, (exp_of_present _ same HB Hin).
    unfold unit_mul. case_bool_decide as Hz; simpl.
    + rewrite Hz. by case_bool_decide.
    + case_bool_decide; ring.
  - rewrite (exp_of_absent B).
    2:{ intros x Hx. by eapply first_same_None. }
    destruct (unit_truthy u) eqn:Ht; simpl.
    + case_bool_decide; ring.
    + apply negb_false_iff, bool_decide_eq_true in Ht. rewrite Ht.
      case_bool_decide; ring.
Qed.

Lemma dim_sum_mul A : ∀ B d,
  NoDup (symbol <$> A) → NoDup (symbol <$> B) →
  (∀ u r, u ∈ A → r ∈ B → symbol r = symbol u → dimension r = dimension u) →
  dim_sum (mul_merged A B) d +
    dim_sum (filter (λ r, unit_in r A = false) B) d =
  dim_sum A d + dim_sum B d.
Proof.
  induction A as [|u A IH]; intros B d HA HB Hc.
  { rewrite fresh_nil. done. }
  rewrite fmap_cons in HA. apply NoDup_cons in HA as [Hu HA].
  rewrite mul_merged_cons, dim_sum_app, dim_sum_mul_unit, fresh_cons by done.
  assert (IH' := IH B d HA HB
    (λ x r Hx, Hc x r (proj2 (elem_of_cons _ _ _) (or_intror Hx)))).
  rewrite (dim_sum_split (filter (λ r, unit_in r A = false) B) u d) in IH'.
  2:{ intros r [_ Hr]%list_elem_of_filter. apply Hc; [|done].
      by apply elem_of_cons; left. }
  rewrite exp_of_fresh, decide_False in IH' by done.
  simpl. set (f := dim_sum (filter _ (filter _ B)) d) in *.
  set (a := dim_sum (mul_merged A B) d) in *.
  destruct (bool_decide (dimension u = d)).
  - transitivity (exp u + (a + (f + exp_of B (symbol u)))); [ring|].
    rewrite IH'. ring.
  - transitivity (a + (f + 0)); [ring|]. rewrite IH'. ring.
Qed.

Lemma dim_sum_Units_mul A B d :
  unique_symbols A → unique_symbols B →
  consistent (base_units A ++ base_units B) →
  dim_sum (base_units (Units_mul A B)) d =
    dim_sum (base_units A) d + dim_sum (base_units B) d.
Proof.
  intros HA HB Hc.
  change (base_units (Units_mul A B))
    with (mul_merged (base_units A) (base_units B) ++
          filter (λ u, unit_in u (base_units A) = false) (base_units B)).
  rewrite dim_sum_app. apply dim_sum_mul; [done|done|].
  intros u r Hu Hr Hs. apply (proj1 (consistent_spec _) Hc); [| |done].
  - apply elem_of_app. by right.
  - apply elem_of_app. by left.
Qed.

Lemma dim_sum_Units_invert A d :
  dim_sum (base_units (Units_invert A)) d = - dim_sum (base_units A) d.
Proof.
  simpl. induction (base_units A) as [|u l IH]; simpl; [ring|].
  rewrite IH. case_bool_decide; ring.
Qed.

Lemma consistent_invert_r T S :
  consistent (base_units T ++ base_units S) →
  consistent (base_units T ++ base_units (Units_invert S)).
Proof.
  intros Hc. eapply consistent_pairs; [exact Hc|].
  intros x [Hx|Hx]%elem_of_app.
  - exists x. split; [|done]. apply elem_of_app. by left.
  - simpl in Hx. apply list_elem_of_fmap in Hx as (y & -> & Hy).
    exists y. split; [|done]. apply elem_of_app. by right.
Qed.

Lemma dim_sum_Units_div T S d :
  unique_symbols T → unique_symbols S →
  consistent (base_units T ++ base_units S) →
  dim_sum (base_units (Units_div T S)) d =
    dim_sum (base_units T) d - dim_sum (base_units S) d.
Proof.
  intros HT HS Hc. unfold Units_div.
  rewrite dim_sum_Units_mul, dim_sum_Units_invert.
  - ring.
  - done.
  - by apply unique_symbols_Units_update_exp.
  - by apply consistent_invert_r.
Qed.

(** X11.  For source and target with at most one atomic unit per symbol,
    where units of one symbol have one dimension, the ratio target/source
    is convertible exactly when both give every dimension the same sum of
    exponents. *)
Theorem can_convert_ratio (T S : Units) :
  unique_symbols T → unique_symbols S →
  consistent (base_units T ++ base_units S) →
  can_convert (Units_div T S) = true ↔
  ∀ d, dim_sum (base_units T) d = dim_sum (base_units S) d.
Proof.
  intros HT HS Hc. rewrite can_convert_iff. split; intros H d.
  - specialize (H d). rewrite dim_sum_Units_div in H by done.
    transitivity (dim_sum (base_units T) d - dim_sum (base_units S) d +
                  dim_sum (base_units S) d); [ring|]. rewrite H. ring.
  - rewrite dim_sum_Units_div by done. rewrite H. ring.
Qed.

Lemma can_convert_ratio_witness :
  let T := mkUnits "" [Std.unit "ft" 1; Std.unit "s" (-1)] in
  let S := Units_parse Std.env "m/s" in
  unique_symbols T ∧ unique_symbols S ∧
  consistent (base_units T ++ base_units S) ∧
  (can_convert (Units_div T S) = true ↔
   ∀ d, dim_sum (base_units T) d = dim_sum (base_units S) d).
Proof.
  intros T S.
  assert (HT : unique_symbols T) by (apply (bool_decide_unpack _); vm_compute; exact I).
  assert (HS : unique_symbols S) by (apply (bool_decide_unpack _); vm_compute; exact I).
  assert (Hc : consistent (base_units T ++ base_units S))
    by (apply (bool_decide_unpack _); vm_compute; exact I).
  split; [exact HT|]. split; [exact HS|]. split; [exact Hc|].
  exact (can_convert_ratio T S HT HS Hc).
Defined.

(** ** What the constructor and [simplify] return *)

Lemma combine_scan_pair remaining : ∀ current c' remaining',
  combine_scan current remaining = (Some c', remaining') →
  symbol c' = symbol current ∧ dimension c' = dimension current.
Proof.
  induction remaining as [|r rest IH]; intros current c' remaining' H;
    simpl in H.
  - by injection H as <- <-.
  - destruct (unit_eqb current r).
    + unfold unit_mul in H. case_bool_decide; [done|].
      apply IH in H. done.
    + destruct (combine_scan current rest) as [c0 rest0] eqn:Hs.
      injection H as -> <-. by eapply IH.
Qed.

Lemma combine_loop_pairs fuel : ∀ remaining combined x,
  x ∈ combine_loop fuel remaining combined →
  ∃ y, y ∈ combined ++ remaining ∧ symbol x = symbol y ∧
       dimension x = dimension y.
Proof.
  induction fuel as [|fuel IH]; intros remaining combined x Hx.
  { exists x. split; [|done]. apply elem_of_app. by left. }
  simpl in Hx. destruct (rev remaining) as [|current rev_rest] eqn:Hrev.
  { exists x. split; [|done]. apply elem_of_app. by left. }
  apply (f_equal (@rev _)) in Hrev. rewrite rev_involutive in Hrev.
  simpl in Hrev. subst remaining.
  destruct (combine_scan current (rev rev_rest)) as [c remaining'] eqn:Hs.
  pose proof (combine_scan_spec _ _ _ _ Hs) as [Hsub _].
  apply IH in Hx as (y & Hy & Hxy).
  assert (Hrem : ∀ z, z ∈ remaining' →
            z ∈ combined ++ rev rev_rest ++ [current]).
  { intros z Hz. apply elem_of_app. right. apply elem_of_app. left.
    by eapply elem_of_sublist. }
  assert (Hold : ∀ z, z ∈ combined →
            z ∈ combined ++ rev rev_rest ++ [current]).
  { intros z Hz. apply elem_of_app. by left. }
  apply elem_of_app in Hy as [Hy|Hy]; [|exists y; split; [by apply Hrem|done]].
  destruct c as [c'|]; [|exists y; split; [by apply Hold|done]].
  destruct (unit_truthy c'); [|exists y; split; [by apply Hold|done]].
  apply elem_of_app in Hy as [Hy|Hy]; [exists y; split; [by apply Hold|done]|].
  apply list_elem_of_singleton in Hy as ->.
  apply combine_scan_pair in Hs as [Hs1 Hs2]. destruct Hxy as [Hx1 Hx2].
  exists current. split; [|split; congruence].
  apply elem_of_app. right. apply elem_of_app. right.
  by apply list_elem_of_singleton.
Qed.

Lemma Units_of_list_pairs s l x :
  x ∈ base_units (Units_of_list s l) →
  ∃ y, y ∈ l ∧ symbol x = symbol y ∧ dimension x = dimension y.
Proof.
  simpl. intros [_ Hx]%list_elem_of_filter.
  by apply combine_loop_pairs in Hx.
Qed.

Lemma Units_of_list_unique_symbols s l : unique_symbols (Units_of_list s l).
Proof.
  unfold unique_symbols. simpl.
  destruct (combine_loop_unique (length l) l []) as [H1 _].
  - constructor.
  - constructor.
  - intros x r Hx. by apply elem_of_nil in Hx.
  - eapply sublist_NoDup; [exact H1|].
    apply sublist_fmap_symbol, sublist_filter.
Qed.

Lemma simplify_scan_pair remaining : ∀ u canceled u' remaining',
  simplify_scan u remaining = (canceled, u', remaining') →
  symbol u' = symbol u ∧ dimension u' = dimension u ∧
  sublist remaining' remaining.
Proof.
  induction remaining as [|r rest IH]; intros u canceled u' remaining' H;
    simpl in H.
  { by injection H as <- <- <-. }
  destruct (can_convert (unit_times u r)).
  { injection H as <- <- <-. repeat split. by apply sublist_cons. }
  destruct (can_convert (unit_over u r)).
  { apply IH in H as (H1 & H2 & H3). repeat split; [done|done|].
    by apply sublist_cons. }
  destruct (simplify_scan u rest) as [[c0 u0] rest0] eqn:Hs.
  injection H as <- <- <-. apply IH in Hs as (H1 & H2 & H3).
  repeat split; [done|done|]. by apply sublist_skip.
Qed.

Lemma simplify_loop_pairs fuel : ∀ remaining keep x,
  x ∈ simplify_loop fuel remaining keep →
  ∃ y, y ∈ keep ++ remaining ∧ symbol x = symbol y ∧
       dimension x = dimension y.
Proof.
  induction fuel as [|fuel IH]; intros [|u rest] keep x Hx; simpl in Hx.
  1,2,3: exists x; split; [apply elem_of_app; by left|done].
  destruct (simplify_scan u rest) as [[canceled u'] rest'] eqn:Hs.
  apply simplify_scan_pair in Hs as (H1 & H2 & H3).
  apply IH in Hx as (y & Hy & Hx1 & Hx2).
  assert (Hold : ∀ z, z ∈ keep → z ∈ keep ++ u :: rest).
  { intros z Hz. apply elem_of_app. by left. }
  apply elem_of_app in Hy as [Hy|Hy].
  - destruct canceled; [exists y; split; [by apply Hold|done]|].
    apply elem_of_app in Hy as [Hy|Hy]; [exists y; split; [by apply Hold|done]|].
    apply list_elem_of_singleton in Hy as ->.
    exists u. split; [|split; congruence].
    apply elem_of_app. right. by apply elem_of_cons; left.
  - exists y. split; [|done]. apply elem_of_app. right.
    apply elem_of_cons. right. by eapply elem_of_sublist.
Qed.

Lemma simplify_pairs A x :
  x ∈ base_units (simplify A) →
  ∃ y, y ∈ base_units A ∧ symbol x = symbol y ∧ dimension x = dimension y.
Proof.
  unfold simplify. intros (y & Hy & Hxy1 & Hxy2)%Units_of_list_pairs.
  apply simplify_loop_pairs in Hy as (z & Hz & Hz1 & Hz2).
  exists z. split; [done|split; congruence].
Qed.

Lemma consistent_simplify_ratio A :
  consistent (base_units A) →
  consistent (base_units (simplify A) ++ base_units A).
Proof.
  intros Hc. eapply consistent_pairs; [exact Hc|].
  intros x [Hx|Hx]%elem_of_app; [by apply simplify_pairs|].
  by exists x.
Qed.

Lemma can_convert_simplify_ratio A :
  unique_symbols A → consistent (base_units A) →
  can_convert (Units_div (simplify A) A) = true.
Proof.
  intros Hu Hc. apply can_convert_iff. intros d.
  rewrite dim_sum_Units_div.
  - rewrite dim_sum_simplify by done. ring.
  - apply Units_of_list_unique_symbols.
  - done.
  - by apply consistent_simplify_ratio.
Qed.

(** X12.  [simplify] returns an expression with at most one atomic unit per
    symbol and none of exponent 0, and every unit it returns has the symbol
    and the dimension of a unit of the receiver. *)
Theorem simplify_normal (A : Units) :
  unique_symbols (simplify A) ∧ nonzero (simplify A) ∧
  ∀ x, x ∈ base_units (simplify A) →
    ∃ y, y ∈ base_units A ∧ symbol x = symbol y ∧ dimension x = dimension y.
Proof.
  split; [apply Units_of_list_unique_symbols|].
  split; [apply simplify_nonzero|]. intros x. apply simplify_pairs.
Qed.

(** X13.  [expand_all] returns an expression with at most one atomic unit
    per symbol and none of exponent 0, whatever the expansions of the
    atomic units are; on the empty expression it returns the empty
    expression and the modifier 1. *)
Theorem expand_all_normal (E : Env) (A : Units) :
  unique_symbols (expand_all E A).1 ∧ nonzero (expand_all E A).1 ∧
  (base_units A = [] → expand_all E A = (Units_empty, 1)).
Proof.
  split; [|split].
  - unfold expand_all. destruct (foldl _ _ _).
    apply Units_of_list_unique_symbols.
  - apply expand_all_nonzero.
  - intros H. unfold expand_all. rewrite H. done.
Qed.

(** ** [simplify_units] after [simplify] has written to the receiver *)

Lemma Units_of_list_rev s l :
  NoDup (symbol <$> l) → base_units (Units_of_list s l) = rev (prune_zero l).
Proof.
  intros Hnd. simpl. unfold _combine_unit_list.
  rewrite combine_loop_rev by done. simpl.
  apply prune_zero_id, Forall_rev_nonzero, prune_zero_nonzero.
Qed.

Lemma Qc_double_nonzero (e : Qc) : e ≠ 0 → e + e ≠ 0.
Proof.
  intros He H. apply He.
  assert (H2 : (1 + 1) * e = 0) by (rewrite <- H; ring).
  apply Qcmult_integral in H2 as [H2|H2]; [|done].
  exfalso. revert H2. apply (bool_decide_unpack _). vm_compute. exact I.
Qed.

Lemma convert_units_not_convertible E q T :
  is_temperature_conversion E (units q) T = false →
  can_convert (Units_div T (units q)) = false →
  ∃ msg, convert_units E q T None = Raise (Exception msg).
Proof.
  intros Ht Hc.
  destruct (convert_units_bridge_contract E q T None Ht Hc) as [H1 H2].
  destruct (can_convert (Units_mul (Units_div T (units q))
              (Units_parse E "g/mol"))) eqn:Hm.
  { destruct H1 as [H1 _]; [by left|]. exists needs_mw_message. by apply H1. }
  destruct (can_convert (Units_div (Units_div T (units q))
              (Units_parse E "g/mol"))) eqn:Hd.
  { destruct H1 as [H1 _]; [by right|]. exists needs_mw_message. by apply H1. }
  eexists. by apply H2.
Qed.

Section SimplifyUnits.
Context (E : Env) (h : gmap nat BaseUnit) (a b : nat) (u r : BaseUnit).
Hypothesis (Ha : h !! a = Some u) (Hb : h !! b = Some r) (Hab : a ≠ b).
Hypothesis (Hsym : symbol u ≠ symbol r) (Hdim : dimension u = dimension r).
Hypothesis (Hexp : exp u = exp r) (Hnz : exp u ≠ 0).

Lemma like_units_not_times : can_convert (unit_times u r) = false.
Proof.
  destruct (can_convert (unit_times u r)) eqn:Ht; [|done]. exfalso.
  pose proof (can_convert_unit_times u r (λ _, Hdim) Ht (dimension u)) as Hz.
  simpl in Hz. rewrite <- Hdim, bool_decide_eq_true_2 in Hz by done.
  rewrite <- Hexp, Qcplus_0_r in Hz. by apply (Qc_double_nonzero (exp u)).
Qed.

Lemma like_units_over : can_convert (unit_over u r) = true.
Proof.
  apply can_convert_iff. intros d. unfold unit_over.
  rewrite dim_sum_unit_times by (intros _; exact Hdim).
  simpl. rewrite <- Hdim, <- Hexp. case_bool_decide; ring.
Qed.

Lemma like_units_simplify :
  Heap.simplify h [a; b] =
    (<[a := set_exp u (exp u + exp r)]> h, [a]).
Proof.
  unfold Heap.simplify. simpl.
  by rewrite Ha, Hb, like_units_not_times, like_units_over.
Qed.

Lemma like_units_ratio str :
  let u' := set_exp u (exp u + exp r) in
  base_units (Units_div (Units_of_list "" [u']) (mkUnits str [u'; r])) =
    [unit_update_exp r (-1)].
Proof.
  intros u'.
  assert (Hu' : exp u' ≠ 0).
  { simpl. rewrite <- Hexp. by apply Qc_double_nonzero. }
  assert (HT : base_units (Units_of_list "" [u']) = [u']).
  { rewrite Units_of_list_rev by (simpl; apply NoDup_singleton).
    unfold prune_zero. rewrite filter_cons, decide_True by done. done. }
  unfold Units_div.
  change (base_units (Units_mul ?A ?B))
    with (mul_merged (base_units A) (base_units B) ++
          filter (λ x, unit_in x (base_units A) = false) (base_units B)).
  rewrite HT. simpl base_units.
  set (B := [unit_update_exp u' (-1); unit_update_exp r (-1)]).
  assert (HB : NoDup (symbol <$> B)).
  { simpl. apply NoDup_cons. split; [|apply NoDup_singleton].
    by intros ?%list_elem_of_singleton. }
  assert (Hf : first_same u' B = Some (unit_update_exp u' (-1))).
  { apply first_same_unique; [done|by apply elem_of_cons; left|done]. }
  assert (H1 : unit_in (unit_update_exp u' (-1)) [u'] = true).
  { apply unit_in_symbol. simpl. by apply list_elem_of_singleton. }
  assert (H2 : unit_in (unit_update_exp r (-1)) [u'] = false).
  { destruct (unit_in (unit_update_exp r (-1)) [u']) eqn:Hin; [|done].
    apply unit_in_symbol in Hin. simpl in Hin.
    apply list_elem_of_singleton in Hin. by symmetry in Hin. }
  rewrite mul_merged_cons. unfold mul_unit. rewrite Hf.
  unfold unit_mul at 1.
  rewrite bool_decide_eq_true_2 by (unfold unit_update_exp; simpl; ring).
  unfold B. rewrite !filter_cons, filter_nil.
  rewrite decide_False by (rewrite H1; done).
  by rewrite decide_True by done.
Qed.

End SimplifyUnits.

(** X14.  [simplify_units] on a receiver of two distinct atomic units of
    one dimension with the same non-zero exponent, outside temperature
    conversions: [simplify] adds the exponent of the second unit to the
    first, in the object of the receiver; the ratio of the units returned
    to the units of the receiver, read after that write, is not
    convertible, and [simplify_units] raises an [Exception]. *)
Theorem simplify_units_raises_after_write (E : Env) (h : gmap nat BaseUnit)
    (a b : nat) (u r : BaseUnit) (num : Qc) (str : string) (sf : Z) :
  h !! a = Some u → h !! b = Some r → a ≠ b →
  symbol u ≠ symbol r → dimension u = dimension r →
  exp u = exp r → exp u ≠ 0 →
  let u' := set_exp u (exp u + exp r) in
  is_temperature_conversion E (mkUnits str [u'; r]) (Units_of_list "" [u'])
    = false →
  Heap.read (Heap.simplify h [a; b]).1 [a; b] = [u'; r] ∧
  ∃ msg, Heap.simplify_units E h num str [a; b] sf = Raise (Exception msg).
Proof.
  intros Ha Hb Hab Hsym Hdim Hexp Hnz u' Ht.
  pose proof (like_units_simplify h a b u r Ha Hb Hdim Hexp Hnz) as Hs.
  assert (Hread : Heap.read (<[a := u']> h) [a; b] = [u'; r]).
  { simpl. by rewrite lookup_insert_eq, lookup_insert_ne, Hb. }
  split; [by rewrite Hs|].
  unfold Heap.simplify_units. rewrite Hs. fold u'. rewrite Hread.
  assert (Hk : Heap.read (<[a := u']> h) [a] = [u']).
  { simpl. by rewrite lookup_insert_eq. }
  rewrite Hk. apply convert_units_not_convertible; [exact Ht|].
  simpl units.
  destruct (can_convert _) eqn:Hc; [|done]. exfalso.
  pose proof (proj1 (can_convert_iff _) Hc (dimension r)) as Hz.
  unfold u' in Hz. rewrite (like_units_ratio u r Hsym Hexp Hnz str) in Hz.
  simpl in Hz. rewrite bool_decide_eq_true_2 in Hz by done.
  apply Hnz. rewrite Hexp.
  transitivity (- (exp r * -1 + 0)); [ring|]. rewrite Hz. ring.
Qed.

Lemma simplify_units_raises_after_write_witness :
  let h : gmap nat BaseUnit :=
    <[0%nat := Std.unit "ft" 1]> (<[1%nat := Std.unit "m" 1]> ∅) in
  ∃ msg, Heap.simplify_units Std.env h 1 "ft*m" [0%nat; 1%nat] 1 =
           Raise (Exception msg).
Proof.
  intros h.
  refine (proj2 (simplify_units_raises_after_write Std.env h 0 1
            (Std.unit "ft" 1) (Std.unit "m" 1) 1 "ft*m" 1 _ _ _ _ _ _ _ _)).
  - apply (bool_decide_unpack _). vm_compute. exact I.
  - apply (bool_decide_unpack _). vm_compute. exact I.
  - lia.
  - apply (bool_decide_unpack _). vm_compute. exact I.
  - reflexivity.
  - reflexivity.
  - apply (bool_decide_unpack _). vm_compute. exact I.
  - vm_compute. reflexivity.
Defined.

(** ** Quantities in the same units *)

Section SameUnits.
Context (E : Env).

Lemma convert_units_own q mw :
  is_temperature_conversion E (units q) (units q) = false →
  unique_symbols (units q) →
  convert_units E q (units q) mw = Ok q.
Proof.
  intros Ht Hu. unfold convert_units.
  rewrite Ht, Units_div_self_unitless by done. by destruct q.
Qed.

(** X15.  Outside temperature conversions, converting a quantity whose
    units have at most one atomic unit per symbol to its own units returns
    the quantity unchanged, with or without a molecular weight. *)
Theorem convert_units_same_units (q : Value) (mw : option Value) :
  is_temperature_conversion E (units q) (units q) = false →
  unique_symbols (units q) →
  convert_units E q (units q) mw = Ok q.
Proof. apply convert_units_own. Qed.

(** X16.  Outside temperature conversions, the decorated operators on two
    quantities of the same units, with at most one atomic unit per symbol,
    work on the two values as they are and emit no warning: sum and
    difference carry the units of the operands and the smaller number of
    significant figures. *)
Theorem operators_same_units (a x : Value) :
  units x = units a →
  is_temperature_conversion E (units a) (units a) = false →
  unique_symbols (units a) →
  Value_add E a (OValue x) =
    mkM [] (Ok (mkValue (value a + value x) (units a)
                  (Z.min (sigfigs a) (sigfigs x)))) ∧
  Value_sub E a (OValue x) =
    mkM [] (Ok (mkValue (value a - value x) (units a)
                  (Z.min (sigfigs a) (sigfigs x)))) ∧
  Value_lt E a (OValue x) = mkM [] (Ok (bool_decide (value a < value x))) ∧
  Value_gt E a (OValue x) = mkM [] (Ok (bool_decide (value x < value a))).
Proof.
  intros Hx Ht Hu.
  assert (Hc : convert_units E x (units a) None = Ok x).
  { rewrite <- Hx. apply convert_units_own; by rewrite Hx. }
  unfold Value_add, Value_sub, Value_lt, Value_gt, ensure_value_input,
    Value_add_body, Value_sub_body, Value_lt_body, Value_gt_body.
  rewrite Hc. done.
Qed.

(** X17.  [__lt__] and [__gt__] on the same operands emit the same
    warnings and either both raise, the same error, or both return, and
    then not both [True]. *)
Theorem lt_gt_exclusive (a : Value) (x : operand) :
  warnings (Value_lt E a x) = warnings (Value_gt E a x) ∧
  match outcome (Value_lt E a x), outcome (Value_gt E a x) with
  | Ok l, Ok g => l && g = false
  | Raise e1, Raise e2 => e1 = e2
  | _, _ => False
  end.
Proof.
  unfold Value_lt, Value_gt. rewrite !ensure_value_input_coerce.
  destruct (coerce E a x) as [w [v|e]]; [|done].
  unfold Value_lt_body, Value_gt_body. unfold_monad.
  destruct (convert_units E v (units a) None) as [v'|e]; [|done].
  simpl. split; [done|].
  destruct (bool_decide (value a < value v')) eqn:H1; [|done].
  apply bool_decide_eq_true in H1. simpl. apply bool_decide_eq_false.
  intros H2. apply (Qclt_not_le _ _ H1). by apply Qclt_le_weak.
Qed.

End SameUnits.

Lemma convert_units_same_units_witness :
  let q := Std.quantity (PyInt 5) "m/s" in
  convert_units Std.env q (units q) None = Ok q.
Proof.
  intros q. apply (convert_units_same_units Std.env q None).
  - vm_compute. reflexivity.
  - apply (bool_decide_unpack _). vm_compute. exact I.
Defined.

Lemma operators_same_units_witness :
  let a := Std.quantity (PyInt 5) "kg" in
  let x := Std.quantity (PyFloat (Std.q 25 10)) "kg" in
  Value_add Std.env a (OValue x) =
    mkM [] (Ok (mkValue (value a + value x) (units a)
                  (Z.min (sigfigs a) (sigfigs x)))) ∧
  Value_lt Std.env a (OValue x) = mkM [] (Ok false).
Proof.
  intros a x.
  assert (H1 : units x = units a) by reflexivity.
  assert (H2 : is_temperature_conversion Std.env (units a) (units a) = false)
    by (vm_compute; reflexivity).
  assert (H3 : unique_symbols (units a))
    by (apply (bool_decide_unpack _); vm_compute; exact I).
  destruct (operators_same_units Std.env a x H1 H2 H3) as (Ha & _ & Hl & _).
  split; [exact Ha|]. rewrite Hl. vm_compute. reflexivity.
Defined.

(** ** Products and quotients of quantities *)

(** X19.  A quantity divided by itself, its units having at most one atomic
    unit per symbol: a value of 0 raises [ZeroDivisionError]; any other
    gives the unitless quantity 1 with the significant figures of the
    quantity. *)
Theorem Value_truediv_self (q : Value) :
  unique_symbols (units q) →
  is_unitless (Units_div (units q) (units q)) = true ∧
  Value_truediv q (OValue q) =
    if bool_decide (value q = 0) then Raise ZeroDivisionError
    else Ok (mkValue 1 (Units_div (units q) (units q)) (sigfigs q)).
Proof.
  intros Hu. split; [by apply Units_div_self_unitless|].
  unfold Value_truediv, float_div. case_bool_decide as Hz; [done|].
  unfold_monad. rewrite Z.min_id. do 2 f_equal.
  unfold Qcdiv. by apply Qcmult_inv_r.
Qed.

Lemma Value_truediv_self_witness :
  let q := Std.quantity (PyInt 4) "m/s" in
  ∃ v, Value_truediv q (OValue q) = Ok v ∧ value v = 1 ∧
       is_unitless (units v) = true.
Proof.
  intros q.
  assert (Hu : unique_symbols (units q))
    by (apply (bool_decide_unpack _); vm_compute; exact I).
  destruct (Value_truediv_self q Hu) as [H1 H2].
  rewrite bool_decide_eq_false_2 in H2.
  - eexists. split; [exact H2|]. split; [reflexivity|exact H1].
  - apply (bool_decide_unpack _). vm_compute. exact I.
Defined.

(** X20.  The product of two quantities whose units have at most one atomic
    unit per symbol does not depend on the order of the factors, up to the
    order of the atomic units: the values and the significant figures are
    the same and every symbol has the same exponent. *)
Theorem Value_mul_comm (a b : Value) :
  unique_symbols (units a) → unique_symbols (units b) →
  value (Value_mul_value a b) = value (Value_mul_value b a) ∧
  sigfigs (Value_mul_value a b) = sigfigs (Value_mul_value b a) ∧
  same_mapping (units (Value_mul_value a b)) (units (Value_mul_value b a)) ∧
  Value_mul a (OValue b) = Ok (Value_mul_value a b).
Proof.
  intros Ha Hb. simpl. repeat split.
  - ring.
  - apply Z.min_comm.
  - intros s. rewrite !exp_of_Units_mul by done. ring.
Qed.

Lemma Value_mul_comm_witness :
  let a := Std.quantity (PyInt 4) "m/s" in
  let b := Std.quantity (PyFloat (Std.q 25 10)) "kg" in
  units (Value_mul_value a b) ≠ units (Value_mul_value b a) ∧
  same_mapping (units (Value_mul_value a b)) (units (Value_mul_value b a)).
Proof.
  intros a b.
  assert (Ha : unique_symbols (units a))
    by (apply (bool_decide_unpack _); vm_compute; exact I).
  assert (Hb : unique_symbols (units b))
    by (apply (bool_decide_unpack _); vm_compute; exact I).
  split.
  - apply (bool_decide_unpack _). vm_compute. exact I.
  - exact (proj1 (proj2 (proj2 (Value_mul_comm a b Ha Hb)))).
Defined.

(** ** Significant figures *)

Lemma lstrip_char_app c m a x :
  a ≠ c →
  lstrip_char c (m +:+ String a x) = lstrip_char c m +:+ String a x.
Proof.
  intros Hne. induction m as [|b m IH]; simpl.
  - by rewrite bool_decide_eq_false_2.
  - case_bool_decide; [exact IH|done].
Qed.

Lemma has_char_lstrip c' c m :
  has_char c' m = false → has_char c' (lstrip_char c m) = false.
Proof.
  induction m as [|b m IH]; [done|]. simpl.
  intros [H1 H2]%orb_false_iff. destruct (bool_decide (b = c)); [by apply IH|].
  simpl. by rewrite H1, H2.
Qed.

Lemma partition_char_app c m x :
  has_char c m = false → partition_char c (m +:+ String c x) = (m, x).
Proof.
  induction m as [|b m IH]; simpl.
  - by rewrite bool_decide_eq_true_2.
  - intros [H1 H2]%orb_false_iff. rewrite H1. by rewrite IH.
Qed.

Lemma partition_char_absent c m :
  has_char c m = false → partition_char c m = (m, EmptyString).
Proof.
  induction m as [|b m IH]; [done|]. simpl.
  intros [H1 H2]%orb_false_iff. rewrite H1. by rewrite IH.
Qed.

(** X21.  [count_sigfigs] reads the mantissa only: a leading minus sign
    changes nothing, and for a mantissa without the letter e an exponent
    part changes nothing. *)
Theorem count_sigfigs_mantissa (m x : string) :
  has_char "e" m = false →
  count_sigfigs ("-" +:+ m) = count_sigfigs m ∧
  count_sigfigs (m +:+ "e" +:+ x) = count_sigfigs m.
Proof.
  intros He. split; [done|]. unfold count_sigfigs.
  change ("e" +:+ x) with (String "e" x).
  rewrite lstrip_char_app by done.
  rewrite partition_char_app by (by apply has_char_lstrip).
  rewrite (partition_char_absent "e" (lstrip_char "-" m))
    by (by apply has_char_lstrip).
  reflexivity.
Qed.

Lemma count_sigfigs_mantissa_witness :
  has_char "e" "1.50" = false ∧
  count_sigfigs "1.50e-07" = count_sigfigs "1.50".
Proof.
  split; [reflexivity|].
  exact (proj2 (count_sigfigs_mantissa "1.50" "-07" eq_refl)).
Defined.

(** ** Objects: copies, writes and frames *)

Lemma heap_simplify_scan_frame remaining : ∀ h u h' canceled remaining',
  Heap.simplify_scan h u remaining = (h', canceled, remaining') →
  (∀ r, r ≠ u → h' !! r = h !! r) ∧ sublist remaining' remaining.
Proof.
  induction remaining as [|r0 rest IH]; intros h u h' canceled remaining' H;
    simpl in H.
  { by injection H as <- <- <-. }
  destruct (h !! u) as [bu|] eqn:Hu; [|by injection H as <- <- <-].
  destruct (h !! r0) as [br|] eqn:Hr; [|by injection H as <- <- <-].
  destruct (can_convert (unit_times bu br)).
  { injection H as <- <- <-. split; [done|]. by apply sublist_cons. }
  destruct (can_convert (unit_over bu br)).
  { apply IH in H as [H1 H2]. split; [|by apply sublist_cons].
    intros r Hne. rewrite H1 by done. by apply lookup_insert_ne. }
  destruct (Heap.simplify_scan h u rest) as [[h0 c0] rest0] eqn:Hs.
  injection H as <- <- <-. apply IH in Hs as [H1 H2].
  split; [done|]. by apply sublist_skip.
Qed.

Lemma heap_simplify_loop_frame fuel : ∀ h remaining keep r,
  r ∉ remaining →
  (Heap.simplify_loop fuel h remaining keep).1 !! r = h !! r.
Proof.
  induction fuel as [|fuel IH]; intros h [|u rest] keep r Hr; try done.
  simpl. destruct (Heap.simplify_scan h u rest) as [[h0 c0] rest0] eqn:Hs.
  apply heap_simplify_scan_frame in Hs as [H1 H2].
  apply not_elem_of_cons in Hr as [Hne Hr].
  rewrite IH.
  - by apply H1.
  - intros Hin. apply Hr. by eapply elem_of_sublist.
Qed.

(** X22.  [Units.copy] is deep: the copy holds new, pairwise distinct
    objects, none of which existed before, in the states of the atomic
    units of the receiver, and no object that existed is written. *)
Theorem copy_is_deep (h h' : gmap nat BaseUnit) (refs new : list nat) :
  allocated h refs →
  Heap.copy_refs h refs = (h', new) →
  h ⊆ h' ∧ Forall (λ r, h !! r = None) new ∧ NoDup new ∧
  Heap.read h' new = Heap.read h refs ∧ Heap.read h' refs = Heap.read h refs.
Proof.
  intros Halloc Hc.
  destruct (copy_refs_spec refs h h' new Halloc Hc) as (H1 & H2 & H3 & _ & H5).
  repeat split; [done..|].
  apply read_ext. intros r Hr.
  eapply Forall_forall in Halloc as [x Hx]; [|exact Hr].
  rewrite Hx. by eapply lookup_weaken.
Qed.

Lemma copy_is_deep_witness :
  let h : gmap nat BaseUnit :=
    <[1%nat := Std.unit "s" (-1)]> {[0%nat := Std.unit "m" 1]} in
  let r := Heap.copy_refs h [0%nat; 1%nat] in
  NoDup r.2 ∧ Heap.read r.1 r.2 = [Std.unit "m" 1; Std.unit "s" (-1)].
Proof.
  intros h r.
  assert (Halloc : allocated h [0%nat; 1%nat])
    by (repeat constructor; eexists; vm_compute; reflexivity).
  destruct (copy_is_deep h r.1 [0%nat; 1%nat] r.2 Halloc)
    as (_ & _ & H3 & H4 & _); [apply surjective_pairing|].
  split; [exact H3|]. rewrite H4. vm_compute. reflexivity.
Defined.

(** X23.  [Units.update_exp] and [Units.invert] of [unitkit] leave the
    atomic units of the receiver as they were; the objects returned read as
    the units of the receiver with the exponents multiplied. *)
Theorem update_exp_leaves_receiver (h h' : gmap nat BaseUnit)
    (self new : list nat) (k : Qc) :
  allocated h self →
  Heap.update_exp h self k = (h', new) →
  Heap.read h' self = Heap.read h self ∧
  Heap.read h' new = map (λ u, unit_update_exp u k) (Heap.read h self).
Proof. intros Halloc Hu. by apply heap_update_exp_frame. Qed.

Lemma update_exp_leaves_receiver_witness :
  let h : gmap nat BaseUnit :=
    <[1%nat := Std.unit "s" (-1)]> {[0%nat := Std.unit "m" 1]} in
  let r := Heap.invert h [0%nat; 1%nat] in
  Heap.read r.1 [0%nat; 1%nat] = [Std.unit "m" 1; Std.unit "s" (-1)] ∧
  Heap.read r.1 r.2 = [Std.unit "m" (-1); Std.unit "s" 1].
Proof.
  intros h r.
  assert (Halloc : allocated h [0%nat; 1%nat])
    by (repeat constructor; eexists; vm_compute; reflexivity).
  destruct (update_exp_leaves_receiver h r.1 [0%nat; 1%nat] r.2 (-1) Halloc)
    as [H1 H2]; [apply surjective_pairing|].
  split.
  - rewrite H1. vm_compute. reflexivity.
  - rewrite H2. apply (bool_decide_unpack _). vm_compute. exact I.
Defined.

(** X24.  [Units.update_exp] of the older package writes to the receiver:
    on a receiver of distinct objects, every atomic unit of the receiver
    has its exponent multiplied afterwards, and no other object is
    written. *)
Theorem legacy_update_exp_in_place (h : gmap nat BaseUnit) (self : list nat)
    (k : Qc) :
  NoDup self → allocated h self →
  Heap.read (Heap.legacy_update_exp h self k) self =
    map (λ u, unit_update_exp u k) (Heap.read h self) ∧
  ∀ r, r ∉ self → Heap.legacy_update_exp h self k !! r = h !! r.
Proof.
  intros Hnd Halloc. split.
  - by apply update_exp_refs_read.
  - intros r Hr. by apply update_exp_refs_other.
Qed.

Lemma legacy_update_exp_in_place_witness :
  let h : gmap nat BaseUnit :=
    <[1%nat := Std.unit "s" (-1)]> {[0%nat := Std.unit "m" 1]} in
  Heap.read (Heap.legacy_update_exp h [0%nat; 1%nat] (Qc_of_Z 2))
    [0%nat; 1%nat] = [Std.unit "m" 2; Std.unit "s" (-2)].
Proof.
  intros h.
  assert (Hnd : NoDup [0%nat; 1%nat])
    by (apply (bool_decide_unpack _); vm_compute; exact I).
  assert (Halloc : allocated h [0%nat; 1%nat])
    by (repeat constructor; eexists; vm_compute; reflexivity).
  rewrite (proj1 (legacy_update_exp_in_place h [0%nat; 1%nat] (Qc_of_Z 2)
                    Hnd Halloc)).
  apply (bool_decide_unpack _). vm_compute. exact I.
Defined.

(** X25.  On a receiver of distinct objects, [simplify] run on the objects
    returns the atomic units that [simplify] on their states returns. *)
Theorem simplify_objects_agree (h : gmap nat BaseUnit) (self : list nat)
    (s : string) :
  NoDup self → allocated h self →
  Units_of_list "" (Heap.read (Heap.simplify h self).1 (Heap.simplify h self).2)
    = simplify (mkUnits s (Heap.read h self)).
Proof.
  intros Hnd Halloc.
  destruct (heap_simplify_refines h self s Hnd Halloc) as (h' & keep & H1 & H2).
  by rewrite H1.
Qed.

Lemma simplify_objects_agree_witness :
  let h : gmap nat BaseUnit :=
    <[1%nat := Std.unit "in" 1]> {[0%nat := Std.unit "m" 1]} in
  base_units
    (Units_of_list ""
       (Heap.read (Heap.simplify h [0%nat; 1%nat]).1
          (Heap.simplify h [0%nat; 1%nat]).2)) = [Std.unit "m" 2].
Proof.
  intros h.
  assert (Hnd : NoDup [0%nat; 1%nat])
    by (apply (bool_decide_unpack _); vm_compute; exact I).
  assert (Halloc : allocated h [0%nat; 1%nat])
    by (repeat constructor; eexists; vm_compute; reflexivity).
  rewrite (simplify_objects_agree h [0%nat; 1%nat] "" Hnd Halloc).
  apply (bool_decide_unpack _). vm_compute. exact I.
Defined.

(** X26.  [simplify] writes to atomic units of its receiver only: every
    object that the receiver does not hold is as it was. *)
Theorem simplify_writes_receiver_only (h : gmap nat BaseUnit)
    (self : list nat) (r : nat) :
  r ∉ self → (Heap.simplify h self).1 !! r = h !! r.
Proof. intros Hr. by apply heap_simplify_loop_frame. Qed.

Lemma simplify_writes_receiver_only_witness :
  let h : gmap nat BaseUnit :=
    <[2%nat := Std.unit "ft" 1]>
      (<[1%nat := Std.unit "in" 1]> {[0%nat := Std.unit "m" 1]}) in
  (Heap.simplify h [0%nat; 1%nat]).1 !! 2%nat = Some (Std.unit "ft" 1).
Proof.
  intros h.
  rewrite (simplify_writes_receiver_only h [0%nat; 1%nat] 2).
  - vm_compute. reflexivity.
  - apply (bool_decide_unpack _). vm_compute. exact I.
Defined.

(** ** Nested unit expressions in the constructor *)

Lemma flatten_app_base l items :
  _flatten_unit_list ((IBase <$> l) ++ items) =
    l' ← _flatten_unit_list items; Ok (l ++ l').
Proof.
  induction l as [|u l IH].
  - simpl. by destruct (_flatten_unit_list items).
  - rewrite fmap_cons. cbn [app _flatten_unit_list]. rewrite IH.
    by destruct (_flatten_unit_list items).
Qed.

(** X27.  The constructor on atomic units only is the merge and the
    pruning of the list, and a nested expression that is not empty counts
    as its atomic units, spliced in at its place. *)
Theorem Units_init_flattens (s : string) (n : Units) (items : list unit_item)
    (l : list BaseUnit) :
  Units_init s (IBase <$> l) = Ok (Units_of_list s l) ∧
  (base_units n ≠ [] →
   Units_init s (IUnits n :: items) =
     Units_init s ((IBase <$> base_units n) ++ items)).
Proof.
  unfold Units_init. split.
  - rewrite <- (app_nil_r (IBase <$> l)), flatten_app_base. simpl.
    by rewrite app_nil_r.
  - intros Hn. rewrite flatten_app_base. simpl.
    by destruct (base_units n).
Qed.

(** ** The older [simplify] with non-zero factors *)

Section LegacyReturns.
Context (E : Env).

Lemma Qcdiv_nonzero (x y : Qc) : x ≠ 0 → y ≠ 0 → x / y ≠ 0.
Proof.
  intros Hx Hy H. apply Hx.
  transitivity (x / y * y); [|rewrite H; ring].
  unfold Qcdiv. rewrite <- Qcmult_assoc, (Qcmult_comm (/ y)).
  rewrite Qcmult_inv_r by done. ring.
Qed.

Lemma Qcmult_nonzero (x y : Qc) : x ≠ 0 → y ≠ 0 → x * y ≠ 0.
Proof. intros Hx Hy H. by apply Qcmult_integral in H as [|]. Qed.

Lemma mod_nonzero_now u : mod_nonzero E u → unit_mod E u ≠ 0.
Proof. intros H. rewrite <- (set_exp_id u). apply H. Qed.

Lemma mod_nonzero_set_exp u e : mod_nonzero E u → mod_nonzero E (set_exp u e).
Proof. intros H e'. apply H. Qed.

Lemma legacy_simplify_scan_returns remaining : ∀ u m,
  mod_nonzero E u → Forall (mod_nonzero E) remaining → m ≠ 0 →
  ∃ canceled u' remaining' m',
    Legacy.simplify_scan E u remaining m = Ok (canceled, u', remaining', m') ∧
    m' ≠ 0 ∧ mod_nonzero E u' ∧ Forall (mod_nonzero E) remaining'.
Proof.
  induction remaining as [|r rest IH]; intros u m Hu Hrem Hm; simpl.
  { by exists false, u, [], m. }
  apply Forall_cons_1 in Hrem as [Hr Hrest].
  pose proof (mod_nonzero_now u Hu) as Hu0.
  pose proof (mod_nonzero_now r Hr) as Hr0.
  destruct (can_convert (unit_times u r)).
  { unfold float_div. rewrite bool_decide_eq_false_2 by done.
    unfold_monad. eexists _, _, _, _. split; [done|].
    split; [|done]. apply Qcmult_nonzero; [done|]. by apply Qcdiv_nonzero. }
  destruct (can_convert (unit_over u r)).
  { unfold float_div.
    rewrite bool_decide_eq_false_2 by (by apply Qcmult_nonzero).
    unfold_monad. apply IH; [by apply mod_nonzero_set_exp|done|].
    apply Qcdiv_nonzero; [done|]. by apply Qcmult_nonzero. }
  destruct (IH u m Hu Hrest Hm) as (c & u' & rest' & m' & H1 & H2 & H3 & H4).
  rewrite H1. unfold_monad. eexists _, _, _, _. split; [done|].
  split; [done|]. split; [done|]. by apply Forall_cons.
Qed.

Lemma legacy_simplify_loop_returns fuel : ∀ remaining keep m,
  Forall (mod_nonzero E) remaining → m ≠ 0 →
  ∃ keep' m',
    Legacy.simplify_loop E fuel remaining keep m = Ok (keep', m') ∧ m' ≠ 0.
Proof.
  induction fuel as [|fuel IH]; intros [|u rest] keep m Hrem Hm; simpl;
    try (by exists keep, m).
  apply Forall_cons_1 in Hrem as [Hu Hrest].
  destruct (legacy_simplify_scan_returns rest u m Hu Hrest Hm)
    as (c & u' & rest' & m' & H1 & H2 & _ & H4).
  rewrite H1. by apply IH.
Qed.

End LegacyReturns.

Lemma powZ_nonzero (x : Qc) (k : Z) : x ≠ 0 → Std.powZ x k ≠ 0.
Proof.
  intros Hx.
  assert (Hp : ∀ n, x ^ n ≠ 0).
  { induction n as [|n IH]; simpl.
    - apply (bool_decide_unpack _). vm_compute. exact I.
    - by apply Qcmult_nonzero. }
  destruct k as [|p|p]; simpl.
  - apply (bool_decide_unpack _). vm_compute. exact I.
  - apply Hp.
  - intros H. specialize (Hp (Pos.to_nat p)).
    assert (H1 : x ^ Pos.to_nat p * / x ^ Pos.to_nat p = 1)
      by by apply Qcmult_inv_r.
    rewrite H in H1. revert H1. rewrite Qcmult_0_r.
    apply (bool_decide_unpack _). vm_compute. exact I.
Qed.

Lemma Std_mod_nonzero (u : BaseUnit) :
  magnitude u ≠ 0 → mod_nonzero Std.env u.
Proof.
  intros Hm e. simpl. unfold Std.mod_. simpl.
  destruct (Std.integral e); [by apply powZ_nonzero|].
  apply (bool_decide_unpack _). vm_compute. exact I.
Qed.

(** X28.  [simplify] and [simplify_units] of the older package on a
    receiver with at most one atomic unit per symbol (two units of one
    symbol make [u * remaining[i]] an atomic unit, which [can_convert]
    cannot read), when [mod()] of its atomic units is not 0 at any exponent:
    both return; the units are those that the loops of [unitkit] keep,
    pruned of zero exponents and not merged, the modifier is not 0, and the
    quantity returned has the value multiplied by the modifier and the
    significant figures of the receiver. *)
Theorem legacy_simplify_returns (E : Env) (q : Value) :
  unique_symbols (units q) →
  Forall (mod_nonzero E) (base_units (units q)) →
  let A := units q in
  let U := Legacy.Units_of_list ""
             (simplify_loop (length (base_units A)) (base_units A) []) in
  ∃ m, m ≠ 0 ∧ Legacy.simplify E A = Ok (U, m) ∧
       Legacy.simplify_units E q = Ok (mkValue (value q * m) U (sigfigs q)).
Proof.
  intros _ Hmod A U.
  destruct (legacy_simplify_loop_returns E (length (base_units A))
              (base_units A) [] 1 Hmod) as (keep & m & H1 & H2).
  { apply (bool_decide_unpack _). vm_compute. exact I. }
  pose proof (legacy_simplify_loop_units _ _ _ _ _ _ _ H1) as Hk.
  assert (Hs : Legacy.simplify E A = Ok (U, m)).
  { unfold Legacy.simplify. fold A. rewrite H1. unfold_monad.
    by rewrite <- Hk. }
  exists m. split; [done|]. split; [done|].
  unfold Legacy.simplify_units. fold A. by rewrite Hs.
Qed.

(** 2 m in s^-1 in the table of [Std]: in merges into m, and the modifier
    is the 0.0254 of the inch. *)
Lemma legacy_simplify_returns_witness :
  let q := mkValue 2 (mkUnits "" [Std.unit "m" 1; Std.unit "in" 1;
                                  Std.unit "s" (-1)]) 1 in
  unique_symbols (units q) ∧
  Forall (mod_nonzero Std.env) (base_units (units q)) ∧
  Legacy.simplify_units Std.env q =
    Ok (mkValue (2 * Std.q 254 10000)
          (mkUnits "" [Std.unit "m" 2; Std.unit "s" (-1)]) 1).
Proof.
  intros q.
  assert (Hu : unique_symbols (units q))
    by (apply (bool_decide_unpack _); vm_compute; exact I).
  assert (Hmod : Forall (mod_nonzero Std.env) (base_units (units q))).
  { repeat apply Forall_cons_2; [| | |apply Forall_nil_2];
      apply Std_mod_nonzero; apply (bool_decide_unpack _); vm_compute;
      exact I. }
  split; [exact Hu|]. split; [exact Hmod|].
  destruct (legacy_simplify_returns Std.env q Hu Hmod) as (m & _ & H2 & H3).
  assert (HA : Legacy.simplify Std.env (units q) =
               Ok (mkUnits "" [Std.unit "m" 2; Std.unit "s" (-1)],
                   Std.q 254 10000))
    by (apply (bool_decide_unpack _); vm_compute; exact I).
  assert (Hm : m = Std.q 254 10000) by congruence.
  rewrite H3, Hm. apply (bool_decide_unpack _). vm_compute. exact I.
Defined.

(** ** Reflected operators and [equals] on one quantity *)

Section Reflected.
Context (E : Env).

Lemma Units_div_empty : is_unitless (Units_div Units_empty Units_empty) = true.
Proof. reflexivity. Qed.

Lemma M_bind_Ok {A B} (w : list string) (x : A) (k : A → M B) :
  (mkM w (Ok x) ≫= k) = mkM (w ++ warnings (k x)) (outcome (k x)).
Proof. reflexivity. Qed.

(** X29.  The reflected operators with a number on the left.  [__radd__] is
    [__add__]: decorating twice changes neither the result nor the
    warnings.  [__rsub__], outside temperature conversions and for units
    with at most one atomic unit per symbol, returns the number minus the
    value, in the units and with the significant figures of the quantity;
    it warns twice that units are assumed when the units of the quantity are
    not convertible to unitless, and not at all otherwise. *)
Theorem reflected_operators (a : Value) (n : number) :
  is_temperature_conversion E (units a) (units a) = false →
  is_temperature_conversion E Units_empty Units_empty = false →
  unique_symbols (units a) →
  (∀ x, Value_radd E a x = Value_add E a x) ∧
  Value_rsub E a (ONumber n) =
    mkM (if can_convert (units a) then []
         else [assumed_units_warning E a; assumed_units_warning E a])
        (Ok (mkValue (number_value n - value a) (units a) (sigfigs a))).
Proof.
  intros Ht He Hu. split.
  { intros x. unfold Value_radd, Value_add, ensure_value_input.
    destruct x; [|done|]; by destruct (can_convert (units a)). }
  assert (Hce : can_convert Units_empty = true) by apply can_convert_nil.
  unfold Value_rsub. rewrite ensure_value_input_coerce, coerce_number.
  cbv zeta. destruct (can_convert (units a)) eqn:Hc.
  - rewrite M_bind_Ok. cbv beta.
    assert (∃ sf, Value_sub E
              (mkValue (number_value n) Units_empty
                 (Z.of_nat (count_sigfigs
                    (number_str E (PyFloat (number_value n))))))
              (ONumber (PyFloat (value a))) =
            mkM [] (Ok (mkValue (number_value n - value a) Units_empty sf)))
      as [sf Hsub].
    { eexists. unfold Value_sub.
      rewrite ensure_value_input_coerce, coerce_number.
      cbv zeta. cbn [units]. rewrite Hce, M_bind_Ok.
      unfold Value_sub_body, convert_units. cbn [units value sigfigs].
      rewrite He, Units_div_empty. reflexivity. }
    rewrite Hsub, M_bind_Ok. reflexivity.
  - rewrite M_bind_Ok. cbv beta.
    assert (∃ sf, Value_sub E
              (mkValue (number_value n) (units a)
                 (Z.of_nat (count_sigfigs
                    (number_str E (PyFloat (number_value n))))))
              (ONumber (PyFloat (value a))) =
            mkM [assumed_units_warning E a]
              (Ok (mkValue (number_value n - value a) (units a) sf)))
      as [sf Hsub].
    { eexists. unfold Value_sub.
      rewrite ensure_value_input_coerce, coerce_number.
      cbv zeta. cbn [units]. rewrite Hc, M_bind_Ok.
      unfold Value_sub_body, convert_units. cbn [units value sigfigs].
      rewrite Ht, Units_div_self_unitless by done. reflexivity. }
    rewrite Hsub, M_bind_Ok. reflexivity.
Qed.

(** X30.  Outside temperature conversions, a quantity of non-zero value
    whose units have at most one atomic unit per symbol equals itself:
    [equals] returns whether [epsilon] is positive, without a warning, and
    [==] returns [True]. *)
Theorem equals_reflexive (q : Value) (epsilon : Qc) :
  is_temperature_conversion E (units q) (units q) = false →
  unique_symbols (units q) → value q ≠ 0 →
  Value_equals E epsilon q (OValue q) =
    mkM [] (Ok (bool_decide (0 < epsilon))) ∧
  Value_eq E q (OValue q) = mkM [] (Ok true).
Proof.
  intros Ht Hu Hz.
  assert (H : ∀ eps, Value_equals E eps q (OValue q) =
                     mkM [] (Ok (bool_decide (0 < eps)))).
  { intros eps. unfold Value_equals, ensure_value_input, Value_equals_body.
    rewrite convert_units_own by done. unfold float_div.
    rewrite bool_decide_eq_false_2 by done. unfold_monad.
    replace ((value q - value q) / value q) with (0 : Qc)
      by (unfold Qcdiv; ring).
    assert (Habs : Qcabs.Qcabs 0 = 0)
      by (apply (bool_decide_unpack _); vm_compute; exact I).
    by rewrite Habs. }
  split; [apply H|]. unfold Value_eq. rewrite H. done.
Qed.

End Reflected.

Lemma reflected_operators_witness :
  let a := Std.quantity (PyInt 5) "kg" in
  Value_rsub Std.env a (ONumber (PyInt 7)) =
    mkM [assumed_units_warning Std.env a; assumed_units_warning Std.env a]
        (Ok (mkValue 2 (units a) 1)).
Proof.
  intros a.
  rewrite (proj2 (reflected_operators Std.env a (PyInt 7)
                    eq_refl eq_refl
                    ltac:(apply (bool_decide_unpack _); vm_compute; exact I))).
  apply (bool_decide_unpack _). vm_compute. exact I.
Defined.

Lemma equals_reflexive_witness :
  let q := Std.quantity (PyInt 5) "m/s" in
  Value_eq Std.env q (OValue q) = mkM [] (Ok true).
Proof.
  intros q. apply (equals_reflexive Std.env q default_epsilon).
  - vm_compute. reflexivity.
  - apply (bool_decide_unpack _). vm_compute. exact I.
  - apply (bool_decide_unpack _). vm_compute. exact I.
Defined.

(** * Idempotence of [simplify] *)

(** ** Partners *)

Lemma can_convert_times_iff u r :
  symbol u ≠ symbol r →
  can_convert (unit_times u r) = true ↔ ∀ d, dim_sum [u; r] d = 0.
Proof.
  intros Hs. rewrite can_convert_iff. split; intros H d.
  - rewrite <- dim_sum_unit_times by done. apply H.
  - rewrite dim_sum_unit_times by done. apply H.
Qed.

Lemma can_convert_over_iff u r :
  symbol u ≠ symbol r →
  can_convert (unit_over u r) = true ↔
  ∀ d, dim_sum [u; unit_update_exp r (-1)] d = 0.
Proof. intros Hs. unfold unit_over. by apply can_convert_times_iff. Qed.

Lemma Qc_opp_zero (x : Qc) : x * -1 = 0 → x = 0.
Proof.
  intros H. transitivity (- (x * -1)); [ring|]. rewrite H. ring.
Qed.

(** Units of different dimensions are no partners. *)
Lemma partners_other_dimension u r :
  symbol u ≠ symbol r → dimension u ≠ dimension r → exp r ≠ 0 →
  partners u r = false.
Proof.
  intros Hs Hd Hr. unfold partners. apply orb_false_iff. split.
  - destruct (can_convert (unit_times u r)) eqn:Ht; [|done]. exfalso.
    pose proof (proj1 (can_convert_times_iff u r Hs) Ht (dimension r)) as Hz.
    simpl in Hz. rewrite bool_decide_eq_false_2 in Hz by done.
    rewrite bool_decide_eq_true_2 in Hz by done.
    apply Hr. rewrite <- Hz. ring.
  - destruct (can_convert (unit_over u r)) eqn:Ho; [|done]. exfalso.
    pose proof (proj1 (can_convert_over_iff u r Hs) Ho (dimension r)) as Hz.
    simpl in Hz. rewrite bool_decide_eq_false_2 in Hz by done.
    rewrite bool_decide_eq_true_2 in Hz by done.
    apply Hr, Qc_opp_zero. rewrite <- Hz. ring.
Qed.

(** A unit that merges into [u] has the dimension and the exponent of
    [u]. *)
Lemma over_same_exponent u r :
  symbol u ≠ symbol r → exp r ≠ 0 → can_convert (unit_over u r) = true →
  dimension u = dimension r ∧ exp u = exp r.
Proof.
  intros Hs Hr Ho.
  destruct (decide (dimension u = dimension r)) as [Hd|Hd].
  - split; [done|].
    pose proof (proj1 (can_convert_over_iff u r Hs) Ho (dimension u)) as Hz.
    simpl in Hz. rewrite <- Hd in Hz.
    rewrite bool_decide_eq_true_2 in Hz by done.
    transitivity (exp u + (exp r * -1 + 0) + exp r); [ring|].
    rewrite Hz. ring.
  - exfalso. pose proof (partners_other_dimension u r Hs Hd Hr) as Hp.
    unfold partners in Hp. apply orb_false_iff in Hp as [_ Hp]. congruence.
Qed.

Lemma partners_sym_true u r :
  symbol u ≠ symbol r → partners u r = true → partners r u = true.
Proof.
  intros Hs. assert (Hs' : symbol r ≠ symbol u) by (by intros ?).
  unfold partners. intros [Ht|Ho]%orb_true_iff; apply orb_true_iff.
  - left. apply can_convert_times_iff; [done|]. intros d.
    pose proof (proj1 (can_convert_times_iff u r Hs) Ht d) as Hz.
    rewrite <- Hz. simpl. ring.
  - right. apply can_convert_over_iff; [done|]. intros d.
    pose proof (proj1 (can_convert_over_iff u r Hs) Ho d) as Hz.
    simpl in *.
    set (a := bool_decide (dimension u = d)) in *.
    set (b := bool_decide (dimension r = d)) in *.
    transitivity (- ((if a then exp u else 0) +
                     ((if b then exp r * -1 else 0) + 0))).
    + destruct a, b; ring.
    + rewrite Hz. ring.
Qed.

Lemma partners_sym u r :
  symbol u ≠ symbol r → partners u r = partners r u.
Proof.
  intros Hs. destruct (partners u r) eqn:H1, (partners r u) eqn:H2; try done.
  - apply partners_sym_true in H1; [congruence|done].
  - apply partners_sym_true in H2; [congruence|by intros ?].
Qed.

(** ** Counting the units of a dimension *)

Lemma dim_count_cons u l d :
  dim_count (u :: l) d =
    ((if decide (dimension u = d) then 1 else 0) + dim_count l d)%nat.
Proof.
  unfold dim_count. rewrite filter_cons. by destruct (decide _).
Qed.

Lemma dim_count_app l1 l2 d :
  dim_count (l1 ++ l2) d = (dim_count l1 d + dim_count l2 d)%nat.
Proof. unfold dim_count. by rewrite filter_app, length_app. Qed.

Lemma dim_count_sublist l1 l2 d :
  sublist l1 l2 → (dim_count l1 d ≤ dim_count l2 d)%nat.
Proof.
  induction 1 as [|x l1 l2 _ IH|x l1 l2 _ IH]; [done| |];
    rewrite ?dim_count_cons; lia.
Qed.

Lemma dim_count_zero l d x :
  dim_count l d = 0%nat → x ∈ l → dimension x ≠ d.
Proof.
  unfold dim_count. intros H Hx Hd.
  apply length_zero_iff_nil in H.
  assert (Hin : x ∈ filter (λ u, dimension u = d) l)
    by by apply list_elem_of_filter.
  rewrite H in Hin. by apply elem_of_nil in Hin.
Qed.

Lemma two_per_dimension_spec l :
  two_per_dimension l ↔ ∀ d, (dim_count l d ≤ 2)%nat.
Proof.
  unfold two_per_dimension. rewrite Forall_forall. split.
  - intros H d. destruct (filter (λ u, dimension u = d) l) as [|x f] eqn:Hf.
    + unfold dim_count. rewrite Hf. simpl. lia.
    + assert (Hx : x ∈ filter (λ u, dimension u = d) l)
        by (rewrite Hf; by apply elem_of_cons; left).
      apply list_elem_of_filter in Hx as [Hd Hx]. rewrite <- Hd. by apply H.
  - intros H x _. apply H.
Qed.

(** ** The loops when no three units share a dimension *)

(** The scan for [u] over units of which at most one has the dimension of
    [u]: a unit that is not cancelled keeps a non-zero exponent and has no
    partner among the units left, and it changes only by merging the one
    unit of its dimension. *)
Lemma simplify_scan_two rest : ∀ u u' rest',
  simplify_scan u rest = (false, u', rest') →
  (∀ r, r ∈ rest → symbol u ≠ symbol r ∧ exp r ≠ 0) →
  exp u ≠ 0 →
  (dim_count rest (dimension u) ≤ 1)%nat →
  exp u' ≠ 0 ∧
  (∀ r, r ∈ rest' → partners u' r = false) ∧
  (u' = u ∨ (1 ≤ dim_count rest (dimension u))%nat).
Proof.
  induction rest as [|r rest IH]; intros u u' rest' H Hrest Hu Hc; simpl in H.
  { injection H as <- <-. split; [done|]. split; [|by left].
    intros r Hr. by apply elem_of_nil in Hr. }
  destruct (Hrest r) as [Hsr Hr]; [by apply elem_of_cons; left|].
  assert (Hrest' : ∀ x, x ∈ rest → symbol u ≠ symbol x ∧ exp x ≠ 0).
  { intros x Hx. apply Hrest. by apply elem_of_cons; right. }
  rewrite dim_count_cons in Hc.
  destruct (can_convert (unit_times u r)) eqn:Ht; [done|].
  destruct (can_convert (unit_over u r)) eqn:Ho.
  - destruct (over_same_exponent u r Hsr Hr Ho) as [Hd He].
    rewrite decide_True in Hc by done.
    apply IH in H as (H1 & H2 & H3).
    + split; [done|]. split; [done|]. right.
      rewrite dim_count_cons, decide_True by done. lia.
    + exact Hrest'.
    + simpl. rewrite <- He. by apply Qc_double_nonzero.
    + simpl. lia.
  - destruct (simplify_scan u rest) as [[c0 u0] rest0] eqn:Hs.
    injection H as -> <- <-.
    pose proof (simplify_scan_pair _ _ _ _ _ Hs) as (Hsym & Hdim & _).
    apply IH in Hs as (H1 & H2 & H3); [|done|done|lia].
    split; [done|]. split.
    + intros x [->|Hx]%elem_of_cons; [|by apply H2].
      destruct H3 as [->|H3].
      * unfold partners. by rewrite Ht, Ho.
      * apply partners_other_dimension; [by rewrite Hsym| |done].
        rewrite Hdim. intros Hd. rewrite decide_True in Hc by done. lia.
    + destruct H3 as [->|H3]; [by left|right].
      rewrite dim_count_cons. lia.
Qed.

Lemma no_partners_stable l :
  NoDup (symbol <$> l) → no_partners l → stable l = true.
Proof.
  induction l as [|u l IH]; intros Hnd Hp; [done|].
  rewrite fmap_cons in Hnd. apply NoDup_cons in Hnd as [Hu Hnd].
  simpl. apply andb_true_iff. split.
  - apply forallb_forall. intros r Hr%list_elem_of_In.
    apply negb_true_iff, Hp.
    + by apply elem_of_cons; left.
    + by apply elem_of_cons; right.
    + intros Hs. apply Hu. rewrite Hs. by apply list_elem_of_fmap_2.
  - apply IH; [done|]. intros x y Hx Hy. apply Hp; by apply elem_of_cons; right.
Qed.

Lemma no_partners_rev l : no_partners l → no_partners (rev l).
Proof.
  intros Hp x y Hx Hy. apply Hp.
  - apply list_elem_of_In, in_rev. by apply list_elem_of_In.
  - apply list_elem_of_In, in_rev. by apply list_elem_of_In.
Qed.

Lemma simplify_loop_two fuel : ∀ remaining keep,
  (length remaining ≤ fuel)%nat →
  NoDup (symbol <$> keep ++ remaining) →
  Forall (λ u, exp u ≠ 0) (keep ++ remaining) →
  (∀ d, (dim_count (keep ++ remaining) d ≤ 2)%nat) →
  (∀ x y, x ∈ keep → y ∈ keep ++ remaining → symbol x ≠ symbol y →
          partners x y = false) →
  NoDup (symbol <$> simplify_loop fuel remaining keep) ∧
  Forall (λ u, exp u ≠ 0) (simplify_loop fuel remaining keep) ∧
  no_partners (simplify_loop fuel remaining keep).
Proof.
  induction fuel as [|fuel IH]; intros [|u rest] keep Hlen Hnd Hnz Hcnt Hp;
    simpl in Hlen; try lia.
  1,2: rewrite app_nil_r in *; simpl; split; [done|]; split; [done|];
       intros x y Hx Hy; by apply Hp.
  simpl. destruct (simplify_scan u rest) as [[canceled u'] rest'] eqn:Hs.
  pose proof (simplify_scan_length _ _ _ _ _ Hs) as Hl.
  pose proof (simplify_scan_pair _ _ _ _ _ Hs) as (Hsym & Hdim & Hsub).
  assert (Hsubl : sublist (keep ++ rest') (keep ++ u :: rest)).
  { apply sublist_app; [done|]. by apply sublist_cons. }
  assert (Hrest : ∀ y, y ∈ rest' → y ∈ keep ++ u :: rest).
  { intros y Hy. apply elem_of_app. right. apply elem_of_cons. right.
    by eapply elem_of_sublist. }
  assert (Hold : ∀ y, y ∈ keep → y ∈ keep ++ u :: rest).
  { intros y Hy. apply elem_of_app. by left. }
  assert (Hself : u ∈ keep ++ u :: rest).
  { apply elem_of_app. right. by apply elem_of_cons; left. }
  rewrite fmap_app, fmap_cons in Hnd.
  pose proof Hnd as Hnd'.
  apply NoDup_app in Hnd' as (_ & Hdisj & Hndu).
  apply NoDup_cons in Hndu as [Hur _].
  assert (Hk : ∀ x, x ∈ keep → symbol x ≠ symbol u).
  { intros x Hx Hsx. eapply Hdisj; [by apply list_elem_of_fmap_2|].
    rewrite Hsx. by apply elem_of_cons; left. }
  rewrite <- fmap_cons, <- fmap_app in Hnd.
  destruct canceled.
  - apply IH.
    + lia.
    + eapply sublist_NoDup; [exact Hnd|]. by apply sublist_fmap_symbol.
    + by eapply Forall_sublist.
    + intros d. pose proof (dim_count_sublist _ _ d Hsubl). specialize (Hcnt d).
      lia.
    + intros x y Hx Hy. apply Hp; [done|]. by eapply elem_of_sublist.
  - pose proof (proj1 (Forall_forall _ _) Hnz) as Hnz'.
    pose proof (Hcnt (dimension u)) as Hcu.
    rewrite dim_count_app, dim_count_cons, decide_True in Hcu by done.
    apply simplify_scan_two in Hs as (Hu' & Hnp & Hch).
    2:{ intros r Hr. split.
        - intros Hsr. apply Hur. rewrite Hsr. by apply list_elem_of_fmap_2.
        - apply Hnz'. apply elem_of_app. right. by apply elem_of_cons; right. }
    2:{ by apply Hnz'. }
    2:{ lia. }
    assert (A1 : ∀ x, x ∈ keep → partners x u' = false).
    { intros x Hx. destruct Hch as [->|Hc1].
      - apply Hp; [done|done|by apply Hk].
      - apply partners_other_dimension; [rewrite Hsym; by apply Hk| |done].
        rewrite Hdim. eapply dim_count_zero; [|exact Hx]. lia. }
    apply IH.
    + lia.
    + rewrite <- app_assoc, !fmap_app. simpl. rewrite Hsym.
      rewrite <- fmap_cons, <- fmap_app.
      eapply sublist_NoDup; [exact Hnd|]. apply sublist_fmap_symbol.
      apply sublist_app; [done|]. by apply sublist_skip.
    + rewrite <- app_assoc. apply Forall_app. split.
      * apply Forall_forall. intros x Hx. by apply Hnz', Hold.
      * apply Forall_cons. split; [done|].
        apply Forall_forall. intros x Hx. by apply Hnz', Hrest.
    + intros d. specialize (Hcnt d).
      pose proof (dim_count_sublist _ _ d Hsub).
      rewrite dim_count_app, dim_count_cons in Hcnt.
      rewrite !dim_count_app, dim_count_cons, Hdim.
      change (dim_count [] d) with 0%nat. lia.
    + intros x y [Hx|Hx]%elem_of_app Hy Hxy.
      * rewrite <- app_assoc in Hy.
        apply elem_of_app in Hy as [Hy|Hy]; [by apply Hp; [|apply Hold|]|].
        apply elem_of_cons in Hy as [->|Hy]; [by apply A1|].
        apply Hp; [done|by apply Hrest|done].
      * apply list_elem_of_singleton in Hx as ->.
        rewrite <- app_assoc in Hy.
        apply elem_of_app in Hy as [Hy|Hy].
        { rewrite partners_sym by done. by apply A1. }
        apply elem_of_cons in Hy as [->|Hy]; [done|]. by apply Hnp.
Qed.

Lemma legacy_simplify_scan_stable E rest : ∀ u m,
  forallb (λ r, negb (partners u r)) rest = true →
  Legacy.simplify_scan E u rest m = Ok (false, u, rest, m).
Proof.
  induction rest as [|r rest IH]; intros u m H; [done|]. simpl in *.
  apply andb_true_iff in H as [Hr Hrest].
  apply negb_true_iff, orb_false_iff in Hr as [-> ->].
  by rewrite IH.
Qed.

Lemma legacy_simplify_loop_stable E n : ∀ l keep m,
  stable l = true → (length l ≤ n)%nat →
  Legacy.simplify_loop E n l keep m = Ok (keep ++ l, m).
Proof.
  induction n as [|n IH]; intros [|u l] keep m Hs Hlen; simpl in *;
    try (by rewrite app_nil_r); [lia|].
  apply andb_true_iff in Hs as [Hu Hs].
  rewrite legacy_simplify_scan_stable by done.
  rewrite IH by (done || lia). by rewrite <- app_assoc.
Qed.

(** What the loops keep of a receiver with at most one unit per symbol, no
    zero exponent and no three units of one dimension. *)
Lemma simplify_loop_settled A :
  unique_symbols A → nonzero A → two_per_dimension (base_units A) →
  let k := simplify_loop (length (base_units A)) (base_units A) [] in
  NoDup (symbol <$> k) ∧ Forall (λ u, exp u ≠ 0) k ∧ no_partners k.
Proof.
  intros Hu Hnz Htwo. apply simplify_loop_two; [done|done|done| |].
  - by apply two_per_dimension_spec.
  - intros x y Hx. by apply elem_of_nil in Hx.
Qed.

Lemma simplify_settled A :
  unique_symbols A → nonzero A → two_per_dimension (base_units A) →
  stable (base_units (simplify A)) = true.
Proof.
  intros Hu Hnz Htwo.
  destruct (simplify_loop_settled A Hu Hnz Htwo) as (H1 & H2 & H3).
  apply no_partners_stable; [apply Units_of_list_unique_symbols|].
  unfold simplify. rewrite Units_of_list_rev by done.
  rewrite prune_zero_id by done. by apply no_partners_rev.
Qed.

(** C9 (as the code has it).  For a unit expression with at most one atomic
    unit per symbol, no zero exponent and no three atomic units of one
    dimension, [simplify] leaves nothing that cancels or merges:
    simplifying the result again keeps the exponent of every symbol.  In
    the older package, whenever [simplify] returns on such an expression, a
    second [simplify] returns the same units, with the modifier 1. *)
Theorem simplify_idempotent_two_per_dimension (A : Units) :
  unique_symbols A → nonzero A → two_per_dimension (base_units A) →
  same_mapping (simplify (simplify A)) (simplify A) ∧
  (∀ E U m, Legacy.simplify E A = Ok (U, m) →
            Legacy.simplify E U = Ok (U, 1)).
Proof.
  intros Hu Hnz Htwo. split.
  - pose proof (simplify_settled A Hu Hnz Htwo) as Hs.
    intros s. unfold simplify at 1.
    rewrite simplify_loop_stable by done. simpl app.
    apply Units_of_list_mapping.
  - intros E U m H.
    destruct (simplify_loop_settled A Hu Hnz Htwo) as (H1 & H2 & H3).
    pose proof (legacy_simplify_result E A) as HU. rewrite H in HU.
    unfold Legacy.Units_of_list in HU. rewrite prune_zero_id in HU by done.
    subst U. unfold Legacy.simplify. simpl base_units.
    rewrite legacy_simplify_loop_stable;
      [|by apply no_partners_stable|done].
    unfold_monad. unfold Legacy.Units_of_list.
    by rewrite prune_zero_id.
Qed.

(** m s^-1 in: the scan for m passes s^-1 and merges in, which gives
    m^2 s^-1; simplified again, nothing changes but the order. *)
Lemma simplify_idempotent_two_per_dimension_witness :
  let A := mkUnits "" [Std.unit "m" 1; Std.unit "s" (-1); Std.unit "in" 1] in
  unique_symbols A ∧ nonzero A ∧ two_per_dimension (base_units A) ∧
  base_units (simplify A) = [Std.unit "s" (-1); Std.unit "m" 2] ∧
  same_mapping (simplify (simplify A)) (simplify A) ∧
  ∃ U m, Legacy.simplify Std.env A = Ok (U, m) ∧
         base_units U = [Std.unit "m" 2; Std.unit "s" (-1)] ∧
         Legacy.simplify Std.env U = Ok (U, 1).
Proof.
  intros A.
  assert (Hu : unique_symbols A)
    by (apply (bool_decide_unpack _); vm_compute; exact I).
  assert (Hnz : nonzero A)
    by (apply (bool_decide_unpack _); vm_compute; exact I).
  assert (Htwo : two_per_dimension (base_units A))
    by (apply (bool_decide_unpack _); vm_compute; exact I).
  destruct (simplify_idempotent_two_per_dimension A Hu Hnz Htwo) as [H1 H2].
  split; [exact Hu|]. split; [exact Hnz|]. split; [exact Htwo|].
  split; [apply (bool_decide_unpack _); vm_compute; exact I|].
  split; [exact H1|].
  assert (HA : Legacy.simplify Std.env A =
               Ok (mkUnits "" [Std.unit "m" 2; Std.unit "s" (-1)],
                   Std.q 254 10000))
    by (apply (bool_decide_unpack _); vm_compute; exact I).
  eexists _, _. split; [exact HA|]. split; [reflexivity|].
  exact (H2 Std.env _ _ HA).
Defined.

(** C9, as stated, fails: with m, ft^2 and in of one dimension, the scan for
    m passes ft^2 and merges in, which gives m^2 ft^2; simplified again, ft^2
    merges m^2 and leaves ft^4.  In the older package, whose constructor
    keeps the order, m^2 merges ft^2 and leaves m^4. *)
Lemma simplify_not_idempotent :
  let A := Units_of_list "" [Std.unit "in" 1; Std.unit "ft" 2; Std.unit "m" 1] in
  (base_units A = [Std.unit "m" 1; Std.unit "ft" 2; Std.unit "in" 1] ∧
   base_units (simplify A) = [Std.unit "ft" 2; Std.unit "m" 2] ∧
   base_units (simplify (simplify A)) = [Std.unit "ft" 4] ∧
   ¬ same_mapping (simplify (simplify A)) (simplify A)) ∧
  (∃ U1 m1 U2 m2,
     Legacy.simplify Std.env A = Ok (U1, m1) ∧
     Legacy.simplify Std.env U1 = Ok (U2, m2) ∧
     base_units U1 = [Std.unit "m" 2; Std.unit "ft" 2] ∧
     base_units U2 = [Std.unit "m" 4] ∧
     ¬ same_mapping U2 U1).
Proof.
  intros A. split.
  - repeat split; try by_compute.
    intros H. specialize (H "m"). revert H. by_compute.
  - do 4 eexists. split; [by vm_compute|]. split; [by vm_compute|].
    split; [by_compute|]. split; [by_compute|].
    intros H. specialize (H "ft"). revert H. by_compute.
Qed.

